(** * duplex-message: the Composie routing trie, the composition engine,
      the correlation engine of [AbstractHub] and the [MessageHub] class

    A shallow embedding of [src/dist/message-hub.browser.js]: the bundled
    [Composie] class (routing trie, [route], [composeMiddlewares], [run]),
    the [AbstractHub] class (request / response / progress correlation) and
    the bundled [MessageHub] class (events, fetches and their responses
    between a window and a frame or a worker).

    Conventions of the embedding.
    - A JS object is an association list in [Object.keys] order; reading a
      property reads the first binding, as the operations below keep it.
    - A JS [number] that the code only uses as a counter or an identifier is
      an integer of [Z]. This is exact below 2^53; [Hub.increment] is [++]
      on the double.
    - A function value is a reference [VFun f]; what calling a user function
      does is a parameter of the section that needs it, and user code does
      not call back into the hub while the hub runs it.
    - A promise is modelled by how it settles; a handler awaits the
      continuation it calls.
    - An object is held by its contents, and an inbound message is a fresh
      object. The code keeps the configuration object of [_emit] and the
      method map of [_on] and writes into them: [Hub.steps] runs calls that
      each pass an object of their own, [Hub._emit_same_object] is [_emit]
      with the configuration object of a pending call, and [Hub.run_calls]
      runs such calls too.
    - A loop that walks the trie, and the recursion of [composeMiddlewares],
      take fuel; each is proved to return with the fuel it is given.
    - [route] and the methods of [MessageHub] return an [option]: [None]
      where the code throws on what a plain object inherits under a name
      it has no own property for, or where a message has a shape that no
      [MessageHub] posts. *)

From Stdlib Require Import ZArith NArith Ascii String List Bool Sorted Lia.
From stdpp Require Import base option list.
Import ListNotations.
Set Warnings "-register-all".
Local Open Scope string_scope.
Local Open Scope Z_scope.
Local Open Scope list_scope.

(** ** JavaScript values and objects *)

Module JS.

(** [Object.keys] lists the array-index keys ("0", "7", "42": canonical
    decimal numerals below 2^32 - 1) first, in ascending numeric order, and
    the other string keys after them in insertion order. *)
Definition digit (c : ascii) : option N :=
  let n := N_of_ascii c in
  if ((48 <=? n) && (n <=? 57))%N then Some (n - 48)%N else None.

Fixpoint digits (acc : N) (s : string) : option N :=
  match s with
  | EmptyString => Some acc
  | String c r =>
      match digit c with
      | Some d => digits (10 * acc + d)%N r
      | None => None
      end
  end.

Definition array_index (k : string) : option N :=
  match k with
  | EmptyString => None
  | String c r =>
      if (Ascii.eqb c "0" && negb (String.eqb r ""))%bool then None
      else match digits 0%N k with
           | Some n => if (n <? 4294967295)%N then Some n else None
           | None => None
           end
  end.

Definition obj (A : Type) : Type := list (string * A).

Section Objects.
Context {A : Type}.

(** [Object.keys(o)] *)
Definition keys (o : obj A) : list string := map fst o.

(** [o[k]] on an own property; [None] is [undefined]. *)
Fixpoint obj_get (o : obj A) (k : string) : option A :=
  match o with
  | [] => None
  | (k', v) :: r => if String.eqb k' k then Some v else obj_get r k
  end.

(** [o[k] = v] when [k] is already an own property: the key keeps its
    place. *)
Fixpoint obj_replace (o : obj A) (k : string) (v : A) : obj A :=
  match o with
  | [] => []
  | (k', v') :: r =>
      if String.eqb k' k then (k', v) :: r else (k', v') :: obj_replace r k v
  end.

(** A new array-index key goes before the first key that is no array
    index or a greater one. *)
Fixpoint obj_insert_index (o : obj A) (n : N) (k : string) (v : A) : obj A :=
  match o with
  | [] => [(k, v)]
  | (k', v') :: r =>
      match array_index k' with
      | Some n' =>
          if (n' <? n)%N then (k', v') :: obj_insert_index r n k v
          else (k, v) :: o
      | None => (k, v) :: o
      end
  end.

(** [o[k] = v] *)
Definition obj_set (o : obj A) (k : string) (v : A) : obj A :=
  match obj_get o k with
  | Some _ => obj_replace o k v
  | None =>
      match array_index k with
      | Some n => obj_insert_index o n k v
      | None => o ++ [(k, v)]
      end
  end.

(** [delete o[k]] *)
Fixpoint obj_delete (o : obj A) (k : string) : obj A :=
  match o with
  | [] => []
  | (k', v) :: r =>
      if String.eqb k' k then obj_delete r k else (k', v) :: obj_delete r k
  end.

(** [Object.assign(o, src)]: [o[k] = src[k]] for the keys [k] of [src],
    in key order. *)
Definition obj_assign (o src : obj A) : obj A :=
  fold_left (fun acc k =>
               match obj_get src k with
               | Some v => obj_set acc k v
               | None => acc
               end) (keys src) o.
End Objects.

(** [s.indexOf(t)]: the first position of [t] in [s], or -1. *)
Definition indexOf (s t : string) : Z :=
  match String.index 0 t s with
  | Some k => Z.of_nat k
  | None => -1
  end.

(** A reference to a function: one of the user's (a handler, an
    [onprogress] callback), a method every plain object inherits from
    [Object.prototype], or the closure [_onMessage] creates to report
    progress. *)
Inductive fn : Type :=
| UserFn (id : nat)
| ObjectProto (name : string)
| ProgressSink.

(** The values that cross the hub. [VError] is an [Error] object with its
    message. An object or an array is held by its contents: an inbound
    message is a fresh object, never one the hub already holds. *)
Inductive value : Type :=
| VUndefined
| VNull
| VBool (b : bool)
| VNum (n : Z)
| VStr (s : string)
| VFun (f : fn)
| VError (msg : string)
| VArr (a : list value)
| VObj (o : list (string * value)).

(** [Boolean(v)] *)
Definition truthy (v : value) : bool :=
  match v with
  | VUndefined | VNull => false
  | VBool b => b
  | VNum n => negb (n =? 0)
  | VStr s => negb (String.eqb s "")
  | VFun _ | VError _ | VArr _ | VObj _ => true
  end.

(** [typeof v === 'function'] *)
Definition is_function (v : value) : bool :=
  match v with VFun _ => true | _ => false end.

(** [typeof v === 'object'] *)
Definition is_object (v : value) : bool :=
  match v with VNull | VError _ | VArr _ | VObj _ => true | _ => false end.

(** [v.k] for a field name that no prototype defines: own properties of an
    object, [undefined] on everything else. *)
Definition field (v : value) (k : string) : value :=
  match v with
  | VObj o => default VUndefined (obj_get o k)
  | _ => VUndefined
  end.

(** [a[0]] of an array. *)
Definition first (a : list value) : value := default VUndefined (head a).

(** How a promise settles. *)
Inductive outcome : Type :=
| Fulfilled (v : value)
| Rejected (err : value).

(** [v === s] for a string [s], [v === n] for a number [n]. *)
Definition is_str (v : value) (s : string) : bool :=
  match v with VStr s' => String.eqb s' s | _ => false end.

Definition is_num (v : value) (n : Z) : bool :=
  match v with VNum n' => n' =? n | _ => false end.

(** [a === b] between a field of an inbound message and a field of a
    stored request: primitives by value, and an object of the one is never
    an object of the other. *)
Definition strict_eq (a b : value) : bool :=
  match a, b with
  | VUndefined, VUndefined => true
  | VNull, VNull => true
  | VBool x, VBool y => Bool.eqb x y
  | VNum x, VNum y => x =? y
  | VStr x, VStr y => String.eqb x y
  | _, _ => false
  end.

End JS.

(** ** Composie: the routing trie *)

Module Composie.
Import JS.

(** A node of [this.middlewares]: [{mdlws: [...], children: {...}}]; a leaf
    is created without [children]. *)
Inductive node (F : Type) : Type :=
| Node (mdlws : list F) (children : option (list (string * node F))).
Arguments Node {F} mdlws children.

Definition mdlws {F} (n : node F) : list F :=
  match n with Node m _ => m end.
Definition children {F} (n : node F) : option (obj (node F)) :=
  match n with Node _ c => c end.

Fixpoint height {F} (n : node F) : nat :=
  match n with
  | Node _ None => O
  | Node _ (Some o) =>
      S ((fix level (l : list (string * node F)) : nat :=
            match l with
            | [] => O
            | (_, c) :: r => Nat.max (height c) (level r)
            end) o)
  end.

Definition level_height {F} (o : obj (node F)) : nat :=
  fold_right (fun kc acc => Nat.max (height (snd kc)) acc) O o.

(** The instance: [wildcard] is the random token drawn by the constructor
    (it is taken not to name an inherited property of a plain object),
    [middlewares] the trie, [routers] the flat route table. *)
Record composie (F : Type) : Type := Composie {
  wildcard : string;
  middlewares : obj (node F);
  routers : obj (list F)
}.
Arguments Composie {F} wildcard middlewares routers.
Arguments wildcard {F} c.
Arguments middlewares {F} c.
Arguments routers {F} c.

(** [new Composie()] once the token [w] is drawn. *)
Definition create {F} (w : string) : composie F := Composie w [] [].

Section Trie.
Context {F : Type}.

(** The inner scan of [addMiddleware], [for(;r--;)] over
    [i = Object.keys(s)], from the last key to the first: the code [n]
    (0 when no key hits) and the last key looked at. *)
Fixpoint scan_keys (rkeys : list string) (e : string) (o : string)
  : Z * string :=
  match rkeys with
  | [] => (0, o)
  | k :: r =>
      if String.eqb k e then (1, k)
      else if indexOf e k =? 0 then (2, k)
      else if indexOf k e =? 0 then (3, k)
      else scan_keys r e k
  end.

(** The loop [for(;s;)] of [addMiddleware] on the level [s], as the
    level it leaves behind. [None] only when the fuel runs out. *)
Fixpoint add_loop (fuel : nat) (s : obj (node F)) (e : string) (t : F)
  : option (obj (node F)) :=
  let '(n, o) := scan_keys (rev (keys s)) e "" in
  if n =? 0 then Some (obj_set s e (Node [t] None))
  else
    match obj_get s o with
    | None => None
    | Some so =>
        if n =? 1 then Some (obj_replace s o (Node (mdlws so ++ [t]) (children so)))
        else if n =? 2 then
          match children so with
          | Some c =>
              match fuel with
              | O => None
              | S fuel' =>
                  c' ← add_loop fuel' c e t;
                  Some (obj_replace s o (Node (mdlws so) (Some c')))
              end
          | None =>
              Some (obj_replace s o (Node (mdlws so) (Some [(e, Node [t] None)])))
          end
        else
          Some (obj_set (obj_delete s o) e (Node [t] (Some [(o, so)])))
    end.

(** [addMiddleware(e, t)]. [None] is the [TypeError] of writing [s[e]]
    when the wildcard node has no [children]. *)
Definition addMiddleware (c : composie F) (e : string) (t : F)
  : option (composie F) :=
  let s := middlewares c in
  if String.eqb e (wildcard c) then
    match obj_get s e with
    | Some wn =>
        Some (Composie (wildcard c)
                (obj_replace s e (Node (mdlws wn ++ [t]) (children wn)))
                (routers c))
    | None =>
        Some (Composie (wildcard c) [(e, Node [t] (Some s))] (routers c))
    end
  else
    match obj_get s (wildcard c) with
    | Some wn =>
        match children wn with
        | Some ch =>
            ch' ← add_loop (level_height ch) ch e t;
            Some (Composie (wildcard c)
                    (obj_replace s (wildcard c) (Node (mdlws wn) (Some ch')))
                    (routers c))
        | None => None
        end
    | None =>
        s' ← add_loop (level_height s) s e t;
        Some (Composie (wildcard c) s' (routers c))
    end.

(** A sequence of [addMiddleware] calls. *)
Fixpoint addMiddlewares (c : composie F) (l : list (string * F))
  : option (composie F) :=
  match l with
  | [] => Some c
  | (e, t) :: rest => c' ← addMiddleware c e t; addMiddlewares c' rest
  end.

(** [x] put at position [i] of [l]: a registration made between
    others. *)
Definition insert_at {A : Type} (i : nat) (x : A) (l : list A) : list A :=
  take i l ++ x :: drop i l.

(** [use(e, t)] with a scope, and [use(t)] without one. *)
Definition use (c : composie F) (e : option string) (t : F)
  : option (composie F) :=
  match e with
  | Some s => addMiddleware c s t
  | None => addMiddleware c (wildcard c) t
  end.

(** The loop [for(;t;)] of [getMiddlewares]: [t] is the current level
    ([None] once [children] is missing), [s] the list collected so far. *)
Fixpoint get_loop (fuel : nat) (e : string) (t : option (obj (node F)))
  (s : list F) : option (list F) :=
  match t with
  | None => Some s
  | Some lvl =>
      match find (fun k => negb (indexOf e k =? -1)) (keys lvl) with
      | None => Some s
      | Some i =>
          match obj_get lvl i, fuel with
          | Some n, S fuel' => get_loop fuel' e (children n) (s ++ mdlws n)
          | _, _ => None
          end
      end
  end.

Definition level_opt_height (t : option (obj (node F))) : nat :=
  match t with Some lvl => S (level_height lvl) | None => O end.

(** [getMiddlewares(e)] *)
Definition getMiddlewares (c : composie F) (e : string) : option (list F) :=
  let t := middlewares c in
  match obj_get t (wildcard c) with
  | Some wn => get_loop (level_opt_height (children wn)) e (children wn) (mdlws wn)
  | None => get_loop (level_opt_height (Some t)) e (Some t) []
  end.

(** Two nodes that the loop of [getMiddlewares] treats alike for a
    channel: the same list, and the same collected below them. *)
Definition alike (ch : string) (n n' : node F) : Prop :=
  mdlws n' = mdlws n /\
  forall acc g g',
    (level_opt_height (children n) <= g)%nat ->
    (level_opt_height (children n') <= g')%nat ->
    get_loop g' ch (children n') acc = get_loop g ch (children n) acc.

(** The property names a plain object inherits from [Object.prototype]:
    [this.routers[name]] finds something for them when [name] is no own
    property. *)
Definition inherited (name : string) : bool :=
  existsb (String.eqb name)
    ["__proto__"; "constructor"; "hasOwnProperty"; "isPrototypeOf";
     "propertyIsEnumerable"; "toLocaleString"; "toString"; "valueOf";
     "__defineGetter__"; "__defineSetter__"; "__lookupGetter__";
     "__lookupSetter__"].

(** The [forEach] of [route] over the keys [ks] of the map [e]: the
    handlers of a key (a value that is no array counts as an array of one)
    are pushed on [this.routers[key]], which is created when there is
    something to push. [None] is the [TypeError] of [push] on what
    [this.routers[key]] finds for an inherited name. *)
Fixpoint route_keys (e : obj (F + list F)) (ks : list string)
  (routers : obj (list F)) : option (obj (list F)) :=
  match ks with
  | [] => Some routers
  | t :: rest =>
      match obj_get e t with
      | Some v =>
          let s := match v with inl f => [f] | inr l => l end in
          if (0 <? length s)%nat then
            match obj_get routers t with
            | Some l => route_keys e rest (obj_set routers t (l ++ s))
            | None =>
                if inherited t then None
                else route_keys e rest (obj_set routers t ([] ++ s))
            end
          else route_keys e rest routers
      | None => route_keys e rest routers
      end
  end.

(** [route(e)] with a map, and [route(e, ...t)] with a channel name, where
    [e = {[e]: t}]. *)
Definition route_map (c : composie F) (e : obj (F + list F))
  : option (composie F) :=
  routers' ← route_keys e (keys e) (routers c);
  Some (Composie (wildcard c) (middlewares c) routers').

Definition route (c : composie F) (e : string) (t : list F)
  : option (composie F) :=
  route_map c [(e, inr t)].

(** The trie as [addMiddleware] leaves it: the wildcard node, when there
    is one, has [children]. *)
Definition trie_ok (c : composie F) : Prop :=
  forall wn, obj_get (middlewares c) (wildcard c) = Some wn ->
             is_Some (children wn).
End Trie.

(** *** The composition engine *)

(** The request context of [createContext], with the [response] field the
    handlers fill in. *)
Record context : Type := MkContext {
  channel : string;
  request : value;
  response : value
}.

Definition createContext (e : string) (t : value) : context :=
  MkContext e t VUndefined.

(** [new Error("next() called multiple times")] *)
Definition next_called_multiple_times : value :=
  VError "next() called multiple times".

Section Compose.
(** [E] is everything a handler can reach besides the context it is
    given: the hub, its registrations, its pending calls. *)
Context {E : Type}.

Record world : Type := World { ctx : context; ext : E }.

(** A handler [(context, next) => ...], by what it does: it returns a
    value (or a promise of it), throws (or returns a promise that
    rejects), awaits [next()] and goes on with how that settled, writes
    or reads the context and the rest of the world. It reaches the
    index [i] of the chain through [next] only. *)
Inductive handler : Type :=
| Return (v : value)
| Throw (err : value)
| Next (k : outcome -> handler)
| Update (f : world -> world) (k : handler)
| Read (k : world -> handler).

(** The state of one call of the composed function: its local [i] and
    the world. *)
Record cstate : Type := CState { i : Z; wld : world }.

Definition continuation : Type := cstate -> option (outcome * cstate).

(** [Promise.resolve(o(t, next))] under [try]/[catch]. *)
Fixpoint call (o : handler) (next : continuation) (st : cstate)
  : option (outcome * cstate) :=
  match o with
  | Return v => Some (Fulfilled v, st)
  | Throw err => Some (Rejected err, st)
  | Next k =>
      match next st with
      | Some (r, st') => call (k r) next st'
      | None => None
      end
  | Update f k => call k next (CState (i st) (f (wld st)))
  | Read k => call (k (wld st)) next st
  end.

(** [o => o] as the end of a handler: it settles the way [o] did. *)
Definition settle_as (o : outcome) : handler :=
  match o with
  | Fulfilled v => Return v
  | Rejected err => Throw err
  end.

(** [(ctx, next) => next()] *)
Definition forward : handler := Next settle_as.

(** [async (ctx, next) => { await next(); return next() }] *)
Definition next_twice : handler :=
  Next (fun first_time =>
          match first_time with
          | Fulfilled _ => Next settle_as
          | Rejected err => Throw err
          end).

(** [async (ctx, next) => { await next(); await next().then(note, note) }]:
    the second call is made and how it settles is noted, not returned. *)
Definition next_twice_discarding (note : outcome -> world -> world) : handler :=
  Next (fun _ => Next (fun second_time => Update (note second_time) (Return VUndefined))).

(** [async (ctx, next) => { before(ctx); try { return await next() }
    finally { after(ctx) } }] *)
Definition wrap (before after : world -> world) : handler :=
  Update before (Next (fun o => Update after (settle_as o))).

(** What the [before] parts of such handlers do to the world, the first
    handler first, and what their [after] parts do, the last handler
    first. *)
Definition befores (fg : list ((world -> world) * (world -> world)))
  (w : world) : world :=
  fold_left (fun acc p => fst p acc) fg w.

Definition afters (fg : list ((world -> world) * (world -> world)))
  (w : world) : world :=
  fold_right (fun p acc => snd p acc) w fg.

(** [next] for a handler whose call of it has returned: [i] has passed the
    index that [next] is bound to, and the call returns the rejected
    promise. *)
Definition rejected_next : continuation :=
  fun st => Some (Rejected next_called_multiple_times, st).

(** The call of a handler in which only the first call of [next] is
    [next]: the calls after it are [rejected_next]. *)
Fixpoint call_once (o : handler) (next : continuation) (st : cstate)
  : option (outcome * cstate) :=
  match o with
  | Return v => Some (Fulfilled v, st)
  | Throw err => Some (Rejected err, st)
  | Next k =>
      match next st with
      | Some (r, st') => call (k r) rejected_next st'
      | None => None
      end
  | Update f k => call_once k next (CState (i st) (f (wld st)))
  | Read k => call_once (k (wld st)) next st
  end.

(** A handler that settles the way the outcome [o] it holds did, as
    [o => o] does, whatever it writes to or reads from the world before. *)
Inductive settles_as_given (o : outcome) : handler -> Prop :=
| settles_here : settles_as_given o (settle_as o)
| settles_update f k : settles_as_given o k -> settles_as_given o (Update f k)
| settles_read k : (forall w, settles_as_given o (k w)) -> settles_as_given o (Read k).

(** A handler that calls [next] once and returns what the call gave it:
    [(ctx, next) => next()], or [wrap before after]. *)
Inductive passes_on : handler -> Prop :=
| passes_next k : (forall o, settles_as_given o (k o)) -> passes_on (Next k)
| passes_update f k : passes_on k -> passes_on (Update f k)
| passes_read k : (forall w, passes_on (k w)) -> passes_on (Read k).

(** A handler that has no call of [next] in it. *)
Inductive no_next : handler -> Prop :=
| no_next_return v : no_next (Return v)
| no_next_throw err : no_next (Throw err)
| no_next_update f k : no_next k -> no_next (Update f k)
| no_next_read k : (forall w, no_next (k w)) -> no_next (Read k).

(** What such a handler does by itself in a world. *)
Definition alone (h : handler) (w : world) : option (outcome * world) :=
  '(res, st) ← call h (fun _ => None) (CState 0 w);
  Some (res, wld st).

(** [ctx => { ctx.response = v }] *)
Definition respond_with (v : value) : handler :=
  Update (fun w => World (MkContext (channel (ctx w)) (request (ctx w)) v) (ext w))
    (Return VUndefined).

(** [e[n]] of an array of handlers. *)
Definition at_index (e : list handler) (n : Z) : option handler :=
  if n <? 0 then None else e !! Z.to_nat n.

(** [let o = e[n]; n === e.length && (o = s)] *)
Definition slot (e : list handler) (s : option handler) (n : Z)
  : option handler :=
  if n =? Z.of_nat (length e) then s else at_index e n.

(** The function [r(n)] of [composeMiddlewares(e)(t, s)]; [next] is
    [r.bind(null, n + 1)]. [None] only when the fuel runs out. *)
Fixpoint r (fuel : nat) (e : list handler) (s : option handler) (n : Z)
  (st : cstate) : option (outcome * cstate) :=
  match fuel with
  | O => None
  | S fuel' =>
      if n <=? i st then Some (Rejected next_called_multiple_times, st)
      else
        let st1 := CState n (wld st) in
        match slot e s n with
        | None => Some (Fulfilled VUndefined, st1)
        | Some h => call h (r fuel' e s (n + 1)) st1
        end
  end.

(** [composeMiddlewares(e)(t, s)]: [i] starts at -1 and [r(0)] runs. The
    context [t] is the one of the world. *)
Definition composeMiddlewares (e : list handler) (s : option handler)
  (w : world) : option (outcome * world) :=
  '(res, st) ← r (S (S (length e))) e s 0 (CState (-1) w);
  Some (res, wld st).

(** [run(e, t)] on a channel name: the promise it returns and the world
    it leaves. [None] is the [TypeError] of [r.push(...n)] on what
    [this.routers[i]] finds for an inherited name that has no route. *)
Definition run (c : composie handler) (e : string) (t : value) (x : E)
  : option (outcome * world) :=
  let s := createContext e t in
  let ch := channel s in
  mws ← getMiddlewares c ch;
  n ← match obj_get (routers c) ch with
      | Some l => Some l
      | None => if inherited ch then None else Some []
      end;
  let rs := mws ++ n in
  if (0 <? length rs)%nat then
    '(res, w) ← composeMiddlewares rs None (World s x);
    match res with
    | Fulfilled _ => Some (Fulfilled (response (ctx w)), w)
    | Rejected err => Some (Rejected err, w)
    end
  else Some (Fulfilled VUndefined, World s x).
End Compose.
Arguments world E : clear implicits.
Arguments handler E : clear implicits.
Arguments cstate E : clear implicits.
Arguments continuation E : clear implicits.

(** A handler's note of an outcome, in a world that keeps such notes. *)
Definition note (o : outcome) (w : world (list outcome)) : world (list outcome) :=
  World (ctx w) (o :: ext w).

End Composie.

(** ** AbstractHub: the correlation engine *)

Module Hub.
Import JS.

(** A [target]: the broadcast wildcard ['*'] or a peer (a window, a
    worker), compared by reference. *)
Inductive target : Type :=
| Star
| Peer (p : nat).

Global Instance target_eq_dec : EqDecision target.
Proof. solve_decision. Defined.

(** [IHandlerMap | Function]: what [_eventHandlerMap] stores for a target.
    A method map is held by its own properties. The code stores the map
    object the caller passes: a map registered for two targets is one
    object, and [_off] with a method name deletes from it for both. *)
Inductive registration : Type :=
| HFunction (f : nat)
| HMap (m : obj nat).

(** The second and third argument of [_on]. *)
Inductive on_arg : Type :=
| OnMap (m : obj nat)
| OnFunction (f : nat)
| OnMethod (methodName : string) (handler : nat).

(** The closure [callback] that [_emit] pushes on [_responseCallbacks]: it
    holds the request it was built for and the [resolve] / [reject] pair
    of the promise [_emit] returns. *)
Record callback : Type := Callback {
  cb_reqMsg : obj value;
  cb_promise : nat
}.

(** What the hub does to the outside. *)
Inductive event : Type :=
| Sent (t : target) (msg : value)
| Progressed (f : fn) (data : value)
| Warned (what : string).

(** The fields of the hub, followed by the promises [_emit] has handed out
    ([None] while pending) and the events so far, oldest first. *)
Record hub : Type := MkHub {
  instanceID : string;
  _eventHandlerMap : list (target * registration);
  _responseCallbacks : list callback;
  _messageID : Z;
  promises : list (option outcome);
  trace : list event
}.

(** [Array(n).join(sep)]: the array has [n] holes, each joined as the
    empty string. *)
Fixpoint join_holes (n : nat) (sep : string) : string :=
  match n with
  | O | S O => ""
  | S n' => (join_holes n' sep ++ sep)%string
  end.

(** [s.slice(0, -1)] *)
Definition slice_0_minus_1 (s : string) : string :=
  String.substring 0 (String.length s - 1) s.

(** [generateInstanceID()], with [random] for
    [Math.random().toString(36).slice(2)], evaluated once. *)
Definition generateInstanceID (random : string) : string :=
  slice_0_minus_1 (join_holes 3 (random ++ "-")).

(** The constructor, once [generateInstanceID] has drawn [id]. *)
Definition create (id : string) : hub := MkHub id [] [] 0 [] [].

Definition with_handlers (h : hub) (m : list (target * registration)) : hub :=
  MkHub (instanceID h) m (_responseCallbacks h) (_messageID h) (promises h) (trace h).
Definition with_callbacks (h : hub) (c : list callback) : hub :=
  MkHub (instanceID h) (_eventHandlerMap h) c (_messageID h) (promises h) (trace h).
Definition with_messageID (h : hub) (n : Z) : hub :=
  MkHub (instanceID h) (_eventHandlerMap h) (_responseCallbacks h) n (promises h) (trace h).
Definition with_promises (h : hub) (p : list (option outcome)) : hub :=
  MkHub (instanceID h) (_eventHandlerMap h) (_responseCallbacks h) (_messageID h) p (trace h).
Definition emit_event (h : hub) (e : event) : hub :=
  MkHub (instanceID h) (_eventHandlerMap h) (_responseCallbacks h) (_messageID h)
    (promises h) (trace h ++ [e]).

(** [this.sendMessage(target, msg)] of the subclass: the message leaves. *)
Definition sendMessage (h : hub) (t : target) (msg : value) : hub :=
  emit_event h (Sent t msg).

(** [resolve(v)] / [reject(v)] of promise [p]: only a pending promise
    settles. *)
Definition settle (h : hub) (p : nat) (o : outcome) : hub :=
  match promises h !! p with
  | Some None => with_promises h (<[p := Some o]> (promises h))
  | _ => h
  end.

Definition _hasListeners (h : hub) : bool :=
  (0 <? length (_eventHandlerMap h))%nat.

(** [this._eventHandlerMap.find(pair => pair[0] === target)] with its
    index. *)
Definition find_pair (h : hub) (t : target) : option (nat * (target * registration)) :=
  list_find (fun entry => entry.1 = t) (_eventHandlerMap h).

(** [_on(target, handlerMap)] and [_on(target, methodName, handler)]. The
    merge [Object.assign({}, existingMap, handlerResult)] copies own
    properties; a property named "__proto__" of either map is copied too,
    where the code runs the setter that [{}] inherits under this name. *)
Definition _on (h : hub) (t : target) (a : on_arg) : hub :=
  let handlerResult :=
    match a with
    | OnMethod methodName handler => HMap [(methodName, handler)]
    | OnMap m => HMap m
    | OnFunction f => HFunction f
    end in
  match find_pair h t with
  | Some (idx, (t', existingMap)) =>
      let merged :=
        match existingMap, handlerResult with
        | HFunction _, _ => handlerResult
        | HMap _, HFunction _ => handlerResult
        | HMap em, HMap nm => HMap (obj_assign (obj_assign [] em) nm)
        end in
      with_handlers h (<[idx := (t', merged)]> (_eventHandlerMap h))
  | None =>
      match t with
      | Star => with_handlers h ((t, handlerResult) :: _eventHandlerMap h)
      | Peer _ => with_handlers h (_eventHandlerMap h ++ [(t, handlerResult)])
      end
  end.

(** What [_on] stores for the target: [pair[1]] afterwards. *)
Definition stored (h : hub) (t : target) (a : on_arg) : registration :=
  match find_pair h t, a with
  | Some (_, (_, HMap em)), OnMethod methodName handler =>
      HMap (obj_assign (obj_assign [] em) [(methodName, handler)])
  | Some (_, (_, HMap em)), OnMap nm => HMap (obj_assign (obj_assign [] em) nm)
  | _, OnMethod methodName handler => HMap [(methodName, handler)]
  | _, OnMap nm => HMap nm
  | _, OnFunction f => HFunction f
  end.

(** [!methodName] for [methodName?: string]. *)
Definition no_methodName (methodName : option string) : bool :=
  match methodName with
  | None => true
  | Some s => String.eqb s ""
  end.

(** [_off(target, methodName)]: [delete handlerMap[methodName]] removes
    the own property of the map found for the target. *)
Definition _off (h : hub) (t : target) (methodName : option string) : hub :=
  match find_pair h t with
  | None => h
  | Some (index, (t', handlerMap)) =>
      if no_methodName methodName then
        with_handlers h (delete index (_eventHandlerMap h))
      else
        match handlerMap with
        | HMap m =>
            let m' := obj_delete m (default "" methodName) in
            if (length (keys m') =? 0)%nat then
              with_handlers h (delete index (_eventHandlerMap h))
            else
              with_handlers h (<[index := (t', HMap m')]> (_eventHandlerMap h))
        | HFunction _ => h
        end
  end.

(** The registrations as [_on] and [_off] keep them: one for a target, and
    the wildcard's at index 0. *)
Definition registrations_ok (h : hub) : Prop :=
  NoDup (map fst (_eventHandlerMap h)) /\
  forall idx reg, _eventHandlerMap h !! idx = Some (Star, reg) -> idx = 0%nat.

(** *** Envelopes *)


(** [_buildReqMessage(methodName, args)]: the hub with its counter moved
    and the request. The counter is moved as an integer, which is
    [increment] as long as it is below 2^53. [Object.assign] writes into
    the configuration object when [methodName] is one, and the request is
    that object: here the call has a configuration object that no pending
    call holds, and the request is held by its contents;
    [_emit_same_object] below is the call made with the object of a
    pending call. *)
Definition _buildReqMessage (h : hub) (methodName : string + obj value)
  (args : list value) : hub * obj value :=
  let basicCfg :=
    match methodName with
    | inl name => [("methodName", VStr name)]
    | inr cfg => cfg
    end in
  let id := _messageID h + 1 in
  (with_messageID h id,
   obj_assign basicCfg
     [("fromInstance", VStr (instanceID h));
      ("messageID", VNum id);
      ("type", VStr "request");
      ("args", VArr args)]).

Definition _buildRespMessage (h : hub) (data : value) (reqMsg : value)
  (isSuccess : bool) : value :=
  VObj [("fromInstance", VStr (instanceID h));
        ("toInstance", field reqMsg "fromInstance");
        ("messageID", field reqMsg "messageID");
        ("type", VStr "response");
        ("isSuccess", VBool isSuccess);
        ("data", data)].

Definition _buildProgressMessage (h : hub) (data : value) (reqMsg : value)
  : value :=
  VObj [("fromInstance", VStr (instanceID h));
        ("toInstance", field reqMsg "fromInstance");
        ("messageID", field reqMsg "messageID");
        ("type", VStr "progress");
        ("data", data)].

Definition _isRequest (h : hub) (reqMsg : value) : bool :=
  truthy reqMsg
  && truthy (field reqMsg "fromInstance")
  && negb (is_str (field reqMsg "fromInstance") (instanceID h))
  && (negb (truthy (field reqMsg "toInstance"))
      || is_str (field reqMsg "toInstance") (instanceID h))
  && truthy (field reqMsg "messageID")
  && is_str (field reqMsg "type") "request".

Definition _isResponse (h : hub) (reqMsg : obj value) (respMsg : value) : bool :=
  is_str (field respMsg "toInstance") (instanceID h)
  && strict_eq (field respMsg "toInstance") (field (VObj reqMsg) "fromInstance")
  && strict_eq (field respMsg "messageID") (field (VObj reqMsg) "messageID")
  && is_str (field respMsg "type") "response".

Definition _isProgress (h : hub) (reqMsg : obj value) (respMsg : value) : bool :=
  is_str (field respMsg "toInstance") (instanceID h)
  && strict_eq (field respMsg "toInstance") (field (VObj reqMsg) "fromInstance")
  && strict_eq (field respMsg "messageID") (field (VObj reqMsg) "messageID")
  && is_str (field respMsg "type") "progress".

(** [msg.args[0]] of a request object. *)
Definition args0 (msg : obj value) : value :=
  match field (VObj msg) "args" with
  | VArr a => first a
  | _ => VUndefined
  end.

(** [_normalizeRequest(target, msg)] *)
Definition _normalizeRequest (t : target) (msg : obj value) : obj value :=
  match t with
  | Star => msg
  | Peer _ =>
      let options := args0 msg in
      if negb (truthy options) || negb (is_function (field options "onprogress"))
      then msg
      else
        let newMsg := obj_assign (obj_assign [] msg) [("progress", VBool true)] in
        match field (VObj newMsg) "args", options with
        | VArr a, VObj o =>
            let copied := obj_delete (obj_assign [] o) "onprogress" in
            obj_set newMsg "args" (VArr (<[0%nat := VObj copied]> a))
        | _, _ => newMsg
        end
  end.

(** *** Outstanding calls *)

(** [reqMsg.args[0].onprogress] when [reqMsg.args[0]] is truthy and it is
    a function. *)
Definition onprogress_of (reqMsg : obj value) : option fn :=
  match truthy (args0 reqMsg), field (args0 reqMsg) "onprogress" with
  | true, VFun f => Some f
  | _, _ => None
  end.

(** [response.isSuccess ? resolve(response.data) : reject(response.data)] *)
Definition settlement (response : value) : outcome :=
  if truthy (field response "isSuccess")
  then Fulfilled (field response "data")
  else Rejected (field response "data").

(** The closure [callback] of [_emit] applied to [response]: 0 for no
    match, 1 for done, 2 for a progress report. Whether the user's
    [onprogress] throws only decides a [console.warn]. *)
Definition run_callback (h : hub) (cb : callback) (response : value) : Z * hub :=
  let reqMsg := cb_reqMsg cb in
  if negb (_isResponse h reqMsg response) then
    if negb (_isProgress h reqMsg response) then (0, h)
    else
      match onprogress_of reqMsg with
      | Some f => (2, emit_event h (Progressed f (field response "data")))
      | None => (2, h)
      end
  else (1, settle h (cb_promise cb) (settlement response)).

(** [_listenResponse(target, reqMsg, callback)] *)
Definition _listenResponse (h : hub) (t : target) (cb : callback) : hub :=
  with_callbacks h (_responseCallbacks h ++ [cb]).

(** [_emit(target, methodName, ...args)]: the hub afterwards and the
    promise returned. *)
Definition _emit (h : hub) (t : target) (methodName : string + obj value)
  (args : list value) : hub * nat :=
  let '(h1, reqMsg) := _buildReqMessage h methodName args in
  let h2 := sendMessage h1 t (VObj (_normalizeRequest t reqMsg)) in
  let p := length (promises h2) in
  let h3 := with_promises h2 (promises h2 ++ [None]) in
  (_listenResponse h3 t (Callback reqMsg p), p).

(** The [messageID] of the request a pending call waits for. *)
Definition request_id (cb : callback) : value :=
  field (VObj (cb_reqMsg cb)) "messageID".


(** [this._responseCallbacks.findIndex(fn => { ret = fn(msg); return
    Boolean(ret) })] from index [idx] on: the index found with the last
    [ret], and the hub after the callbacks that ran. *)
Fixpoint find_callback (h : hub) (cbs : list callback) (msg : value) (idx : nat)
  : option (nat * Z) * hub :=
  match cbs with
  | [] => (None, h)
  | cb :: rest =>
      let '(ret, h') := run_callback h cb msg in
      if negb (ret =? 0) then (Some (idx, ret), h')
      else find_callback h' rest msg (S idx)
  end.

(** The branch of [_onMessage] for a message that is no request. *)
Definition on_reply (h : hub) (msg : value) : hub :=
  match find_callback h (_responseCallbacks h) msg 0 with
  | (Some (idx, ret), h') =>
      if 1 <? ret then h'
      else with_callbacks h' (delete idx (_responseCallbacks h'))
  | (None, h') => h'
  end.

(** *** Inbound requests *)

(** The function-valued properties of [Object.prototype]: what
    [handlerMap[methodName]] finds on a plain object that has no own
    property of that name. *)
Definition object_prototype_functions : list string :=
  ["constructor"; "hasOwnProperty"; "isPrototypeOf"; "propertyIsEnumerable";
   "toLocaleString"; "toString"; "valueOf"; "__defineGetter__";
   "__defineSetter__"; "__lookupGetter__"; "__lookupSetter__"].

(** [handlerMap[methodName]] when it is a function. *)
Definition method_of_map (m : obj nat) (methodName : string) : option fn :=
  match obj_get m methodName with
  | Some f => Some (UserFn f)
  | None =>
      if existsb (String.eqb methodName) object_prototype_functions
      then Some (ObjectProto methodName)
      else None
  end.

(** [matchedMap] of [_runMsgCallback]: the registration of the target or
    else the wildcard's, which [_on] keeps at index 0. *)
Definition matchedMap (h : hub) (t : target) : option (target * registration) :=
  match find_pair h t with
  | Some (_, found) => Some found
  | None =>
      match _eventHandlerMap h with
      | (Star, reg) :: _ => Some (Star, reg)
      | _ => None
      end
  end.

(** [method] of [_runMsgCallback] when [typeof method === 'function'], and
    the [args] it is applied to ([methodName] first for a catch-all). *)
Definition resolve_method (h : hub) (t : target) (methodName : string)
  (args : list value) : option fn * list value :=
  match matchedMap h t with
  | Some (_, HFunction f) => (Some (UserFn f), VStr methodName :: args)
  | Some (_, HMap m) => (method_of_map m methodName, args)
  | None => (None, args)
  end.

(** The first step of [_onMessage] on a request, [if (msg.progress &&
    msg.args[0]) msg.args[0].onprogress = ...]: the [args] afterwards and
    whether the sink is attached, or [None] when the assignment throws (the
    class is strict code: a property cannot be created on a primitive). *)
Definition attach_progress (msg : value) (args : list value)
  : option (list value * bool) :=
  if truthy (field msg "progress") && truthy (first args) then
    match first args with
    | VObj o =>
        Some (<[0%nat := VObj (obj_set o "onprogress" (VFun ProgressSink))]> args, true)
    | VBool _ | VNum _ | VStr _ => None
    | _ => Some (args, true)
    end
  else Some (args, false).

Section Dispatch.
(** What calling a function on arguments does: the payloads it reports
    through the progress sink, when it has one, and how it settles. A
    handler does not call back into the hub while it runs. *)
Variable apply_fn : fn -> list value -> list value * outcome.

Definition no_handler_found (methodName : string) : string :=
  "[MessageHub] no corresponding handler found for " ++ methodName.

(** The text of the [console.warn] before the error is thrown; the target
    is its second argument. *)
Definition no_handler_warning (methodName : string) : string :=
  no_handler_found methodName ++ ", message from".

(** [_runMsgCallback(target, reqMsg)] on a request with a string
    [methodName] and an array [args]: the hub afterwards and the response
    it returns or throws. [sink] tells whether [_onMessage] attached the
    progress sink. *)
Definition _runMsgCallback (h : hub) (t : target) (reqMsg : value)
  (methodName : string) (args : list value) (sink : bool) : hub * value :=
  match resolve_method h t methodName args with
  | (None, _) =>
      let h1 := emit_event h (Warned (no_handler_warning methodName)) in
      (h1, _buildRespMessage h1 (VError (no_handler_found methodName)) reqMsg false)
  | (Some method, args') =>
      let '(reports, res) := apply_fn method args' in
      let h1 :=
        if sink then
          fold_left (fun hh data =>
                       sendMessage hh t (_buildProgressMessage hh data reqMsg))
            reports h
        else h in
      match res with
      | Fulfilled data => (h1, _buildRespMessage h1 data reqMsg true)
      | Rejected error => (h1, _buildRespMessage h1 error reqMsg false)
      end
  end.

(** [_onMessage(target, msg)]. [None] when [msg] passes [_isRequest]
    without being an [IRequest]: its [methodName] is no string or its
    [args] no array. *)
Definition _onMessage (h : hub) (t : target) (msg : value) : option hub :=
  if negb (truthy msg) then Some h
  else if negb (_isRequest h msg) then Some (on_reply h msg)
  else
    match field msg "methodName", field msg "args" with
    | VStr methodName, VArr args =>
        match attach_progress msg args with
        | None => Some h
        | Some (args', sink) =>
            let '(h1, response) := _runMsgCallback h t msg methodName args' sink in
            Some (sendMessage h1 t response)
        end
    | _, _ => None
    end.

(** The calls a hub receives over its lifetime. *)
Inductive op : Type :=
| Emit (t : target) (methodName : string + obj value) (args : list value)
| On (t : target) (a : on_arg)
| Off (t : target) (methodName : option string)
| Receive (t : target) (msg : value).

Definition step (h : hub) (o : op) : option hub :=
  match o with
  | Emit t methodName args => Some (fst (_emit h t methodName args))
  | On t a => Some (_on h t a)
  | Off t methodName => Some (_off h t methodName)
  | Receive t msg => _onMessage h t msg
  end.

Fixpoint steps (h : hub) (ops : list op) : option hub :=
  match ops with
  | [] => Some h
  | o :: rest => h' ← step h o; steps h' rest
  end.

(** The calls again, with the [_emit] that passes the configuration object
    of a pending call. *)
Inductive call : Type :=
| Call (o : op)
| EmitSameObject (t : target) (idx : nat) (args : list value).


End Dispatch.

(** The pending calls of a hub, as [_emit] leaves them: each holds a request
    of this hub with a [messageID] the counter has passed, no two the same
    [messageID], each its own promise, still pending. *)
Record pending_wf (h : hub) : Prop := PendingWf {
  wf_from :
    Forall (fun cb => field (VObj (cb_reqMsg cb)) "fromInstance" = VStr (instanceID h))
      (_responseCallbacks h);
  wf_id :
    Forall (fun cb => exists n, request_id cb = VNum n /\ n <= _messageID h)
      (_responseCallbacks h);
  wf_id_nodup : NoDup (map request_id (_responseCallbacks h));
  wf_promise :
    Forall (fun cb => promises h !! cb_promise cb = Some None) (_responseCallbacks h);
  wf_promise_nodup : NoDup (map cb_promise (_responseCallbacks h))
}.

(** The [messageID]s of the requests sent, oldest first. *)
Definition request_ids (tr : list event) : list Z :=
  omap (fun e =>
          match e with
          | Sent _ msg =>
              if is_str (field msg "type") "request" then
                match field msg "messageID" with
                | VNum n => Some n
                | _ => None
                end
              else None
          | _ => None
          end) tr.

(** [h'] differs from [h] by registrations and by events that are no
    request sent: the identity, the pending calls, the counter, the
    promises and the requests sent are the same. *)
Definition quiet (h h' : hub) : Prop :=
  instanceID h' = instanceID h /\
  _responseCallbacks h' = _responseCallbacks h /\
  _messageID h' = _messageID h /\
  promises h' = promises h /\
  request_ids (trace h') = request_ids (trace h).

(** The counter counts the requests sent: their [messageID]s are 1, 2,
    ... up to the counter. *)
Definition ids_count (h : hub) : Prop :=
  0 <= _messageID h /\
  request_ids (trace h) = map Z.of_nat (seq 1 (Z.to_nat (_messageID h))).

(** The requests sent carry strictly increasing [messageID]s, none beyond
    the counter. *)
Definition ids_increase (h : hub) : Prop :=
  StronglySorted Z.lt (request_ids (trace h)) /\
  Forall (fun n => n <= _messageID h) (request_ids (trace h)).

End Hub.

(** ** MessageHub: the hub between a window and a frame or a worker *)

Module MessageHub.
Import JS.

(** The constant [t = {channel: "THIS_IS_MESSAGE_SECRET_CHANNEL", id: -1}]
    of the handshake. *)
Definition secret_channel : string := "THIS_IS_MESSAGE_SECRET_CHANNEL".
Definition secret_id : Z := -1.

Inductive hub_type : Type :=
| Worker
| Frame.

(** The [MessageEvent] handed to [onMessage]: [source] is [null] or a
    window, compared by reference with [this.peer]. *)
Record message_event : Type := MessageEvent {
  source : option nat;
  origin : string;
  data : value
}.

(** What the hub does to the outside: [this.peer.postMessage(...i)] with
    its argument list, a call of an event callback, a [console.warn]. *)
Inductive effect : Type :=
| Posted (i : list value)
| Called (cb : nat) (payload : value)
| Warned (what : string).

(** [this.promisePairs]: the [resolve] / [reject] pairs by message id. The
    ids the hub assigns are numbers, and the object is read and written
    by id only. *)
Definition pairs : Type := list (Z * nat).

Fixpoint pairs_get (l : pairs) (k : Z) : option nat :=
  match l with
  | [] => None
  | (k', v) :: r => if k' =? k then Some v else pairs_get r k
  end.
Fixpoint pairs_delete (l : pairs) (k : Z) : pairs :=
  match l with
  | [] => []
  | (k', v) :: r => if k' =? k then pairs_delete r k else (k', v) :: pairs_delete r k
  end.
Definition pairs_set (l : pairs) (k : Z) (v : nat) : pairs :=
  (k, v) :: pairs_delete l k.

(** The property names a plain object inherits: [evtsCbs[name]] finds
    something for them on the empty object. An event of such a name is
    outside the model. *)
Definition inherited (name : string) : bool := Composie.inherited name.

(** [s.splice(i, 1)] at the last [i] with [s[i] === t]. *)
Fixpoint remove_first (t : nat) (s : list nat) : list nat :=
  match s with
  | [] => []
  | x :: r => if (x =? t)%nat then r else x :: remove_first t r
  end.
Definition remove_last (t : nat) (s : list nat) : list nat :=
  rev (remove_first t (rev s)).

Section Hub.
(** [E] is what the handlers of the routes reach besides the context;
    they do not read the [id], [type] and [event] fields that
    [createContext] adds to it, and neither they nor the event callbacks
    call back into the hub. [returns_false f d] tells whether the event
    callback [f] applied to [d] returns [false]. *)
Context {E : Type}.
Variable returns_false : nat -> value -> bool.

Record hub : Type := MkHub {
  type : hub_type;
  peer : nat;
  targetOrigin : string;
  count : Z;
  evtsCbs : obj (list nat);
  promisePairs : pairs;
  isReady : bool;
  composie : option (Composie.composie (Composie.handler E));
  env : E;
  promises : list (option outcome);
  effects : list effect
}.

Definition with_count (h : hub) (n : Z) : hub :=
  MkHub (type h) (peer h) (targetOrigin h) n (evtsCbs h) (promisePairs h)
    (isReady h) (composie h) (env h) (promises h) (effects h).
Definition with_evtsCbs (h : hub) (c : obj (list nat)) : hub :=
  MkHub (type h) (peer h) (targetOrigin h) (count h) c (promisePairs h)
    (isReady h) (composie h) (env h) (promises h) (effects h).
Definition with_pairs (h : hub) (p : pairs) : hub :=
  MkHub (type h) (peer h) (targetOrigin h) (count h) (evtsCbs h) p
    (isReady h) (composie h) (env h) (promises h) (effects h).
Definition with_composie (h : hub)
  (c : option (Composie.composie (Composie.handler E))) : hub :=
  MkHub (type h) (peer h) (targetOrigin h) (count h) (evtsCbs h) (promisePairs h)
    (isReady h) c (env h) (promises h) (effects h).
Definition with_env (h : hub) (x : E) : hub :=
  MkHub (type h) (peer h) (targetOrigin h) (count h) (evtsCbs h) (promisePairs h)
    (isReady h) (composie h) x (promises h) (effects h).
Definition with_promises (h : hub) (p : list (option outcome)) : hub :=
  MkHub (type h) (peer h) (targetOrigin h) (count h) (evtsCbs h) (promisePairs h)
    (isReady h) (composie h) (env h) p (effects h).
Definition effect_of (h : hub) (e : effect) : hub :=
  MkHub (type h) (peer h) (targetOrigin h) (count h) (evtsCbs h) (promisePairs h)
    (isReady h) (composie h) (env h) (promises h) (effects h ++ [e]).

(** [resolve(v)] / [reject(v)] of promise [p]: only a pending promise
    settles. *)
Definition settle (h : hub) (p : nat) (o : outcome) : hub :=
  match promises h !! p with
  | Some None => with_promises h (<[p := Some o]> (promises h))
  | _ => h
  end.

Definition isValidateOrigin (h : hub) (e : string) : bool :=
  String.eqb "*" (targetOrigin h) || String.eqb e (targetOrigin h).

(** The argument list [i] of [this.peer.postMessage(...i)]: the message,
    [targetOrigin] for a frame, and the transfers when there are some. *)
Definition post_args (h : hub) (msg : obj value) (transfers : value) : list value :=
  VObj msg
  :: match type h with Frame => [VStr (targetOrigin h)] | Worker => [] end
  ++ (if truthy transfers then [transfers] else []).

(** [postMessage(e, s)]: the hub afterwards and the promise returned, if
    any. The object [e] is posted as the assignments leave it. [None] when
    a message that is neither a request nor a response has an [id] that
    is no number: no method of the class posts one. *)
Definition postMessage (h : hub) (e : obj value) (s : bool)
  : option (hub * option nat) :=
  let '(h1, e1, r) :=
    if is_str (field (VObj e) "type") "request" then
      let '(h1, id) :=
        if is_str (field (VObj e) "channel") secret_channel then (h, secret_id)
        else if s then (with_count h (count h + 1), count h + 1)
        else (h, 0) in
      let e1 := obj_set e "id" (VNum id) in
      let r := field (VObj e1) "transfers" in
      (h1, obj_delete e1 "transfers", r)
    else (h, e, VUndefined) in
  let h2 := effect_of h1 (Posted (post_args h e1 r)) in
  if negb (is_str (field (VObj e1) "type") "response") && truthy (field (VObj e1) "id")
  then
    match field (VObj e1) "id" with
    | VNum id =>
        let p := length (promises h2) in
        Some (with_pairs (with_promises h2 (promises h2 ++ [None]))
                (pairs_set (promisePairs h2) id p), Some p)
    | _ => None
    end
  else Some (h2, None).

Definition request_of (channel : string) (payload transfers : value) : obj value :=
  [("type", VStr "request"); ("channel", VStr channel); ("data", payload);
   ("transfers", transfers)].

(** The same object once [postMessage] has set its [id] and deleted its
    [transfers]. *)
Definition posted_request (channel : string) (payload : value) (id : Z)
  : obj value :=
  [("type", VStr "request"); ("channel", VStr channel); ("data", payload);
   ("id", VNum id)].

(** The object [respond] posts. *)
Definition posted_response (resolved : bool) (id : value) (channel : string)
  (response : value) : obj value :=
  [("resolved", VBool resolved); ("id", id); ("channel", VStr channel);
   ("type", VStr "response"); ("data", response)].

(** [fetch(e, t, s)] *)
Definition fetch (h : hub) (channel : string) (payload transfers : value)
  : option (hub * option nat) :=
  postMessage h (request_of channel payload transfers) true.

(** [emit(e, t, s)]: what [postMessage] returns is dropped. *)
Definition emit (h : hub) (channel : string) (payload transfers : value)
  : option hub :=
  fst <$> postMessage h (request_of channel payload transfers) false.

(** [on(e, t)]. [None] for an inherited name. *)
Definition on (h : hub) (e : string) (t : nat) : option hub :=
  if inherited e then None
  else Some (with_evtsCbs h
               (obj_set (evtsCbs h) e (default [] (obj_get (evtsCbs h) e) ++ [t]))).

(** [off(e, t)]; [t] is [None] when the callback is left out. [None] for
    an inherited name. *)
Definition off (h : hub) (e : string) (t : option nat) : option hub :=
  if inherited e then None
  else
    match obj_get (evtsCbs h) e with
    | None | Some [] => Some h
    | Some s =>
        match t with
        | None => Some (with_evtsCbs h (obj_set (evtsCbs h) e []))
        | Some f => Some (with_evtsCbs h (obj_set (evtsCbs h) e (remove_last f s)))
        end
    end.

(** [respond(e, t)] for the context [{id, channel, response}]. *)
Definition respond (h : hub) (id : value) (channel : string) (response : value)
  (t : bool) : option hub :=
  fst <$> postMessage h (posted_response t id channel response) false.

(** [resolveFetch(e)]: the hub afterwards and whether it returned [true].
    [None] when [e.id] is truthy and no number. *)
Definition resolveFetch (h : hub) (e : value) : option (hub * bool) :=
  let id := field e "id" in
  if negb (truthy id)
     || (is_str (field e "type") "request" && negb (is_num id secret_id))
  then Some (h, false)
  else
    match id with
    | VNum s =>
        match pairs_get (promisePairs h) s with
        | Some p =>
            let o := if strict_eq (VBool false) (field e "resolved")
                     then Rejected (field e "data")
                     else Fulfilled (field e "data") in
            Some (with_pairs (settle h p o) (pairs_delete (promisePairs h) s), true)
        | None =>
            if s =? secret_id then Some (h, true)
            else Some (effect_of h (Warned "unowned message with id"), false)
        end
    | _ => None
    end.

(** [for (let s = 0; s < e.length && false !== e[s](t.data); s++);] *)
Fixpoint dispatch (h : hub) (cbs : list nat) (payload : value) : hub :=
  match cbs with
  | [] => h
  | cb :: rest =>
      let h1 := effect_of h (Called cb payload) in
      if returns_false cb payload then h1 else dispatch h1 rest payload
  end.

(** The first test of [onMessage]: ["frame" === this.type && (e.source &&
    e.source !== this.peer || !this.isValidateOrigin(e.origin))]. *)
Definition ignores (h : hub) (e : message_event) : bool :=
  match type h with
  | Frame =>
      match source e with
      | Some w => negb (w =? peer h)%nat
      | None => false
      end
      || negb (isValidateOrigin h (origin e))
  | Worker => false
  end.

(** [onMessage(e)]. [None] when [e.data.channel] is truthy and no string,
    or names an inherited property where the event callbacks are looked
    up or where [run] looks up the routes and finds no own property ([run]
    throws), or where [resolveFetch] or [postMessage] is outside the
    model. [this.composie.run(s)] is [Composie.run] on the channel and the
    request of the context [s]. *)
Definition onMessage (h : hub) (e : message_event) : option hub :=
  if ignores h e then Some h
  else
    let t := data e in
    match composie h with
    | Some c =>
        if truthy t && truthy (field t "channel") then
          match field t "channel" with
          | VStr channel =>
              if truthy (field t "id") then
                if is_str (field t "type") "response"
                then fst <$> resolveFetch h t
                else
                  '(h1, taken) ← resolveFetch h t;
                  if (taken : bool) then respond h1 (field t "id") channel VUndefined true
                  else if inherited channel
                          && negb (bool_decide (is_Some (obj_get (Composie.routers c) channel)))
                  then None
                  else
                    '(res, w) ← Composie.run c channel (field t "data") (env h1);
                    let h2 := with_env h1 (Composie.ext w) in
                    match res with
                    | Fulfilled _ =>
                        respond h2 (field t "id") channel
                          (Composie.response (Composie.ctx w)) true
                    | Rejected _ =>
                        respond (effect_of h2 (Warned "run middleware failed"))
                          (field t "id") channel
                          (Composie.response (Composie.ctx w)) false
                    end
              else
                '(h1, taken) ← resolveFetch h t;
                if (taken : bool) then Some h1
                else if inherited channel then None
                else
                  match obj_get (evtsCbs h1) channel with
                  | None | Some [] =>
                      Some (effect_of h1 (Warned "no corresponed callback for"))
                  | Some cbs => Some (dispatch h1 cbs (field t "data"))
                  end
          | _ => None
          end
        else Some h
    | None => Some h
    end.

(** The constructor, past its checks of the environment: a worker hub is
    ready at once; a frame hub takes [targetOrigin] when one is given and
    emits the handshake. [wildcard] is the token of its [Composie]. *)
Definition create (ty : hub_type) (peer0 : nat) (origin0 : option string)
  (wildcard : string) (x : E) : option hub :=
  let targetOrigin0 :=
    match ty, origin0 with
    | Frame, Some o => if String.eqb o "" then "*" else o
    | _, _ => "*"
    end in
  let h := MkHub ty peer0 targetOrigin0 0 [] []
             (match ty with Worker => true | Frame => false end)
             (Some (Composie.create wildcard)) x [] [] in
  if isReady h then Some h else emit h secret_channel VUndefined VUndefined.

End Hub.
Arguments hub E : clear implicits.

End MessageHub.

(** ** The words of the specification *)

Module Spec.
Import JS Composie.

(** "a key that is contained within [channel]": [k] occurs somewhere in
    [ch]. *)
Definition occurs_in (k ch : string) : Prop :=
  exists pre post, ch = (pre ++ k ++ post)%string.

(** "[k] is a prefix of [s]" *)
Definition prefix_of (k s : string) : Prop :=
  exists post, s = (k ++ post)%string.

(** "descend level by level: at each level, find a key that is contained
    within [channel] and append that node's list; continue into its
    children; stop when no key matches": the nodes visited from a level
    on. The key taken is the first of the level, in key order, that occurs
    in the channel. *)
Inductive descent {F : Type} (ch : string)
  : option (obj (node F)) -> list (node F) -> Prop :=
| descent_leaf : descent ch None []
| descent_stop lvl :
    (forall k, In k (keys lvl) -> ~ occurs_in k ch) ->
    descent ch (Some lvl) []
| descent_step lvl before k after n path :
    keys lvl = before ++ k :: after ->
    (forall k', In k' before -> ~ occurs_in k' ch) ->
    occurs_in k ch ->
    obj_get lvl k = Some n ->
    descent ch (children n) path ->
    descent ch (Some lvl) (n :: path).

(** "collect the wildcard node's list unconditionally": the list of the
    wildcard node when there is one, and the level the descent starts
    from. *)
Definition wildcard_part {F : Type} (c : composie F)
  : list F * option (obj (node F)) :=
  match obj_get (middlewares c) (wildcard c) with
  | Some wn => (mdlws wn, children wn)
  | None => ([], Some (middlewares c))
  end.
End Spec.

(** ** Properties *)

Import JS.

Section StringFacts.
Lemma prefix_true_iff (k s : string) :
  String.prefix k s = true <-> Spec.prefix_of k s.
Proof.
  revert s. induction k as [|a k IH]; intros s; simpl.
  - split; [intros _; exists s; reflexivity | destruct s; reflexivity].
  - destruct s as [|b s]; simpl.
    + split; [discriminate | intros [post H]; discriminate].
    + destruct (Ascii.ascii_dec a b) as [Heq|Hne]; [subst b|].
      * rewrite IH. split; intros [post H]; exists post; simpl in *; congruence.
      * split; [discriminate | intros [post H]; simpl in H; congruence].
Qed.

Lemma index0_cons (t : string) (b : ascii) (s : string) :
  String.index 0 t (String b s) =
  if String.prefix t (String b s) then Some O
  else match String.index 0 t s with
       | Some n => Some (S n)
       | None => None
       end.
Proof. reflexivity. Qed.

Lemma index0_Some (t s : string) (n : nat) :
  String.index 0 t s = Some n ->
  exists pre post, s = (pre ++ t ++ post)%string /\ String.length pre = n.
Proof.
  revert n. induction s as [|b s IH]; intros n.
  - simpl. destruct t; [|discriminate]. intros [= <-].
    exists ""%string, ""%string. auto.
  - rewrite index0_cons. destruct (String.prefix t (String b s)) eqn:Hp.
    + intros [= <-]. apply prefix_true_iff in Hp as [post Hp].
      exists ""%string, post. auto.
    + destruct (String.index 0 t s) as [m|] eqn:Hi; [|discriminate].
      intros [= <-]. destruct (IH m eq_refl) as (pre & post & -> & Hl).
      exists (String b pre), post. simpl. auto.
Qed.

Lemma index0_None (t s : string) :
  String.index 0 t s = None -> ~ Spec.occurs_in t s.
Proof.
  induction s as [|b s IH].
  - simpl. destruct t as [|a t]; [discriminate|]. intros _ (pre & post & H).
    destruct pre; discriminate.
  - rewrite index0_cons.
    destruct (String.prefix t (String b s)) eqn:Hp; [discriminate|].
    destruct (String.index 0 t s) eqn:Hi; [discriminate|].
    intros _ (pre & post & H). destruct pre as [|c pre].
    + assert (String.prefix t (String b s) = true) as Hp'
        by (apply prefix_true_iff; exists post; exact H).
      congruence.
    + simpl in H. injection H as _ H. apply IH; [reflexivity|].
      exists pre, post. exact H.
Qed.

(** [-1 !== ch.indexOf(k)] is the substring test. *)
Lemma indexOf_found_iff (ch k : string) :
  negb (indexOf ch k =? -1) = true <-> Spec.occurs_in k ch.
Proof.
  unfold indexOf. destruct (String.index 0 k ch) as [n|] eqn:Hi.
  - split.
    + intros _. destruct (index0_Some _ _ _ Hi) as (pre & post & H & _).
      exists pre, post. exact H.
    + intros _. apply negb_true_iff, Z.eqb_neq. lia.
  - split; [discriminate|]. intros H. exfalso. exact (index0_None _ _ Hi H).
Qed.

(** [0 === s.indexOf(k)] is the prefix test. *)
Lemma indexOf_zero_iff (s k : string) :
  (indexOf s k =? 0) = true <-> Spec.prefix_of k s.
Proof.
  unfold indexOf. rewrite <- prefix_true_iff.
  destruct s as [|b s].
  - destruct k; simpl; split; congruence.
  - rewrite index0_cons. destruct (String.prefix k (String b s)) eqn:Hp.
    + split; reflexivity.
    + destruct (String.index 0 k s); split; try discriminate;
        rewrite Z.eqb_eq; lia.
Qed.
End StringFacts.

Section ObjectFacts.
Context {A : Type}.
Implicit Types (o : obj A) (k : string) (v : A).

Lemma obj_get_In o k v : obj_get o k = Some v -> In (k, v) o.
Proof.
  induction o as [|[k' v'] o IH]; simpl; [discriminate|].
  destruct (String.eqb_spec k' k) as [->|Hne].
  - intros [= ->]. now left.
  - intros H. right. now apply IH.
Qed.

Lemma obj_get_key o k : In k (keys o) -> exists v, obj_get o k = Some v.
Proof.
  induction o as [|[k' v'] o IH]; simpl; [tauto|].
  destruct (String.eqb_spec k' k) as [->|Hne]; [eauto|].
  intros [H|H]; [congruence | auto].
Qed.

Lemma obj_get_replace o k v k' :
  obj_get (obj_replace o k v) k' =
  if String.eqb k k' then
    match obj_get o k with Some _ => Some v | None => None end
  else obj_get o k'.
Proof.
  induction o as [|[k0 v0] o IH]; simpl.
  - now destruct (String.eqb k k').
  - destruct (String.eqb_spec k0 k) as [->|Hne]; simpl.
    + destruct (String.eqb_spec k k') as [->|Hne']; [reflexivity|].
      reflexivity.
    + rewrite IH. destruct (String.eqb_spec k k') as [->|Hne'].
      * apply String.eqb_neq in Hne. now rewrite Hne.
      * reflexivity.
Qed.

Lemma obj_get_insert_index o n k v k' :
  obj_get o k = None ->
  obj_get (obj_insert_index o n k v) k' =
  if String.eqb k k' then Some v else obj_get o k'.
Proof.
  induction o as [|[k0 v0] o IH]; simpl; [reflexivity|].
  destruct (String.eqb_spec k0 k) as [->|Hne]; [discriminate|]. intros Hg.
  destruct (array_index k0) as [n'|]; [destruct (n' <? n)%N|]; simpl;
    try reflexivity.
  rewrite (IH Hg).
  destruct (String.eqb_spec k k') as [->|Hne']; [|reflexivity].
  apply String.eqb_neq in Hne. now rewrite Hne.
Qed.

Lemma obj_get_app o o' k :
  obj_get (o ++ o') k =
  match obj_get o k with Some x => Some x | None => obj_get o' k end.
Proof.
  induction o as [|[k0 v0] o IH]; simpl; [reflexivity|].
  now destruct (String.eqb k0 k).
Qed.

(** Reading a property after an assignment. *)
Lemma obj_get_set o k v k' :
  obj_get (obj_set o k v) k' = if String.eqb k k' then Some v else obj_get o k'.
Proof.
  unfold obj_set. destruct (obj_get o k) as [x|] eqn:Hg.
  - rewrite obj_get_replace, Hg. reflexivity.
  - destruct (array_index k) as [n|].
    + now rewrite obj_get_insert_index.
    + rewrite obj_get_app. simpl.
      destruct (String.eqb_spec k k') as [->|Hne].
      * now rewrite Hg.
      * now destruct (obj_get o k').
Qed.

Lemma obj_get_delete o k k' :
  obj_get (obj_delete o k) k' = if String.eqb k k' then None else obj_get o k'.
Proof.
  induction o as [|[k0 v0] o IH]; simpl.
  - now destruct (String.eqb k k').
  - destruct (String.eqb_spec k0 k) as [->|Hne]; simpl.
    + rewrite IH. destruct (String.eqb_spec k k') as [->|Hne']; reflexivity.
    + rewrite IH. destruct (String.eqb_spec k k') as [->|Hne'].
      * apply String.eqb_neq in Hne. now rewrite Hne.
      * reflexivity.
Qed.
End ObjectFacts.

Lemma find_first {A : Type} (f : A -> bool) (l : list A) (x : A) :
  find f l = Some x ->
  exists before after,
    l = before ++ x :: after /\ (forall y, In y before -> f y = false) /\ f x = true.
Proof.
  induction l as [|a l IH]; simpl; [discriminate|].
  destruct (f a) eqn:Hfa.
  - intros [= ->]. exists [], l. simpl. tauto.
  - intros H. destruct (IH H) as (before & after & -> & Hb & Hx).
    exists (a :: before), after. simpl. repeat split; auto.
    intros y [<-|Hy]; auto.
Qed.

Section TrieFacts.
Import Composie.
Context {F : Type}.

Lemma height_children (n : node F) :
  level_opt_height (children n) = height n.
Proof.
  destruct n as [m [o|]]; simpl; [|reflexivity]. f_equal.
  induction o as [|[k c] o IH]; simpl; [reflexivity|]. now rewrite IH.
Qed.

Lemma level_height_In (lvl : obj (node F)) k n :
  In (k, n) lvl -> (height n <= level_height lvl)%nat.
Proof.
  induction lvl as [|[k' c] lvl IH]; simpl; [tauto|].
  intros [[= -> ->]|H]; [lia|]. specialize (IH H). lia.
Qed.

(** With fuel for the height of the trie, the loop of [getMiddlewares]
    ends, and what it collects is the lists of the nodes of the descent. *)
Lemma get_loop_descent (ch : string) (fuel : nat) :
  forall (t : option (obj (node F))) (s : list F),
    (level_opt_height t <= fuel)%nat ->
    exists path,
      Spec.descent ch t path /\
      get_loop fuel ch t s = Some (s ++ concat (map mdlws path)).
Proof.
  induction fuel as [|fuel IH]; intros t s Hfuel.
  - destruct t as [lvl|]; simpl in Hfuel; [lia|].
    exists []. split; [constructor|]. simpl. now rewrite app_nil_r.
  - destruct t as [lvl|].
    2:{ exists []. split; [constructor|]. simpl. now rewrite app_nil_r. }
    simpl.
    destruct (find (fun k => negb (indexOf ch k =? -1)) (keys lvl)) as [i|] eqn:Hfind.
    + destruct (find_first _ _ _ Hfind) as (before & after & Hkeys & Hbefore & Hi).
      assert (In i (keys lvl)) as Hin by (rewrite Hkeys; apply in_elt).
      destruct (obj_get_key _ _ Hin) as [n Hn]. rewrite Hn.
      assert (level_opt_height (children n) <= fuel)%nat as Hle.
      { rewrite height_children.
        pose proof (level_height_In _ _ _ (obj_get_In _ _ _ Hn)).
        simpl in Hfuel. lia. }
      destruct (IH (children n) (s ++ mdlws n) Hle) as (path & Hd & Hg).
      exists (n :: path). split.
      * eapply Spec.descent_step; eauto.
        -- intros k' Hk' Hocc. apply indexOf_found_iff in Hocc.
           rewrite (Hbefore k' Hk') in Hocc. discriminate.
        -- now apply indexOf_found_iff.
      * rewrite Hg. simpl. now rewrite app_assoc.
    + exists []. split.
      * apply Spec.descent_stop. intros k Hk Hocc.
        apply indexOf_found_iff in Hocc.
        pose proof (find_none _ _ Hfind k Hk) as Hf. simpl in Hf.
        rewrite Hocc in Hf. discriminate.
      * simpl. now rewrite app_nil_r.
Qed.
End TrieFacts.

(** C6. For every trie and every channel, [getMiddlewares] returns the
    list of the wildcard node (when there is one) followed by the lists of
    the nodes of the descent, in that order: the descent goes level by
    level, takes at each level the first key that occurs somewhere in the
    channel, continues into the children of that node and stops when no key
    of the level occurs in the channel or the node has no children. The
    test is a substring test: a key that is no prefix of the channel is
    taken. *)
Theorem getMiddlewares_descends :
  (forall (F : Type) (c : Composie.composie F) (ch : string),
      exists path,
        Spec.descent ch (snd (Spec.wildcard_part c)) path /\
        Composie.getMiddlewares c ch =
        Some (fst (Spec.wildcard_part c) ++ concat (map Composie.mdlws path)))
  /\ (exists (c : Composie.composie nat),
        ~ Spec.prefix_of "bc" "abc" /\
        Composie.addMiddleware (Composie.create "w") "bc" 1%nat = Some c /\
        Composie.getMiddlewares c "abc" = Some [1%nat]).
Proof.
  split.
  - intros F c ch. unfold Composie.getMiddlewares, Spec.wildcard_part.
    destruct (obj_get (Composie.middlewares c) (Composie.wildcard c)) as [wn|]; simpl.
    + apply get_loop_descent. lia.
    + destruct (get_loop_descent ch (S (Composie.level_height (Composie.middlewares c)))
                  (Some (Composie.middlewares c)) [] (Nat.le_refl _))
        as (path & Hd & Hg).
      exists path. split; [exact Hd|exact Hg].
  - eexists. split; [|split; reflexivity].
    intros [post H]. discriminate.
Qed.

Section Restructuring.
Import Composie.
Context {F : Type}.

Lemma scan_keys_hit (l : list string) (e o0 : string) n o :
  scan_keys l e o0 = (n, o) -> n = 0 \/ (In o l /\ (n = 1 \/ n = 2 \/ n = 3)).
Proof.
  revert o0. induction l as [|k l IH]; intros o0; simpl.
  - intros [= <- <-]. now left.
  - destruct (String.eqb k e); [intros [= <- <-]; right; auto|].
    destruct (indexOf e k =? 0); [intros [= <- <-]; right; auto|].
    destruct (indexOf k e =? 0); [intros [= <- <-]; right; auto|].
    intros H. destruct (IH _ H) as [->|[Hin Hn]]; auto.
Qed.

(** With fuel for the height of the level, the loop of [addMiddleware]
    ends. *)
Lemma add_loop_total (e : string) (t : F) (fuel : nat) :
  forall s : obj (node F),
    (level_height s <= fuel)%nat -> is_Some (add_loop fuel s e t).
Proof.
  induction fuel as [|fuel IH]; intros s Hfuel.
  - simpl.
    destruct (scan_keys (rev (keys s)) e "") as [n o] eqn:Hscan.
    destruct (n =? 0) eqn:Hn0; [eauto|].
    destruct (scan_keys_hit _ _ _ _ _ Hscan) as [->|[Hin Hn]]; [discriminate|].
    apply in_rev in Hin. destruct (obj_get_key _ _ Hin) as [so Hso]. rewrite Hso.
    destruct (n =? 1); [eauto|]. destruct (n =? 2); [|eauto].
    destruct (children so) as [ch|] eqn:Hch; [|eauto].
    pose proof (level_height_In _ _ _ (obj_get_In _ _ _ Hso)) as Hle.
    rewrite <- height_children, Hch in Hle.
    cbn [level_opt_height] in Hle. lia.
  - simpl.
    destruct (scan_keys (rev (keys s)) e "") as [n o] eqn:Hscan.
    destruct (n =? 0) eqn:Hn0; [eauto|].
    destruct (scan_keys_hit _ _ _ _ _ Hscan) as [->|[Hin Hn]]; [discriminate|].
    apply in_rev in Hin. destruct (obj_get_key _ _ Hin) as [so Hso]. rewrite Hso.
    destruct (n =? 1); [eauto|]. destruct (n =? 2); [|eauto].
    destruct (children so) as [ch|] eqn:Hch; [|eauto].
    pose proof (level_height_In _ _ _ (obj_get_In _ _ _ Hso)) as Hle.
    rewrite <- height_children, Hch in Hle. cbn [level_opt_height] in Hle.
    destruct (IH ch) as [ch' Hch']; [lia|]. rewrite Hch'. simpl. eauto.
Qed.

Lemma addMiddleware_wildcard (c : composie F) (t : F) :
  addMiddleware c (wildcard c) t =
  match obj_get (middlewares c) (wildcard c) with
  | Some wn =>
      Some (Composie (wildcard c)
              (obj_replace (middlewares c) (wildcard c)
                 (Node (mdlws wn ++ [t]) (children wn)))
              (routers c))
  | None =>
      Some (Composie (wildcard c) [(wildcard c, Node [t] (Some (middlewares c)))]
              (routers c))
  end.
Proof. unfold addMiddleware. now rewrite String.eqb_refl. Qed.

Lemma addMiddleware_scope (c : composie F) (e : string) (t : F) :
  e <> wildcard c ->
  addMiddleware c e t =
  match obj_get (middlewares c) (wildcard c) with
  | Some wn =>
      match children wn with
      | Some ch =>
          ch' ← add_loop (level_height ch) ch e t;
          Some (Composie (wildcard c)
                  (obj_replace (middlewares c) (wildcard c)
                     (Node (mdlws wn) (Some ch')))
                  (routers c))
      | None => None
      end
  | None =>
      s' ← add_loop (level_height (middlewares c)) (middlewares c) e t;
      Some (Composie (wildcard c) s' (routers c))
  end.
Proof.
  intros Hne. unfold addMiddleware.
  apply String.eqb_neq in Hne. now rewrite Hne.
Qed.

(** [addMiddleware] returns, except for the [TypeError] on a wildcard
    node without [children] (no call of [addMiddleware] creates one). *)
Lemma addMiddleware_returns (c : composie F) (e : string) (t : F) :
  addMiddleware c e t = None <->
  e <> wildcard c /\
  exists wn, obj_get (middlewares c) (wildcard c) = Some wn /\ children wn = None.
Proof.
  unfold addMiddleware. destruct (String.eqb_spec e (wildcard c)) as [->|Hne].
  - destruct (obj_get (middlewares c) (wildcard c)); split; try discriminate; tauto.
  - destruct (obj_get (middlewares c) (wildcard c)) as [wn|] eqn:Hw.
    + destruct (children wn) as [ch|] eqn:Hch.
      * destruct (add_loop_total e t _ ch (Nat.le_refl _)) as [ch' ->]. simpl.
        split; [discriminate|]. intros [_ (wn' & [= <-] & H)]. congruence.
      * split; eauto.
    + destruct (add_loop_total e t _ (middlewares c) (Nat.le_refl _)) as [s' ->].
      simpl. split; [discriminate|]. intros [_ (wn' & H & _)]. discriminate.
Qed.
End Restructuring.

(** One call of [addMiddleware] on a trie whose scopes are literals: the
    tests against the wildcard token by the hypotheses, the loop on the
    literals by evaluation. *)
Ltac eval_add_loop :=
  repeat match goal with
    | |- context [Composie.add_loop ?f ?s ?e ?t] =>
        let v := eval vm_compute in (Composie.add_loop f s e t) in
        change (Composie.add_loop f s e t) with v
    end.

Ltac trie_step :=
  cbn [Composie.addMiddlewares];
  first [ rewrite addMiddleware_wildcard
        | rewrite addMiddleware_scope by (cbn; congruence) ];
  cbn [obj_get obj_replace Composie.middlewares Composie.wildcard
         Composie.routers Composie.mdlws Composie.children];
  repeat match goal with
    | H : String.eqb _ _ = false |- _ => rewrite H
    end;
  rewrite ?String.eqb_refl;
  cbn [obj_get obj_replace Composie.middlewares Composie.wildcard
         Composie.routers Composie.mdlws Composie.children app];
  eval_add_loop;
  cbn [mbind option_bind].

(** C5. Whatever the wildcard token [w] (other than "a" and "ab"), the
    four middlewares and the places [i], [j] where the wildcard middleware
    is registered: inserting "a", "ab", "a" and inserting "a", "a", "ab"
    build the same trie, and [getMiddlewares("abc")] returns in both cases
    the wildcard's middleware, then the two of "a" in registration order,
    then the one of "ab". *)
Theorem restructuring_order_insensitive (F : Type) (w : string)
  (fw fa1 fab fa2 : F) (i j : nat) :
  w <> "a" -> w <> "ab" -> (i <= 3)%nat -> (j <= 3)%nat ->
  exists c1 c2,
    Composie.addMiddlewares (Composie.create w)
      (Composie.insert_at i (w, fw) [("a", fa1); ("ab", fab); ("a", fa2)]) = Some c1 /\
    Composie.addMiddlewares (Composie.create w)
      (Composie.insert_at j (w, fw) [("a", fa1); ("a", fa2); ("ab", fab)]) = Some c2 /\
    c1 = c2 /\
    Composie.getMiddlewares c1 "abc" = Some [fw; fa1; fa2; fab] /\
    Composie.getMiddlewares c2 "abc" = Some [fw; fa1; fa2; fab].
Proof.
  intros Ha Hab Hi Hj.
  assert (String.eqb "a" w = false) as E1 by (apply String.eqb_neq; congruence).
  assert (String.eqb "ab" w = false) as E2 by (apply String.eqb_neq; congruence).
  exists (Composie.Composie w
            [(w, Composie.Node [fw]
                   (Some [("a", Composie.Node [fa1; fa2]
                                  (Some [("ab", Composie.Node [fab] None)]))]))] []).
  eexists.
  assert (i = 0 \/ i = 1 \/ i = 2 \/ i = 3)%nat as Hi' by lia.
  assert (j = 0 \/ j = 1 \/ j = 2 \/ j = 3)%nat as Hj' by lia.
  split; [|split; [|split; [reflexivity|]]].
  - destruct Hi' as [-> | [-> | [-> | ->]]];
      unfold Composie.insert_at, Composie.create; cbn [take drop app];
      do 4 trie_step; reflexivity.
  - destruct Hj' as [-> | [-> | [-> | ->]]];
      unfold Composie.insert_at, Composie.create; cbn [take drop app];
      do 4 trie_step; reflexivity.
  - split; unfold Composie.getMiddlewares;
      cbn [obj_get Composie.middlewares Composie.wildcard];
      rewrite String.eqb_refl; vm_compute; reflexivity.
Qed.

(** The wildcard token "*w" and the wildcard middleware registered first
    in the one order, last in the other. *)
Lemma restructuring_order_insensitive_witness :
  "*w" <> "a" /\ "*w" <> "ab" /\ (0 <= 3)%nat /\ (3 <= 3)%nat /\
  exists c1 c2,
    Composie.addMiddlewares (Composie.create "*w")
      (Composie.insert_at 0 ("*w", 0%nat) [("a", 1%nat); ("ab", 2%nat); ("a", 3%nat)])
    = Some c1 /\
    Composie.addMiddlewares (Composie.create "*w")
      (Composie.insert_at 3 ("*w", 0%nat) [("a", 1%nat); ("a", 3%nat); ("ab", 2%nat)])
    = Some c2 /\
    c1 = c2 /\
    Composie.getMiddlewares c1 "abc" = Some [0; 1; 3; 2]%nat /\
    Composie.getMiddlewares c2 "abc" = Some [0; 1; 3; 2]%nat.
Proof.
  split; [discriminate|]. split; [discriminate|]. split; [lia|]. split; [lia|].
  apply (restructuring_order_insensitive nat "*w" 0%nat 1%nat 2%nat 3%nat 0 3);
    [discriminate | discriminate | lia | lia].
Defined.

Section ComposeFacts.
Import Composie.
Context {E : Type}.
Implicit Types (e : list (handler E)) (s : option (handler E))
  (h : handler E) (st : cstate E) (next : continuation E).

Lemma call_ext h next next' st :
  (forall st0, next st0 = next' st0) -> call h next st = call h next' st.
Proof.
  intros Hext. revert st. induction h as [v|err|k IH|f k IH|k IH]; intros st; simpl;
    try reflexivity.
  - rewrite Hext. destruct (next' st) as [[res st']|]; [apply IH|reflexivity].
  - apply IH.
  - apply IH.
Qed.

Lemma call_total h next st :
  (forall st0, is_Some (next st0)) -> is_Some (call h next st).
Proof.
  intros Hnext. revert st. induction h as [v|err|k IH|f k IH|k IH]; intros st; simpl;
    eauto.
  destruct (Hnext st) as [[res st'] ->]. apply IH.
Qed.

(** A handler moves [i] through [next] only. *)
Lemma call_mono h next st res st' :
  (forall st0 res0 st0', next st0 = Some (res0, st0') -> i st0 <= i st0') ->
  call h next st = Some (res, st') -> i st <= i st'.
Proof.
  intros Hnext. revert st. induction h as [v|err|k IH|f k IH|k IH]; intros st; simpl.
  - intros [= _ <-]. lia.
  - intros [= _ <-]. lia.
  - destruct (next st) as [[res0 st0]|] eqn:Hn; [|discriminate].
    intros H. apply IH in H. apply Hnext in Hn. lia.
  - intros H. apply IH in H. exact H.
  - apply IH.
Qed.

Lemma at_index_Some e n h : at_index e n = Some h -> 0 <= n < Z.of_nat (length e).
Proof.
  unfold at_index. destruct (Z.ltb_spec n 0) as [Hlt|Hge]; [discriminate|].
  intros H. apply lookup_lt_Some in H. lia.
Qed.

Lemma slot_Some e s n h : slot e s n = Some h -> 0 <= n <= Z.of_nat (length e).
Proof.
  unfold slot. destruct (Z.eqb_spec n (Z.of_nat (length e))) as [Heq|Hneq]; [lia|].
  intros H. apply at_index_Some in H. lia.
Qed.

Lemma r_unfold fuel e s n st :
  r (S fuel) e s n st =
  if n <=? i st then Some (Rejected next_called_multiple_times, st)
  else match slot e s n with
       | None => Some (Fulfilled VUndefined, CState n (wld st))
       | Some h => call h (r fuel e s (n + 1)) (CState n (wld st))
       end.
Proof. reflexivity. Qed.

(** [r(n)] leaves [i] at [n] or beyond. *)
Lemma r_mono fuel e s :
  forall n st res st',
    r fuel e s n st = Some (res, st') -> i st <= i st' /\ n <= i st'.
Proof.
  induction fuel as [|fuel IH]; intros n st res st'; [discriminate|].
  rewrite r_unfold. destruct (Z.leb_spec n (i st)) as [Hle|Hgt].
  - intros [= _ <-]. lia.
  - destruct (slot e s n) as [h|].
    + intros H. apply call_mono in H; [simpl in H; lia|].
      intros st0 res0 st0' H0. apply IH in H0. lia.
    + intros [= _ <-]. simpl. lia.
Qed.

(** Fuel beyond the slots left does not change [r(n)]. *)
Lemma r_fuel e s :
  forall fuel fuel' n st,
    0 <= n ->
    (1 <= fuel)%nat -> (1 <= fuel')%nat ->
    Z.of_nat (length e) + 2 <= Z.of_nat fuel + n ->
    Z.of_nat (length e) + 2 <= Z.of_nat fuel' + n ->
    r fuel e s n st = r fuel' e s n st.
Proof.
  induction fuel as [|fuel IH]; intros fuel' n st Hn H1 H1' Hf Hf'; [lia|].
  destruct fuel' as [|fuel']; [lia|].
  rewrite !r_unfold. destruct (n <=? i st); [reflexivity|].
  destruct (slot e s n) as [h|] eqn:Hslot; [|reflexivity].
  apply slot_Some in Hslot. apply call_ext. intros st0. apply IH; lia.
Qed.

(** With fuel for the slots left, [r(n)] returns. *)
Lemma r_total e s :
  forall fuel n st,
    0 <= n -> (1 <= fuel)%nat ->
    Z.of_nat (length e) + 2 <= Z.of_nat fuel + n ->
    is_Some (r fuel e s n st).
Proof.
  induction fuel as [|fuel IH]; intros n st Hn H1 Hf; [lia|].
  rewrite r_unfold. destruct (n <=? i st); [eauto|].
  destruct (slot e s n) as [h|] eqn:Hslot; [|eauto].
  apply slot_Some in Hslot. apply call_total. intros st0. apply IH; lia.
Qed.

(** Once [i] has passed [n], the continuation [r(n)] is the rejected
    call, whatever the handler does with it and however often it calls. *)
Lemma call_after h fuel e s n :
  forall st, n <= i st ->
    call h (r (S fuel) e s n) st = call h rejected_next st.
Proof.
  induction h as [v|err|k IH|f k IH|k IH]; intros st Hn; simpl; try reflexivity.
  - destruct (Z.leb_spec n (i st)) as [_|Hgt]; [|lia].
    unfold rejected_next at 1. apply IH. exact Hn.
  - apply IH. exact Hn.
  - apply IH. exact Hn.
Qed.

(** A handler gets [r(n)] from its first call of [next] and the rejected
    call from every call after it. *)
Lemma call_is_call_once h fuel e s n :
  forall st, call h (r (S fuel) e s n) st = call_once h (r (S fuel) e s n) st.
Proof.
  induction h as [v|err|k IH|f k IH|k IH]; intros st; cbn [call call_once];
    try reflexivity.
  - destruct (r (S fuel) e s n st) as [[o1 st']|] eqn:Hr; [|reflexivity].
    apply call_after. apply r_mono in Hr. lia.
  - apply IH.
  - apply IH.
Qed.

Lemma call_settles_as_given (o : outcome) h next :
  settles_as_given o h ->
  forall st, exists st', call h next st = Some (o, st') /\ i st' = i st.
Proof.
  induction 1 as [|f k Hk IH|k Hk IH]; intros st.
  - exists st. split; [|reflexivity]. now destruct o.
  - destruct (IH (CState (i st) (f (wld st)))) as (st' & Hc & Hi).
    exists st'. split; [exact Hc|exact Hi].
  - destruct (IH (wld st) st) as (st' & Hc & Hi). exists st'. split; assumption.
Qed.

(** A handler that passes on calls [next] in a state with the [i] it was
    given and settles the way that call did. *)
Lemma call_passes_on h :
  passes_on h ->
  forall st, exists st0,
    i st0 = i st /\
    forall next,
      match next st0 with
      | Some (o, st1) => exists st', call h next st = Some (o, st') /\ i st' = i st1
      | None => call h next st = None
      end.
Proof.
  induction 1 as [k Hk|f k Hk IH|k Hk IH]; intros st.
  - exists st. split; [reflexivity|]. intros next. cbn [call].
    destruct (next st) as [[o st1]|]; [|reflexivity].
    apply call_settles_as_given, Hk.
  - destruct (IH (CState (i st) (f (wld st)))) as (st0 & Hi & Hnext).
    exists st0. split; [exact Hi|]. intros next. apply Hnext.
  - destruct (IH (wld st) st) as (st0 & Hi & Hnext).
    exists st0. split; [exact Hi|]. intros next. apply Hnext.
Qed.

(** What is left of a handler that returns a call of [next], once [next]
    is the rejected call: it rejects with the error. *)
Lemma call_passes_on_rejected h st :
  passes_on h ->
  exists st', call h rejected_next st =
              Some (Rejected next_called_multiple_times, st') /\ i st' = i st.
Proof.
  intros Hp. destruct (call_passes_on h Hp st) as (st0 & Hi & Hnext).
  specialize (Hnext rejected_next). unfold rejected_next in Hnext at 1.
  destruct Hnext as (st' & Hc & Hi'). exists st'. split; [exact Hc|]. lia.
Qed.

(** Below handlers that pass on, the chain settles the way [r(n0)]
    does in the world they leave to it. *)
Lemma passing_chain e s (n0 : Z) :
  0 <= n0 <= Z.of_nat (length e) ->
  (forall m, 0 <= m < n0 -> exists h, at_index e m = Some h /\ passes_on h) ->
  forall (k : nat), Z.of_nat k <= n0 ->
  forall (w : world E), exists w0,
    forall (fuel : nat),
      Z.of_nat (length e) + 2 <= Z.of_nat fuel + (n0 - Z.of_nat k) ->
      match r (S (S (length e))) e s n0 (CState (n0 - 1) w0) with
      | Some (o, _) =>
          exists st', r fuel e s (n0 - Z.of_nat k) (CState (n0 - Z.of_nat k - 1) w)
                      = Some (o, st') /\ n0 - Z.of_nat k <= i st'
      | None => True
      end.
Proof.
  intros Hn0 Hpass. induction k as [|k IH]; intros Hk w.
  - exists w. intros fuel Hfuel. replace (n0 - Z.of_nat 0) with n0 by lia.
    rewrite (r_fuel e s fuel (S (S (length e)))) by lia.
    destruct (r (S (S (length e))) e s n0 (CState (n0 - 1) w)) as [[o st']|] eqn:Hr;
      [|exact I].
    exists st'. split; [reflexivity|]. apply r_mono in Hr. lia.
  - destruct (Hpass (n0 - Z.of_nat (S k))) as (h & Hat & Hh); [lia|].
    destruct (call_passes_on h Hh (CState (n0 - Z.of_nat (S k)) w))
      as ([i0 w1] & Hi & Hnext).
    cbn [i] in Hi. subst i0.
    destruct (IH ltac:(lia) w1) as (w0 & Hw0). exists w0. intros fuel Hfuel.
    destruct (r (S (S (length e))) e s n0 (CState (n0 - 1) w0)) as [[o st1]|] eqn:Hr;
      [|exact I].
    destruct fuel as [|fuel]; [lia|]. rewrite r_unfold. cbn [i wld].
    destruct (Z.leb_spec (n0 - Z.of_nat (S k)) (n0 - Z.of_nat (S k) - 1)) as [Hle|_];
      [lia|].
    unfold slot.
    destruct (Z.eqb_spec (n0 - Z.of_nat (S k)) (Z.of_nat (length e))) as [Heq|_]; [lia|].
    rewrite Hat.
    specialize (Hnext (r fuel e s (n0 - Z.of_nat (S k) + 1))).
    specialize (Hw0 fuel ltac:(lia)).
    destruct Hw0 as (st' & Hrk & Hik).
    assert (r fuel e s (n0 - Z.of_nat (S k) + 1) (CState (n0 - Z.of_nat (S k)) w1)
            = Some (o, st')) as Hrk'.
    { rewrite <- Hrk. f_equal; [lia|]. f_equal. lia. }
    rewrite Hrk' in Hnext. destruct Hnext as (st'' & Hcall & Hi'').
    exists st''. split; [exact Hcall|]. lia.
Qed.
End ComposeFacts.

(** [run] returns, on a channel that is no inherited name or has a
    route. *)
Lemma run_returns (E : Type) (c : Composie.composie (Composie.handler E))
  (e : string) (t : value) (x : E) :
  Composie.inherited e = false \/ is_Some (obj_get (Composie.routers c) e) ->
  is_Some (Composie.run c e t x).
Proof.
  intros Hown. unfold Composie.run. simpl.
  assert (is_Some (Composie.getMiddlewares c e)) as [mws ->].
  { unfold Composie.getMiddlewares.
    destruct (obj_get (Composie.middlewares c) (Composie.wildcard c)) as [wn|].
    - destruct (get_loop_descent e _ (Composie.children wn) (Composie.mdlws wn)
                  (Nat.le_refl _)) as (path & _ & ->). eauto.
    - destruct (get_loop_descent e _ (Some (Composie.middlewares c)) []
                  (Nat.le_refl _)) as (path & _ & ->). eauto. }
  simpl.
  assert (exists n, match obj_get (Composie.routers c) e with
                    | Some l => Some l
                    | None => if Composie.inherited e then None else Some []
                    end = Some n) as [n ->].
  { destruct (obj_get (Composie.routers c) e) as [l|]; [eauto|].
    destruct Hown as [->|[l Hl]]; [eauto|discriminate]. }
  simpl. destruct (0 <? length (mws ++ n))%nat; [|eauto].
  unfold Composie.composeMiddlewares.
  destruct (r_total (mws ++ n) None (S (S (length (mws ++ n))))
              0 (Composie.CState (-1) (Composie.World (Composie.createContext e t) x)))
    as [[res st] ->]; try lia.
  simpl. destruct res; eauto.
Qed.

(** C4, as the code has it. A run of the composed function returns, and it
    starts with [i = -1], so that [r(0)] passes the test and leaves [i] at 0
    or beyond. A call [r(n)] with [n <= i] returns at once the promise
    rejected with "next() called multiple times" and changes nothing:
    neither [i], nor the context, nor the rest of the world. Once [r(n)]
    has run, any further call of it is such a call. The rejection goes to
    the handler that called: a handler gets [r(n)] from its first call of
    [next] and this rejection from every call after it. Below handlers
    that return what their [next()] gave them, the chain settles the way
    that handler then does; what is left of a handler that returns a call
    of [next] rejects with the error, and a handler that catches the
    rejection settles as it chooses. [run] rejects when the chain does and
    resolves when the chain does. *)
Theorem next_called_twice_is_rejected (E : Type)
  (e : list (Composie.handler E)) (s : option (Composie.handler E)) :
  (forall w, exists res st,
      Composie.r (S (S (length e))) e s 0 (Composie.CState (-1) w) = Some (res, st) /\
      Composie.composeMiddlewares e s w = Some (res, Composie.wld st) /\
      0 <= Composie.i st)
  /\ (forall fuel n st,
        n <= Composie.i st ->
        Composie.r (S fuel) e s n st =
        Some (Rejected Composie.next_called_multiple_times, st))
  /\ (forall fuel n st res st',
        Composie.r fuel e s n st = Some (res, st') ->
        forall fuel' w',
          Composie.r (S fuel') e s n (Composie.CState (Composie.i st') w') =
          Some (Rejected Composie.next_called_multiple_times,
                Composie.CState (Composie.i st') w'))
  /\ (forall fuel n st (h : Composie.handler E),
        Composie.call h (Composie.r (S fuel) e s n) st =
        Composie.call_once h (Composie.r (S fuel) e s n) st)
  /\ (forall n0 (h : Composie.handler E),
        Composie.at_index e n0 = Some h ->
        (forall m, 0 <= m < n0 ->
                   exists h', Composie.at_index e m = Some h' /\ Composie.passes_on h') ->
        forall w, exists w0 res st2 w',
          Composie.call_once h (Composie.r (S (length e)) e s (n0 + 1))
            (Composie.CState n0 w0) = Some (res, st2)
          /\ Composie.composeMiddlewares e s w = Some (res, w'))
  /\ (forall (h : Composie.handler E) st,
        Composie.passes_on h ->
        exists st',
          Composie.call h Composie.rejected_next st =
          Some (Rejected Composie.next_called_multiple_times, st')
          /\ Composie.i st' = Composie.i st)
  /\ (s = None ->
      forall (c : Composie.composie (Composie.handler E)) (ch : string) (t : value)
             (x : E) mws routes,
        Composie.getMiddlewares c ch = Some mws ->
        (obj_get (Composie.routers c) ch = Some routes \/
         obj_get (Composie.routers c) ch = None /\ Composie.inherited ch = false /\
         routes = []) ->
        e = mws ++ routes -> e <> [] ->
        Composie.run c ch t x =
        match Composie.composeMiddlewares e s
                (Composie.World (Composie.createContext ch t) x) with
        | Some (Fulfilled _, w) =>
            Some (Fulfilled (Composie.response (Composie.ctx w)), w)
        | Some (Rejected err, w) => Some (Rejected err, w)
        | None => None
        end).
Proof.
  split; [|split; [|split; [|split; [|split; [|split]]]]].
  - intros w.
    destruct (r_total e s (S (S (length e))) 0 (Composie.CState (-1) w))
      as [[res st] Hr]; try lia.
    exists res, st. unfold Composie.composeMiddlewares. rewrite Hr. simpl.
    repeat split. apply r_mono in Hr. lia.
  - intros fuel n st Hn. rewrite r_unfold.
    destruct (Z.leb_spec n (Composie.i st)) as [Hle|Hgt]; [reflexivity|lia].
  - intros fuel n st res st' Hr fuel' w'. rewrite r_unfold. simpl.
    apply r_mono in Hr.
    destruct (Z.leb_spec n (Composie.i st')) as [Hle|Hgt]; [reflexivity|lia].
  - intros fuel n st h. apply call_is_call_once.
  - intros n0 h Hat Hpass w.
    pose proof (at_index_Some _ _ _ Hat) as Hn0.
    destruct (passing_chain e s n0 ltac:(lia) Hpass (Z.to_nat n0) ltac:(lia) w)
      as (w0 & Hchain).
    specialize (Hchain (S (S (length e))) ltac:(lia)).
    replace (n0 - Z.of_nat (Z.to_nat n0)) with 0 in Hchain by lia.
    change (0 - 1) with (-1) in Hchain.
    rewrite r_unfold in Hchain. cbn [Composie.i Composie.wld] in Hchain.
    destruct (Z.leb_spec n0 (n0 - 1)) as [Hle|_]; [lia|].
    unfold Composie.slot in Hchain.
    destruct (Z.eqb_spec n0 (Z.of_nat (length e))) as [Heq|_]; [lia|].
    rewrite Hat, call_is_call_once in Hchain.
    destruct (call_total h (Composie.r (S (length e)) e s (n0 + 1))
                (Composie.CState n0 w0)) as [[res st2] Hk].
    { intros st0. apply r_total; lia. }
    rewrite call_is_call_once in Hk. rewrite Hk in Hchain.
    destruct Hchain as (st' & Hrun & _).
    exists w0, res, st2, (Composie.wld st'). split; [exact Hk|].
    unfold Composie.composeMiddlewares. rewrite Hrun. reflexivity.
  - intros h st Hp. now apply call_passes_on_rejected.
  - intros -> c ch t x mws routes Hmws Hroutes -> Hne.
    unfold Composie.run. cbn [Composie.channel Composie.createContext].
    rewrite Hmws. cbn [mbind option_bind].
    assert (match obj_get (Composie.routers c) ch with
            | Some l => Some l
            | None => if Composie.inherited ch then None else Some []
            end = Some routes) as ->
      by (destruct Hroutes as [->|(-> & -> & ->)]; reflexivity).
    cbn [mbind option_bind].
    destruct (mws ++ routes) as [|h0 rest] eqn:Hrs; [contradiction|].
    cbn [length Nat.ltb Nat.leb].
    destruct (Composie.composeMiddlewares (h0 :: rest) None
                (Composie.World (Composie.createContext ch t) x)) as [[[v|err] w]|];
      reflexivity.
Qed.

(** The chain [wrap in out; forward; next_twice; ctx => 1]: the handler at
    index 2 calls [next] twice and returns the second call, below two
    handlers that return what [next()] gave them, and the chain rejects
    with the error of the second call. *)
Lemma next_called_twice_is_rejected_witness :
  let e := [Composie.wrap (Composie.note (Fulfilled (VStr "in")))
              (Composie.note (Fulfilled (VStr "out")));
            Composie.forward; Composie.next_twice; Composie.Return (VNum 1)] in
  let w := Composie.World (Composie.createContext "ch" VNull) [] in
  Composie.at_index e 2 = Some Composie.next_twice
  /\ exists w',
       Composie.composeMiddlewares e None w =
       Some (Rejected Composie.next_called_multiple_times, w').
Proof.
  intros e w. split; [reflexivity|].
  destruct (next_called_twice_is_rejected (list outcome) e None)
    as (_ & _ & _ & _ & H & _).
  destruct (H 2 _ eq_refl) with (w := w) as (w0 & res & st2 & w' & Hcall & Hrun).
  - intros m Hm. assert (m = 0 \/ m = 1) as [-> | ->] by lia.
    + eexists. split; [reflexivity|]. apply Composie.passes_update.
      apply Composie.passes_next. intros o. apply Composie.settles_update.
      apply Composie.settles_here.
    + eexists. split; [reflexivity|]. apply Composie.passes_next.
      intros o. apply Composie.settles_here.
  - exists w'. rewrite Hrun. cbn in Hcall. injection Hcall as <- _. reflexivity.
Defined.

(** C4 as stated fails: a handler that calls [next] a second time and does
    not return that call. The second call is rejected (the note shows it)
    and the enclosing [run] resolves. *)
Lemma next_called_twice_run_resolves :
  exists c,
    Composie.addMiddleware (Composie.create "w") "ch"
      (Composie.next_twice_discarding Composie.note) = Some c /\
    Composie.run c "ch" VNull [] =
    Some (Fulfilled VUndefined,
          Composie.World (Composie.createContext "ch" VNull)
            [Rejected Composie.next_called_multiple_times]).
Proof.
  eexists. split; reflexivity.
Qed.

Section AssignFacts.
Context {A : Type}.
Implicit Types (o src : obj A) (k : string).

Lemma obj_get_None_keys o k : obj_get o k = None -> ~ In k (keys o).
Proof.
  intros Hg Hin. destruct (obj_get_key _ _ Hin) as [v Hv]. congruence.
Qed.

Lemma obj_get_assign_keys src k (l : list string) :
  forall acc : obj A,
    (forall k', In k' l -> is_Some (obj_get src k')) ->
    obj_get (fold_left (fun acc k0 =>
                          match obj_get src k0 with
                          | Some v => obj_set acc k0 v
                          | None => acc
                          end) l acc) k =
    if existsb (String.eqb k) l then obj_get src k else obj_get acc k.
Proof.
  induction l as [|k0 l IH]; intros acc Hl; simpl; [reflexivity|].
  destruct (Hl k0 (or_introl eq_refl)) as [v0 Hv0]. rewrite Hv0.
  rewrite IH by (intros k' Hk'; apply Hl; now right).
  rewrite obj_get_set. rewrite (String.eqb_sym k k0).
  destruct (String.eqb_spec k0 k) as [->|Hne]; simpl.
  - rewrite Hv0. now destruct (existsb (String.eqb k) l).
  - reflexivity.
Qed.

(** Reading a property after [Object.assign]. *)
Lemma obj_get_assign o src k :
  obj_get (obj_assign o src) k =
  match obj_get src k with
  | Some v => Some v
  | None => obj_get o k
  end.
Proof.
  unfold obj_assign. rewrite obj_get_assign_keys.
  - destruct (existsb (String.eqb k) (keys src)) eqn:Hex.
    + apply existsb_exists in Hex as (k' & Hin & Heq).
      apply String.eqb_eq in Heq as <-.
      destruct (obj_get_key _ _ Hin) as [v ->]. reflexivity.
    + destruct (obj_get src k) as [v|] eqn:Hg; [|reflexivity].
      apply obj_get_In in Hg. apply (in_map fst) in Hg. simpl in Hg.
      assert (existsb (String.eqb k) (keys src) = true) as Hex'.
      { apply existsb_exists. exists k. split; [exact Hg|apply String.eqb_refl]. }
      congruence.
  - intros k' Hk'. destruct (obj_get_key _ _ Hk') as [v ->]. eauto.
Qed.
End AssignFacts.

Section EnvelopeFacts.
Import Hub.
Implicit Types (h : hub) (t : target) (msg : obj value).

Lemma field_obj (o : obj value) (k : string) :
  field (VObj o) k = default VUndefined (obj_get o k).
Proof. reflexivity. Qed.

(** The request [_buildReqMessage] builds: its four fields are the
    hub's, whatever the configuration object brought. *)
Lemma buildReqMessage_fields h methodName args :
  let reqMsg := snd (_buildReqMessage h methodName args) in
  obj_get reqMsg "fromInstance" = Some (VStr (instanceID h)) /\
  obj_get reqMsg "messageID" = Some (VNum (_messageID h + 1)) /\
  obj_get reqMsg "type" = Some (VStr "request") /\
  obj_get reqMsg "args" = Some (VArr args).
Proof.
  simpl. repeat split; rewrite obj_get_assign; reflexivity.
Qed.

Lemma buildReqMessage_hub h methodName args :
  fst (_buildReqMessage h methodName args) = with_messageID h (_messageID h + 1).
Proof. reflexivity. Qed.

(** [_normalizeRequest] touches [progress] and [args] only. *)
Lemma normalizeRequest_other t msg k :
  k <> "progress" -> k <> "args" ->
  obj_get (_normalizeRequest t msg) k = obj_get msg k.
Proof.
  intros Hp Ha. unfold _normalizeRequest. destruct t as [|p]; [reflexivity|].
  destruct (negb (truthy (args0 msg)) || _); [reflexivity|].
  assert (obj_get (obj_assign (obj_assign [] msg) [("progress", VBool true)]) k
          = obj_get msg k) as Hnew.
  { rewrite !obj_get_assign. cbn [obj_get].
    destruct (String.eqb_spec "progress" k) as [<-|_]; [congruence|].
    now destruct (obj_get msg k). }
  destruct (field _ "args"); try exact Hnew.
  destruct (args0 msg); try exact Hnew.
  rewrite obj_get_set.
  destruct (String.eqb_spec "args" k) as [<-|_]; [congruence|exact Hnew].
Qed.
End EnvelopeFacts.

(** C8. What [_emit] sends is [_normalizeRequest] of the request it built.
    When the target is a peer and [args[0]] is an object whose
    [onprogress] is a function, the request sent carries [progress: true],
    its [args[0]] is a copy of the object without [onprogress], the other
    arguments and the other fields are those of the request built. In
    every other case (the target is ['*'], or [args[0]] has no [onprogress]
    function) the request is sent as it was built, and a request built
    from a method name has no [progress] field. *)
Theorem normalizeRequest_strips_onprogress (h : Hub.hub) (t : Hub.target)
  (methodName : string + obj value) (args : list value) :
  let reqMsg := snd (Hub._buildReqMessage h methodName args) in
  let sent := Hub._normalizeRequest t reqMsg in
  Hub.trace (fst (Hub._emit h t methodName args)) =
    Hub.trace h ++ [Hub.Sent t (VObj sent)]
  /\ match t, args with
     | Hub.Peer _, VObj o :: rest =>
         if is_function (field (VObj o) "onprogress") then
           field (VObj sent) "progress" = VBool true
           /\ field (VObj sent) "args" =
                VArr (VObj (obj_delete (obj_assign [] o) "onprogress") :: rest)
           /\ field (Hub.args0 sent) "onprogress" = VUndefined
           /\ (forall k, k <> "progress" -> k <> "args" ->
                         field (VObj sent) k = field (VObj reqMsg) k)
         else sent = reqMsg
     | _, _ => sent = reqMsg
     end
  /\ (forall name, methodName = inl name ->
                   field (VObj reqMsg) "progress" = VUndefined).
Proof.
  intros reqMsg sent.
  destruct (buildReqMessage_fields h methodName args) as (Hfrom & Hid & Hty & Hargs).
  fold reqMsg in Hfrom, Hid, Hty, Hargs.
  split; [reflexivity|]. split.
  - destruct t as [|p]; [destruct args as [|[] ?]; reflexivity|].
    assert (Hub.args0 reqMsg = first args) as Ha0
      by (unfold Hub.args0; rewrite field_obj, Hargs; reflexivity).
    assert (forall a0 rest, args = a0 :: rest ->
              (truthy a0 && is_function (field a0 "onprogress") = false) ->
              sent = reqMsg) as Hkeep.
    { intros a0 rest Heq Hno. unfold sent, Hub._normalizeRequest.
      rewrite Ha0, Heq. change (first (a0 :: rest)) with a0.
      destruct (truthy a0), (is_function (field a0 "onprogress")); simpl in *;
        congruence. }
    destruct args as [|a0 rest].
    { unfold sent, Hub._normalizeRequest. rewrite Ha0. reflexivity. }
    destruct a0 as [| |b|n|s|f|m|a|o];
      try (apply (Hkeep _ _ eq_refl); simpl; now rewrite ?andb_false_r).
    destruct (is_function (field (VObj o) "onprogress")) eqn:Hfn;
      [|apply (Hkeep _ _ eq_refl); simpl; exact Hfn].
    assert (sent = obj_set (obj_assign (obj_assign [] reqMsg) [("progress", VBool true)])
                     "args"
                     (VArr (VObj (obj_delete (obj_assign [] o) "onprogress") :: rest)))
      as Hsent.
    { unfold sent, Hub._normalizeRequest. rewrite Ha0.
      change (first (VObj o :: rest)) with (VObj o). rewrite Hfn.
      cbn [truthy negb orb]. rewrite field_obj, !obj_get_assign.
      cbn [obj_get]. rewrite Hargs. reflexivity. }
    repeat split.
    + rewrite Hsent, field_obj, obj_get_set. simpl.
      rewrite obj_get_assign. reflexivity.
    + rewrite Hsent, field_obj, obj_get_set. reflexivity.
    + unfold Hub.args0. rewrite Hsent, field_obj, obj_get_set.
      rewrite String.eqb_refl.
      change (field (VObj (obj_delete (obj_assign [] o) "onprogress")) "onprogress"
              = VUndefined).
      rewrite field_obj, obj_get_delete. reflexivity.
    + intros k Hp Ha. rewrite !field_obj. f_equal.
      now apply normalizeRequest_other.
  - intros name ->. reflexivity.
Qed.

(** A call to peer 1 with an [onprogress] callback and a second argument. *)
Lemma normalizeRequest_strips_onprogress_witness :
  let args := [VObj [("x", VNum 1); ("onprogress", VFun (UserFn 7))]; VNum 2] in
  let sent := Hub._normalizeRequest (Hub.Peer 1)
                (snd (Hub._buildReqMessage (Hub.create "A") (inl "load") args)) in
  field (VObj sent) "progress" = VBool true
  /\ field (VObj sent) "args" = VArr [VObj [("x", VNum 1)]; VNum 2].
Proof.
  intros args sent.
  destruct (normalizeRequest_strips_onprogress (Hub.create "A") (Hub.Peer 1)
              (inl "load") args) as (_ & (Hprogress & Hargs & _) & _).
  split; [exact Hprogress|exact Hargs].
Defined.

Section CallbackFacts.
Import Hub.
Implicit Types (h : hub) (cb : callback) (msg : value).

Lemma strict_eq_true (a b : value) : strict_eq a b = true -> a = b.
Proof.
  destruct a, b; simpl; try discriminate; intros H; try reflexivity.
  - apply Bool.eqb_prop in H. congruence.
  - apply Z.eqb_eq in H. congruence.
  - apply String.eqb_eq in H. congruence.
Qed.

Lemma is_str_true (v : value) (s : string) : is_str v s = true <-> v = VStr s.
Proof.
  destruct v; simpl; split; try discriminate; try congruence.
  - intros H. apply String.eqb_eq in H. congruence.
  - intros [= ->]. apply String.eqb_refl.
Qed.

(** The two tests differ by the [type] they ask for. *)
Lemma isResponse_not_isProgress h reqMsg msg :
  _isResponse h reqMsg msg = true -> _isProgress h reqMsg msg = false.
Proof.
  unfold _isResponse, _isProgress. intros H.
  apply andb_true_iff in H as [_ H]. apply is_str_true in H. rewrite H.
  simpl. now rewrite andb_false_r.
Qed.

(** What the callback returns. *)
Lemma run_callback_ret h cb msg :
  fst (run_callback h cb msg) =
  if _isResponse h (cb_reqMsg cb) msg then 1
  else if _isProgress h (cb_reqMsg cb) msg then 2 else 0.
Proof.
  unfold run_callback.
  destruct (_isResponse h (cb_reqMsg cb) msg); simpl; [reflexivity|].
  destruct (_isProgress h (cb_reqMsg cb) msg); simpl; [|reflexivity].
  now destruct (onprogress_of (cb_reqMsg cb)).
Qed.

(** A callback that reports no match has done nothing. *)
Lemma run_callback_no_match h cb msg :
  fst (run_callback h cb msg) = 0 -> snd (run_callback h cb msg) = h.
Proof.
  unfold run_callback.
  destruct (_isResponse h (cb_reqMsg cb) msg); simpl; [discriminate|].
  destruct (_isProgress h (cb_reqMsg cb) msg); simpl; [|reflexivity].
  destruct (onprogress_of (cb_reqMsg cb)); discriminate.
Qed.

(** The scan passes the callbacks that report no match. *)
Lemma find_callback_skip h (before rest : list callback) msg (idx : nat) :
  Forall (fun c => fst (run_callback h c msg) = 0) before ->
  find_callback h (before ++ rest) msg idx =
  find_callback h rest msg (idx + length before).
Proof.
  revert idx. induction before as [|c before IH]; intros idx Hall; simpl.
  - f_equal. lia.
  - inversion Hall as [|? ? Hc Hrest]; subst.
    pose proof (run_callback_no_match _ _ _ Hc) as Hh.
    destruct (run_callback h c msg) as [ret h'] eqn:Hrun. simpl in Hc, Hh. subst.
    simpl. rewrite IH by assumption. f_equal. lia.
Qed.

Lemma find_callback_none h (cbs : list callback) msg (idx : nat) :
  Forall (fun c => fst (run_callback h c msg) = 0) cbs ->
  find_callback h cbs msg idx = (None, h).
Proof.
  intros Hall. rewrite <- (app_nil_r cbs).
  rewrite find_callback_skip by assumption. reflexivity.
Qed.

(** It stops at the first callback that reports a match. *)
Lemma find_callback_hit h (before after : list callback) cb msg :
  Forall (fun c => fst (run_callback h c msg) = 0) before ->
  fst (run_callback h cb msg) <> 0 ->
  find_callback h (before ++ cb :: after) msg 0 =
  (Some (length before, fst (run_callback h cb msg)), snd (run_callback h cb msg)).
Proof.
  intros Hall Hhit. rewrite find_callback_skip by assumption. simpl.
  destruct (run_callback h cb msg) as [ret h'] eqn:Hrun. simpl in *.
  destruct (Z.eqb_spec ret 0); [contradiction|]. reflexivity.
Qed.

(** The first callback of a list that reports a match, with what comes
    before and after it. *)
Lemma first_match h (cbs : list callback) msg :
  Forall (fun c => fst (run_callback h c msg) = 0) cbs \/
  exists before cb after,
    cbs = before ++ cb :: after /\
    Forall (fun c => fst (run_callback h c msg) = 0) before /\
    fst (run_callback h cb msg) <> 0.
Proof.
  induction cbs as [|c cbs IH]; [left; constructor|].
  destruct (Z.eq_dec (fst (run_callback h c msg)) 0) as [Hc|Hc].
  - destruct IH as [Hall|(before & cb & after & -> & Hb & Hcb)].
    + left. now constructor.
    + right. exists (c :: before), cb, after. repeat split; auto.
  - right. exists [], c, cbs. repeat split; auto.
Qed.

Lemma run_callback_callbacks h cb msg :
  _responseCallbacks (snd (run_callback h cb msg)) = _responseCallbacks h.
Proof.
  unfold run_callback, settle.
  destruct (_isResponse h (cb_reqMsg cb) msg); simpl.
  - now destruct (promises h !! cb_promise cb) as [[?|]|].
  - destruct (_isProgress h (cb_reqMsg cb) msg); simpl; [|reflexivity].
    now destruct (onprogress_of (cb_reqMsg cb)).
Qed.

Lemma delete_middle {A : Type} (before after : list A) (x : A) :
  delete (length before) (before ++ x :: after) = before ++ after.
Proof. induction before as [|y before IH]; simpl; [reflexivity|now rewrite IH]. Qed.

Lemma on_reply_miss h msg :
  Forall (fun c => fst (run_callback h c msg) = 0) (_responseCallbacks h) ->
  on_reply h msg = h.
Proof. intros Hall. unfold on_reply. now rewrite find_callback_none. Qed.

Lemma on_reply_hit h (before after : list callback) cb msg :
  _responseCallbacks h = before ++ cb :: after ->
  Forall (fun c => fst (run_callback h c msg) = 0) before ->
  fst (run_callback h cb msg) <> 0 ->
  on_reply h msg =
  if 1 <? fst (run_callback h cb msg)
  then snd (run_callback h cb msg)
  else with_callbacks (snd (run_callback h cb msg)) (before ++ after).
Proof.
  intros Hsplit Hb Hcb.
  unfold on_reply. rewrite Hsplit, find_callback_hit by assumption.
  destruct (1 <? fst (run_callback h cb msg)); [reflexivity|].
  rewrite run_callback_callbacks, Hsplit, delete_middle. reflexivity.
Qed.
End CallbackFacts.

(** C9. For every hub and every inbound message that is no request,
    [_onMessage] is the scan of the pending callbacks: either no callback
    reports a match and nothing changes, or the list of callbacks splits
    at the first one, in registration order, that reports a match; the
    callbacks before it reported none, those after it are not run, and the
    hub is left as that one callback leaves it, with that one entry
    removed when it reported 1 and none removed when it reported 2. So at
    most one entry goes and at most one promise settles, also when later
    callbacks would accept the message. *)
Theorem reply_stops_at_first_match
  (apply_fn : fn -> list value -> list value * outcome)
  (h : Hub.hub) (t : Hub.target) (msg : value) :
  truthy msg = true ->
  Hub._isRequest h msg = false ->
  Hub._onMessage apply_fn h t msg = Some (Hub.on_reply h msg)
  /\ ((Forall (fun c => fst (Hub.run_callback h c msg) = 0) (Hub._responseCallbacks h)
       /\ Hub.on_reply h msg = h)
      \/ (exists before cb after,
            Hub._responseCallbacks h = before ++ cb :: after
            /\ Forall (fun c => fst (Hub.run_callback h c msg) = 0) before
            /\ fst (Hub.run_callback h cb msg) <> 0
            /\ Hub.on_reply h msg =
                 (if 1 <? fst (Hub.run_callback h cb msg)
                  then snd (Hub.run_callback h cb msg)
                  else Hub.with_callbacks (snd (Hub.run_callback h cb msg))
                         (before ++ after))
            /\ (length (Hub._responseCallbacks h)
                <= S (length (Hub._responseCallbacks (Hub.on_reply h msg))))%nat
            /\ (Hub.promises (Hub.on_reply h msg) = Hub.promises h
                \/ Hub.promises (Hub.on_reply h msg) =
                     <[Hub.cb_promise cb := Some (Hub.settlement msg)]>
                       (Hub.promises h)))).
Proof.
  intros Htruthy Hreq. split.
  { unfold Hub._onMessage. now rewrite Htruthy, Hreq. }
  destruct (first_match h (Hub._responseCallbacks h) msg)
    as [Hall|(before & cb & after & Hsplit & Hb & Hcb)].
  - left. split; [exact Hall|]. now apply on_reply_miss.
  - right. exists before, cb, after.
    pose proof (on_reply_hit h before after cb msg Hsplit Hb Hcb) as Hreply.
    repeat split; try assumption.
    + rewrite Hreply. destruct (1 <? fst (Hub.run_callback h cb msg)).
      * rewrite run_callback_callbacks. lia.
      * simpl. rewrite Hsplit, !length_app. simpl. lia.
    + rewrite Hreply.
      assert (Hub.promises (snd (Hub.run_callback h cb msg)) = Hub.promises h
              \/ Hub.promises (snd (Hub.run_callback h cb msg)) =
                   <[Hub.cb_promise cb := Some (Hub.settlement msg)]> (Hub.promises h))
        as Hp.
      { unfold Hub.run_callback, Hub.settle.
        destruct (Hub._isResponse h (Hub.cb_reqMsg cb) msg); simpl.
        - destruct (Hub.promises h !! Hub.cb_promise cb) as [[?|]|]; simpl; auto.
        - destruct (Hub._isProgress h (Hub.cb_reqMsg cb) msg); simpl; auto.
          destruct (Hub.onprogress_of (Hub.cb_reqMsg cb)); simpl; auto. }
      destruct (1 <? fst (Hub.run_callback h cb msg)); exact Hp.
Qed.

(** Two pending calls that would both accept one Response (two calls made
    with one configuration object would share their request so): the first
    is settled and removed, the second stays pending. *)
Lemma reply_stops_at_first_match_witness :
  let apply_fn := fun (_ : fn) (_ : list value) => ([] : list value, Fulfilled VUndefined) in
  let reqMsg := [("methodName", VStr "m"); ("fromInstance", VStr "A");
                 ("messageID", VNum 1); ("type", VStr "request"); ("args", VArr [])] in
  let h := Hub.MkHub "A" [] [Hub.Callback reqMsg 0; Hub.Callback reqMsg 1] 1
             [None; None] [] in
  let msg := VObj [("fromInstance", VStr "B"); ("toInstance", VStr "A");
                   ("messageID", VNum 1); ("type", VStr "response");
                   ("isSuccess", VBool true); ("data", VNum 7)] in
  truthy msg = true
  /\ Hub._isRequest h msg = false
  /\ fst (Hub.run_callback h (Hub.Callback reqMsg 0) msg) = 1
  /\ fst (Hub.run_callback h (Hub.Callback reqMsg 1) msg) = 1
  /\ Hub._onMessage apply_fn h (Hub.Peer 1) msg =
     Some (Hub.MkHub "A" [] [Hub.Callback reqMsg 1] 1
             [Some (Fulfilled (VNum 7)); None] []).
Proof.
  intros apply_fn reqMsg h msg. repeat (split; [reflexivity|]).
  destruct (reply_stops_at_first_match apply_fn h (Hub.Peer 1) msg eq_refl eq_refl)
    as [Hreply _].
  rewrite Hreply. reflexivity.
Defined.

Section PendingFacts.
Import Hub.
Implicit Types (h : hub) (cb : callback) (msg : value).

(** The invariant reads four fields of the hub. *)
Lemma pending_wf_same h h' :
  instanceID h' = instanceID h ->
  _responseCallbacks h' = _responseCallbacks h ->
  promises h' = promises h ->
  _messageID h' = _messageID h ->
  pending_wf h -> pending_wf h'.
Proof.
  intros Hi Hc Hp Hm [H1 H2 H3 H4 H5].
  constructor; rewrite ?Hi, ?Hc, ?Hp, ?Hm; assumption.
Qed.

Lemma pending_wf_create (id : string) : pending_wf (create id).
Proof. constructor; simpl; constructor. Qed.

Lemma emit_callbacks h t methodName args :
  _responseCallbacks (fst (_emit h t methodName args)) =
  _responseCallbacks h ++
    [Callback (snd (_buildReqMessage h methodName args)) (length (promises h))].
Proof. reflexivity. Qed.

Lemma pending_wf_emit h t methodName args :
  pending_wf h -> pending_wf (fst (_emit h t methodName args)).
Proof.
  intros [Hfrom Hid Hidnd Hp Hpnd].
  destruct (buildReqMessage_fields h methodName args) as (Ffrom & Fid & _ & _).
  constructor; rewrite emit_callbacks;
    remember (snd (_buildReqMessage h methodName args)) as reqMsg eqn:HreqMsg;
    clear HreqMsg.
  - apply Forall_app. split; [exact Hfrom|]. constructor; [|constructor].
    simpl cb_reqMsg. rewrite field_obj, Ffrom. reflexivity.
  - apply Forall_app. split.
    + eapply Forall_impl; [exact Hid|]. intros cb (n & Hn & Hle).
      exists n. split; [exact Hn|]. simpl. lia.
    + constructor; [|constructor]. exists (_messageID h + 1). split.
      * unfold request_id. simpl cb_reqMsg. rewrite field_obj, Fid. reflexivity.
      * simpl. lia.
  - rewrite map_app. apply NoDup_app. split; [exact Hidnd|]. split.
    + intros v Hv Hnew. apply list_elem_of_singleton in Hnew.
      apply list_elem_of_fmap in Hv as (cb & -> & Hcb).
      rewrite Forall_forall in Hid. destruct (Hid cb Hcb) as (n & Hn & Hle).
      unfold request_id in Hnew at 2. simpl cb_reqMsg in Hnew.
      rewrite field_obj, Fid in Hnew. simpl in Hnew. rewrite Hn in Hnew.
      injection Hnew as Hnew. lia.
    + apply NoDup_singleton.
  - apply Forall_app. split.
    + eapply Forall_impl; [exact Hp|]. intros cb Hcb. simpl.
      rewrite lookup_app_l; [exact Hcb|]. now apply lookup_lt_Some in Hcb.
    + constructor; [|constructor]. simpl.
      rewrite lookup_app_r by lia. now rewrite Nat.sub_diag.
  - rewrite map_app. apply NoDup_app. split; [exact Hpnd|]. split.
    + intros p Hin Hnew. apply list_elem_of_singleton in Hnew.
      apply list_elem_of_fmap in Hin as (cb & -> & Hcb).
      rewrite Forall_forall in Hp. specialize (Hp cb Hcb).
      apply lookup_lt_Some in Hp. simpl in Hnew. lia.
    + apply NoDup_singleton.
Qed.

(** Under the invariant, a pending call that accepts a message is the
    only one that does. *)
Lemma pending_unique h (before after : list callback) cb msg :
  pending_wf h ->
  _responseCallbacks h = before ++ cb :: after ->
  fst (run_callback h cb msg) <> 0 ->
  Forall (fun c => fst (run_callback h c msg) = 0) (before ++ after).
Proof.
  intros Hwf Hsplit Hcb.
  assert (strict_eq (field msg "messageID") (request_id cb) = true) as Heq.
  { rewrite run_callback_ret in Hcb. unfold _isResponse, _isProgress in Hcb.
    unfold request_id.
    destruct (strict_eq (field msg "messageID") (field (VObj (cb_reqMsg cb)) "messageID"));
      [reflexivity|].
    rewrite !andb_false_r in Hcb. simpl in Hcb. congruence. }
  apply strict_eq_true in Heq.
  pose proof (wf_id_nodup h Hwf) as Hnd. rewrite Hsplit, map_app in Hnd.
  simpl in Hnd. apply NoDup_app in Hnd as (_ & Hdisj & Hnd).
  apply NoDup_cons in Hnd as [Hnotin _].
  apply Forall_forall. intros c Hc. rewrite run_callback_ret.
  unfold _isResponse, _isProgress.
  destruct (strict_eq (field msg "messageID") (field (VObj (cb_reqMsg c)) "messageID"))
    eqn:Hc_eq; [|now rewrite !andb_false_r].
  apply strict_eq_true in Hc_eq. exfalso.
  assert (request_id c = request_id cb) as Hsame
    by (unfold request_id at 1; congruence).
  apply elem_of_app in Hc as [Hc|Hc].
  - apply (Hdisj (request_id c)).
    + apply list_elem_of_fmap. eauto.
    + rewrite Hsame. apply list_elem_of_here.
  - apply Hnotin. rewrite <- Hsame. apply list_elem_of_fmap. eauto.
Qed.

Lemma pending_wf_remove h (before after : list callback) cb (o : outcome) :
  pending_wf h ->
  _responseCallbacks h = before ++ cb :: after ->
  pending_wf (with_callbacks
                (with_promises h (<[cb_promise cb := Some o]> (promises h)))
                (before ++ after)).
Proof.
  intros [Hfrom Hid Hidnd Hp Hpnd] Hsplit.
  rewrite Hsplit in Hfrom, Hid, Hidnd, Hp, Hpnd.
  apply Forall_app in Hfrom as [Hf1 Hf2]. apply Forall_cons in Hf2 as [_ Hf2].
  apply Forall_app in Hid as [Hi1 Hi2]. apply Forall_cons in Hi2 as [_ Hi2].
  apply Forall_app in Hp as [Hp1 Hp2]. apply Forall_cons in Hp2 as [_ Hp2].
  rewrite map_app in Hidnd, Hpnd. simpl in Hidnd, Hpnd.
  apply NoDup_app in Hidnd as (Hn1 & Hn2 & Hn3).
  apply NoDup_cons in Hn3 as [Hn3 Hn4].
  apply NoDup_app in Hpnd as (Hq1 & Hq2 & Hq3).
  apply NoDup_cons in Hq3 as [Hq3 Hq4].
  constructor; simpl.
  - apply Forall_app. split; assumption.
  - apply Forall_app. split; assumption.
  - rewrite map_app. apply NoDup_app. repeat split; try assumption.
    intros v Hv1 Hv2. apply (Hn2 v Hv1). now apply list_elem_of_further.
  - apply Forall_app. split.
    + apply Forall_forall. intros c Hc. rewrite Forall_forall in Hp1.
      rewrite list_lookup_insert_ne; [now apply Hp1|].
      intros Heq. apply (Hq2 (cb_promise c)).
      * apply list_elem_of_fmap. eauto.
      * rewrite <- Heq. apply list_elem_of_here.
    + apply Forall_forall. intros c Hc. rewrite Forall_forall in Hp2.
      rewrite list_lookup_insert_ne; [now apply Hp2|].
      intros Heq. apply Hq3. rewrite Heq. apply list_elem_of_fmap. eauto.
  - rewrite map_app. apply NoDup_app. repeat split; try assumption.
    intros v Hv1 Hv2. apply (Hq2 v Hv1). now apply list_elem_of_further.
Qed.

(** What a pending call does with a Response it accepts, under the
    invariant. *)
Lemma on_reply_response h (before after : list callback) cb msg :
  pending_wf h ->
  _responseCallbacks h = before ++ cb :: after ->
  _isResponse h (cb_reqMsg cb) msg = true ->
  on_reply h msg =
  with_callbacks
    (with_promises h (<[cb_promise cb := Some (settlement msg)]> (promises h)))
    (before ++ after).
Proof.
  intros Hwf Hsplit Hresp.
  assert (fst (run_callback h cb msg) = 1) as Hret
    by (rewrite run_callback_ret, Hresp; reflexivity).
  assert (fst (run_callback h cb msg) <> 0) as Hne by lia.
  pose proof (pending_unique h before after cb msg Hwf Hsplit Hne) as Hothers.
  apply Forall_app in Hothers as [Hb _].
  rewrite (on_reply_hit h before after cb msg Hsplit Hb Hne), Hret. simpl.
  unfold run_callback. rewrite Hresp. simpl. unfold settle.
  pose proof (wf_promise h Hwf) as Hp. rewrite Hsplit in Hp.
  apply Forall_app in Hp as [_ Hp]. apply Forall_cons in Hp as [Hp _].
  rewrite Hp. reflexivity.
Qed.

(** And with a Progress it accepts. *)
Lemma on_reply_progress h cb msg :
  pending_wf h ->
  In cb (_responseCallbacks h) ->
  _isProgress h (cb_reqMsg cb) msg = true ->
  on_reply h msg =
  match onprogress_of (cb_reqMsg cb) with
  | Some f => emit_event h (Progressed f (field msg "data"))
  | None => h
  end.
Proof.
  intros Hwf Hin Hprog.
  destruct (in_split _ _ Hin) as (before & after & Hsplit).
  assert (_isResponse h (cb_reqMsg cb) msg = false) as Hresp.
  { destruct (_isResponse h (cb_reqMsg cb) msg) eqn:Hr; [|reflexivity].
    apply isResponse_not_isProgress in Hr. congruence. }
  assert (fst (run_callback h cb msg) = 2) as Hret
    by (rewrite run_callback_ret, Hresp, Hprog; reflexivity).
  assert (fst (run_callback h cb msg) <> 0) as Hne by lia.
  pose proof (pending_unique h before after cb msg Hwf Hsplit Hne) as Hothers.
  apply Forall_app in Hothers as [Hb _].
  rewrite (on_reply_hit h before after cb msg Hsplit Hb Hne), Hret. simpl.
  unfold run_callback. rewrite Hresp, Hprog. simpl.
  now destruct (onprogress_of (cb_reqMsg cb)).
Qed.

Lemma pending_wf_reply h msg : pending_wf h -> pending_wf (on_reply h msg).
Proof.
  intros Hwf.
  destruct (first_match h (_responseCallbacks h) msg)
    as [Hall|(before & cb & after & Hsplit & Hb & Hcb)].
  - now rewrite on_reply_miss.
  - destruct (_isResponse h (cb_reqMsg cb) msg) eqn:Hresp.
    + rewrite (on_reply_response h before after cb msg Hwf Hsplit Hresp).
      now apply pending_wf_remove.
    + assert (_isProgress h (cb_reqMsg cb) msg = true) as Hprog.
      { rewrite run_callback_ret, Hresp in Hcb.
        destruct (_isProgress h (cb_reqMsg cb) msg); [reflexivity|congruence]. }
      rewrite (on_reply_progress h cb msg Hwf); [|rewrite Hsplit; apply in_elt|exact Hprog].
      destruct (onprogress_of (cb_reqMsg cb)); [|exact Hwf].
      eapply pending_wf_same; [..|exact Hwf]; reflexivity.
Qed.
End PendingFacts.

Section MatchingFacts.
Import Hub.
Implicit Types (h : hub) (cb : callback) (msg : value).


End MatchingFacts.




Section LifetimeFacts.
Import Hub.
Variable apply_fn : fn -> list value -> list value * outcome.
Implicit Types (h : hub) (t : target) (msg : value).

Lemma quiet_refl h : quiet h h.
Proof. repeat split. Qed.

Lemma quiet_trans h1 h2 h3 : quiet h1 h2 -> quiet h2 h3 -> quiet h1 h3.
Proof.
  unfold quiet. intros (?&?&?&?&?) (?&?&?&?&?). repeat split; congruence.
Qed.

Lemma request_ids_app (tr1 tr2 : list event) :
  request_ids (tr1 ++ tr2) = request_ids tr1 ++ request_ids tr2.
Proof. apply omap_app. Qed.

Lemma request_ids_sent t msg :
  request_ids [Sent t msg] =
  match (if is_str (field msg "type") "request"
         then match field msg "messageID" with
              | VNum n => Some n
              | _ => None
              end
         else None) with
  | Some n => [n]
  | None => []
  end.
Proof. reflexivity. Qed.

Lemma quiet_event h (e : event) :
  request_ids [e] = [] -> quiet h (emit_event h e).
Proof.
  intros He. repeat split. simpl. rewrite request_ids_app, He.
  apply app_nil_r.
Qed.

Lemma quiet_progress_messages h t reqMsg (reports : list value) :
  quiet h (fold_left (fun hh data =>
                        sendMessage hh t (_buildProgressMessage hh data reqMsg))
             reports h).
Proof.
  revert h. induction reports as [|data reports IH]; intros h; simpl.
  - apply quiet_refl.
  - eapply quiet_trans; [|apply IH]. now apply quiet_event.
Qed.

Lemma quiet_runMsgCallback h t reqMsg methodName args sink :
  quiet h (fst (_runMsgCallback apply_fn h t reqMsg methodName args sink)) /\
  field (snd (_runMsgCallback apply_fn h t reqMsg methodName args sink)) "type"
  = VStr "response".
Proof.
  unfold _runMsgCallback.
  destruct (resolve_method h t methodName args) as [[method|] args']; simpl.
  - destruct (apply_fn method args') as [reports res].
    assert (quiet h (if sink
                     then fold_left (fun hh data =>
                            sendMessage hh t (_buildProgressMessage hh data reqMsg))
                            reports h
                     else h)) as Hq
      by (destruct sink; [apply quiet_progress_messages|apply quiet_refl]).
    destruct res; simpl; split; [exact Hq|reflexivity|exact Hq|reflexivity].
  - split; [now apply quiet_event|reflexivity].
Qed.

Lemma quiet_run_callback h cb msg :
  instanceID (snd (run_callback h cb msg)) = instanceID h /\
  _eventHandlerMap (snd (run_callback h cb msg)) = _eventHandlerMap h /\
  _messageID (snd (run_callback h cb msg)) = _messageID h /\
  request_ids (trace (snd (run_callback h cb msg))) = request_ids (trace h).
Proof.
  unfold run_callback, settle.
  destruct (_isResponse h (cb_reqMsg cb) msg); simpl.
  - destruct (promises h !! cb_promise cb) as [[?|]|]; repeat split.
  - destruct (_isProgress h (cb_reqMsg cb) msg); simpl; [|repeat split].
    destruct (onprogress_of (cb_reqMsg cb)); simpl; repeat split.
    rewrite request_ids_app. apply app_nil_r.
Qed.

Lemma on_reply_ids h msg :
  instanceID (on_reply h msg) = instanceID h /\
  _eventHandlerMap (on_reply h msg) = _eventHandlerMap h /\
  _messageID (on_reply h msg) = _messageID h /\
  request_ids (trace (on_reply h msg)) = request_ids (trace h).
Proof.
  destruct (first_match h (_responseCallbacks h) msg)
    as [Hall|(before & cb & after & Hsplit & Hb & Hcb)].
  - rewrite on_reply_miss by assumption. repeat split.
  - rewrite (on_reply_hit h before after cb msg Hsplit Hb Hcb).
    destruct (1 <? fst (run_callback h cb msg)); simpl; apply quiet_run_callback.
Qed.

(** The request branch of [_onMessage] sends and warns, nothing else. *)
Lemma onMessage_request_quiet h t msg h' :
  truthy msg = true -> _isRequest h msg = true ->
  _onMessage apply_fn h t msg = Some h' -> quiet h h'.
Proof.
  intros Ht Hr. unfold _onMessage. rewrite Ht, Hr. simpl.
  destruct (field msg "methodName"); try discriminate.
  destruct (field msg "args"); try discriminate.
  destruct (attach_progress msg a) as [[args' sink]|]; [|intros [= <-]; apply quiet_refl].
  destruct (quiet_runMsgCallback h t msg s args' sink) as [Hq Hty].
  destruct (_runMsgCallback apply_fn h t msg s args' sink) as [h1 response].
  simpl in Hq, Hty. intros [= <-]. eapply quiet_trans; [exact Hq|].
  apply quiet_event. rewrite request_ids_sent, Hty. reflexivity.
Qed.

(** What [_emit] adds to the requests sent: the counter's next value. *)
Lemma emit_request_ids h t methodName args :
  request_ids (trace (fst (_emit h t methodName args))) =
  request_ids (trace h) ++ [_messageID h + 1] /\
  _messageID (fst (_emit h t methodName args)) = _messageID h + 1.
Proof.
  split; [|reflexivity].
  destruct (buildReqMessage_fields h methodName args) as (_ & Fid & Fty & _).
  change (trace (fst (_emit h t methodName args)))
    with (trace h ++ [Sent t (VObj (_normalizeRequest t
                                      (snd (_buildReqMessage h methodName args))))]).
  rewrite request_ids_app. f_equal. rewrite request_ids_sent.
  rewrite !field_obj, !normalizeRequest_other by discriminate.
  rewrite Fid, Fty. reflexivity.
Qed.

Lemma StronglySorted_snoc (l : list Z) (x : Z) :
  StronglySorted Z.lt l -> Forall (fun n => n < x) l ->
  StronglySorted Z.lt (l ++ [x]).
Proof.
  induction 1 as [|a l Hs IH Ha]; intros Hall; simpl.
  - repeat constructor.
  - apply Forall_cons in Hall as [Hax Hall]. constructor; [now apply IH|].
    apply Forall_app. split; [exact Ha|]. now repeat constructor.
Qed.


Lemma ids_increase_quiet h h' : quiet h h' -> ids_increase h -> ids_increase h'.
Proof.
  intros (_ & _ & Hm & _ & Hids) [Hs Hle]. unfold ids_increase.
  rewrite Hids, Hm. split; assumption.
Qed.

Lemma ids_increase_step h (o : op) h' :
  step apply_fn h o = Some h' -> ids_increase h -> ids_increase h'.
Proof.
  destruct o as [t methodName args|t a|t methodName|t msg]; cbn [step].
  - intros Heq [Hs Hle].
    assert (h' = fst (_emit h t methodName args)) as -> by congruence.
    unfold ids_increase.
    destruct (emit_request_ids h t methodName args) as [-> ->]. split.
    + apply StronglySorted_snoc; [exact Hs|].
      eapply Forall_impl; [exact Hle|]. simpl. intros n Hn. lia.
    + apply Forall_app. split.
      * eapply Forall_impl; [exact Hle|]. simpl. intros n Hn. lia.
      * repeat constructor. lia.
  - intros [= <-]. apply ids_increase_quiet. unfold _on.
    destruct (find_pair h t) as [[idx [t' existing]]|]; [repeat split|].
    destruct t; repeat split.
  - intros [= <-]. apply ids_increase_quiet. unfold _off.
    destruct (find_pair h t) as [[idx [t' handlerMap]]|]; [|apply quiet_refl].
    destruct (no_methodName methodName); [repeat split|].
    destruct handlerMap as [f|m]; [apply quiet_refl|].
    destruct (length (keys (obj_delete m (default "" methodName))) =? 0)%nat;
      repeat split.
  - destruct (truthy msg) eqn:Ht.
    + destruct (_isRequest h msg) eqn:Hr.
      * intros H. apply ids_increase_quiet.
        now apply (onMessage_request_quiet h t msg h').
      * unfold _onMessage. rewrite Ht, Hr. simpl. intros [= <-] [Hs Hle].
        destruct (on_reply_ids h msg) as (_ & _ & Hm & Hids).
        unfold ids_increase. rewrite Hids, Hm. split; assumption.
    + unfold _onMessage. rewrite Ht. simpl. now intros [= <-].
Qed.

Lemma ids_increase_steps (ops : list op) :
  forall h h', steps apply_fn h ops = Some h' -> ids_increase h -> ids_increase h'.
Proof.
  induction ops as [|o ops IH]; intros h h'; simpl.
  - now intros [= <-].
  - destruct (step apply_fn h o) as [h1|] eqn:Hstep; simpl; [|discriminate].
    intros Hsteps Hinv. apply (IH h1 h' Hsteps).
    now apply (ids_increase_step h o h1).
Qed.

Lemma ids_count_quiet h h' : quiet h h' -> ids_count h -> ids_count h'.
Proof.
  intros (_ & _ & Hm & _ & Hids) [H0 Hseq]. unfold ids_count.
  rewrite Hids, Hm. split; assumption.
Qed.

Lemma ids_count_step h (o : op) h' :
  step apply_fn h o = Some h' -> ids_count h -> ids_count h'.
Proof.
  destruct o as [t methodName args|t a|t methodName|t msg]; cbn [step].
  - intros Heq [H0 Hseq].
    assert (h' = fst (_emit h t methodName args)) as -> by congruence.
    unfold ids_count.
    destruct (emit_request_ids h t methodName args) as [-> ->]. split; [lia|].
    rewrite Hseq. replace (Z.to_nat (_messageID h + 1)) with (Z.to_nat (_messageID h) + 1)%nat
      by lia.
    rewrite seq_app, map_app. cbn [seq map]. repeat f_equal. lia.
  - intros [= <-]. apply ids_count_quiet. unfold _on.
    destruct (find_pair h t) as [[idx [t' existing]]|]; [repeat split|].
    destruct t; repeat split.
  - intros [= <-]. apply ids_count_quiet. unfold _off.
    destruct (find_pair h t) as [[idx [t' handlerMap]]|]; [|apply quiet_refl].
    destruct (no_methodName methodName); [repeat split|].
    destruct handlerMap as [f|m]; [apply quiet_refl|].
    destruct (length (keys (obj_delete m (default "" methodName))) =? 0)%nat;
      repeat split.
  - destruct (truthy msg) eqn:Ht.
    + destruct (_isRequest h msg) eqn:Hr.
      * intros H. apply ids_count_quiet.
        now apply (onMessage_request_quiet h t msg h').
      * unfold _onMessage. rewrite Ht, Hr. simpl. intros [= <-] [H0 Hseq].
        destruct (on_reply_ids h msg) as (_ & _ & Hm & Hids).
        unfold ids_count. rewrite Hids, Hm. split; assumption.
    + unfold _onMessage. rewrite Ht. simpl. now intros [= <-].
Qed.

Lemma ids_count_steps (ops : list op) :
  forall h h', steps apply_fn h ops = Some h' -> ids_count h -> ids_count h'.
Proof.
  induction ops as [|o ops IH]; intros h h'; simpl.
  - now intros [= <-].
  - destruct (step apply_fn h o) as [h1|] eqn:Hstep; simpl; [|discriminate].
    intros Hsteps Hinv. apply (IH h1 h' Hsteps).
    now apply (ids_count_step h o h1).
Qed.






End LifetimeFacts.




Section DispatchFacts.
Import Hub.
Variable apply_fn : fn -> list value -> list value * outcome.
Implicit Types (h : hub) (t : target) (msg : value).

Lemma pending_wf_quiet h h' : quiet h h' -> pending_wf h -> pending_wf h'.
Proof. intros (Hi & Hc & Hm & Hp & _). now apply pending_wf_same. Qed.

Lemma pending_wf_step h (o : op) h' :
  step apply_fn h o = Some h' -> pending_wf h -> pending_wf h'.
Proof.
  destruct o as [t methodName args|t a|t methodName|t msg]; cbn [step].
  - intros Heq Hwf.
    assert (h' = fst (_emit h t methodName args)) as -> by congruence.
    now apply pending_wf_emit.
  - intros [= <-]. apply pending_wf_same; try reflexivity; unfold _on;
      destruct (find_pair h t) as [[idx [t' existing]]|]; try reflexivity;
      destruct t; reflexivity.
  - intros [= <-]. apply pending_wf_same; try reflexivity; unfold _off;
      destruct (find_pair h t) as [[idx [t' handlerMap]]|]; try reflexivity;
      destruct (no_methodName methodName); try reflexivity;
      destruct handlerMap as [f|m]; try reflexivity;
      destruct (length (keys (obj_delete m (default "" methodName))) =? 0)%nat;
      reflexivity.
  - destruct (truthy msg) eqn:Ht.
    + destruct (_isRequest h msg) eqn:Hr.
      * intros H. apply pending_wf_quiet.
        now apply (onMessage_request_quiet apply_fn h t msg h').
      * unfold _onMessage. rewrite Ht, Hr. simpl. intros [= <-].
        apply pending_wf_reply.
    + unfold _onMessage. rewrite Ht. simpl. now intros [= <-].
Qed.

(** The pending calls of a hub are as [_emit] leaves them, all its life. *)
Lemma pending_wf_steps (ops : list op) :
  forall h h', steps apply_fn h ops = Some h' -> pending_wf h -> pending_wf h'.
Proof.
  induction ops as [|o ops IH]; intros h h'; simpl.
  - now intros [= <-].
  - destruct (step apply_fn h o) as [h1|] eqn:Hstep; simpl; [|discriminate].
    intros Hsteps Hinv. apply (IH h1 h' Hsteps).
    now apply (pending_wf_step h o h1).
Qed.

(** An envelope that a pending call accepts is no request: [_onMessage]
    takes the reply branch. *)
Lemma onMessage_reply h t reqMsg msg :
  _isResponse h reqMsg msg || _isProgress h reqMsg msg = true ->
  _onMessage apply_fn h t msg = Some (on_reply h msg).
Proof.
  intros Hacc.
  assert (exists type, field msg "type" = VStr type /\ type <> "request")
    as (type & Htype & Hne).
  { apply orb_true_iff in Hacc as [H|H]; unfold _isResponse, _isProgress in H;
      apply andb_true_iff in H as [_ H]; apply is_str_true in H;
      eexists; (split; [exact H|discriminate]). }
  assert (truthy msg = true) as Htruthy
    by (destruct msg; try discriminate; reflexivity).
  unfold _onMessage. rewrite Htruthy. simpl.
  assert (_isRequest h msg = false) as ->.
  { unfold _isRequest. rewrite Htype. simpl.
    apply String.eqb_neq in Hne. rewrite Hne. now rewrite andb_false_r. }
  reflexivity.
Qed.


End DispatchFacts.

Section FirstMatchFacts.
Import Hub.
Variable apply_fn : fn -> list value -> list value * outcome.
Implicit Types (h : hub) (t : target) (cb : callback) (msg : value).



Lemma settle_keeps h (q : nat) (o' : outcome) (p : nat) (o : outcome) :
  promises h !! p = Some (Some o) ->
  promises (settle h q o') !! p = Some (Some o).
Proof.
  intros Hp. unfold settle. destruct (promises h !! q) as [[x|]|] eqn:Hq; try exact Hp.
  cbn [promises with_promises]. rewrite list_lookup_insert_ne; [exact Hp|].
  intros ->. congruence.
Qed.

Lemma run_callback_keeps h cb msg (p : nat) (o : outcome) :
  promises h !! p = Some (Some o) ->
  promises (snd (run_callback h cb msg)) !! p = Some (Some o).
Proof.
  intros Hp. unfold run_callback.
  destruct (negb (_isResponse h (cb_reqMsg cb) msg)).
  - destruct (negb (_isProgress h (cb_reqMsg cb) msg)); [exact Hp|].
    destruct (onprogress_of (cb_reqMsg cb)); exact Hp.
  - cbn [snd]. now apply settle_keeps.
Qed.

Lemma find_callback_keeps (cbs : list callback) msg (p : nat) (o : outcome) :
  forall h idx,
    promises h !! p = Some (Some o) ->
    promises (snd (find_callback h cbs msg idx)) !! p = Some (Some o).
Proof.
  induction cbs as [|cb cbs IH]; intros h idx Hp; cbn [find_callback]; [exact Hp|].
  pose proof (run_callback_keeps h cb msg p o Hp) as Hrun.
  destruct (run_callback h cb msg) as [ret h1]. cbn [snd] in Hrun.
  destruct (negb (ret =? 0)); [exact Hrun|]. now apply IH.
Qed.

Lemma on_reply_keeps h msg (p : nat) (o : outcome) :
  promises h !! p = Some (Some o) ->
  promises (on_reply h msg) !! p = Some (Some o).
Proof.
  intros Hp. unfold on_reply.
  pose proof (find_callback_keeps (_responseCallbacks h) msg p o h 0%nat Hp) as H.
  destruct (find_callback h (_responseCallbacks h) msg 0) as [[[idx ret]|] h1];
    cbn [snd] in H; [|exact H].
  destruct (1 <? ret); exact H.
Qed.

(** A promise that has settled keeps its outcome through every call. *)
Lemma step_keeps h (op0 : op) h' (p : nat) (o : outcome) :
  step apply_fn h op0 = Some h' ->
  promises h !! p = Some (Some o) -> promises h' !! p = Some (Some o).
Proof.
  destruct op0 as [t methodName args|t x|t methodName|t msg]; cbn [step].
  - intros Heq Hp. assert (h' = fst (_emit h t methodName args)) as -> by congruence.
    change (promises (fst (_emit h t methodName args))) with (promises h ++ [None]).
    rewrite lookup_app_l; [exact Hp|]. now apply lookup_lt_Some in Hp.
  - intros [= <-]. unfold _on.
    destruct (find_pair h t) as [[idx [t' existing]]|]; [auto|]. now destruct t.
  - intros [= <-]. unfold _off.
    destruct (find_pair h t) as [[idx [t' handlerMap]]|]; [|auto].
    destruct (no_methodName methodName); [auto|].
    destruct handlerMap as [f|m]; [auto|].
    now destruct (length (keys (obj_delete m (default "" methodName))) =? 0)%nat.
  - destruct (truthy msg) eqn:Ht.
    + destruct (_isRequest h msg) eqn:Hr.
      * intros H. destruct (onMessage_request_quiet apply_fn h t msg h' Ht Hr H)
          as (_ & _ & _ & Hpr & _). now rewrite Hpr.
      * unfold _onMessage. rewrite Ht, Hr. cbn [negb]. intros [= <-].
        apply on_reply_keeps.
    + unfold _onMessage. rewrite Ht. cbn [negb]. now intros [= <-].
Qed.


End FirstMatchFacts.




Section HookFacts.
Import Hub.

End HookFacts.




(** C10, as the code has it. When the registration found for a target is
    a catch-all function, [_off(target, methodName)] with a non-empty
    [methodName] leaves the hub as it was; with [methodName] omitted or
    empty it removes the registration. *)
Theorem off_method_keeps_catch_all (h : Hub.hub) (t t' : Hub.target)
  (index f : nat) (methodName : option string) :
  Hub.find_pair h t = Some (index, (t', Hub.HFunction f)) ->
  (Hub.no_methodName methodName = true <-> methodName = None \/ methodName = Some "")
  /\ (Hub.no_methodName methodName = false -> Hub._off h t methodName = h)
  /\ (Hub.no_methodName methodName = true ->
      Hub._off h t methodName =
      Hub.with_handlers h (delete index (Hub._eventHandlerMap h))).
Proof.
  intros Hfind. split; [|split].
  - destruct methodName as [s|]; simpl.
    + rewrite String.eqb_eq. split; [intros ->; now right|].
      intros [H|[= ->]]; [discriminate|reflexivity].
    + split; auto.
  - intros Hm. unfold Hub._off. rewrite Hfind, Hm. reflexivity.
  - intros Hm. unfold Hub._off. rewrite Hfind, Hm. reflexivity.
Qed.

(** A catch-all for peer 1 and [_off(peer1, "add")]. *)
Lemma off_method_keeps_catch_all_witness :
  let h := Hub._on (Hub.create "A") (Hub.Peer 1) (Hub.OnFunction 3) in
  Hub.find_pair h (Hub.Peer 1) = Some (0%nat, (Hub.Peer 1, Hub.HFunction 3))
  /\ Hub.no_methodName (Some "add") = false
  /\ Hub._off h (Hub.Peer 1) (Some "add") = h.
Proof.
  intros h. split; [reflexivity|]. split; [reflexivity|].
  destruct (off_method_keeps_catch_all h (Hub.Peer 1) (Hub.Peer 1) 0 3 (Some "add")
              eq_refl) as (_ & Hkeep & _).
  apply Hkeep. reflexivity.
Defined.

(** C10 as stated fails: [_off(peer1, "")] supplies a [methodName] and
    removes the catch-all registration. *)
Lemma off_empty_method_removes_catch_all :
  let h := Hub._on (Hub.create "A") (Hub.Peer 1) (Hub.OnFunction 3) in
  Hub._eventHandlerMap h = [(Hub.Peer 1, Hub.HFunction 3)]
  /\ Hub._eventHandlerMap (Hub._off h (Hub.Peer 1) (Some "")) = []
  /\ Hub._off h (Hub.Peer 1) (Some "") <> h.
Proof.
  repeat split. discriminate.
Qed.

(** ** Further properties of the code *)

(** *** The routing trie: registration and lookup *)

Section LookupFacts.
Import Composie.
Context {F : Type}.

Lemma keys_replace {A} (o : obj A) k v : keys (obj_replace o k v) = keys o.
Proof.
  induction o as [|[k0 v0] o IH]; simpl; [reflexivity|].
  destruct (String.eqb k0 k); simpl; [reflexivity|]. f_equal. exact IH.
Qed.

Lemma find_keys_insert_index {A} (P : string -> bool) (o : obj A) n k v :
  P k = false ->
  find P (keys (obj_insert_index o n k v)) = find P (keys o).
Proof.
  intros Hk. induction o as [|[k0 v0] o IH]; simpl; [now rewrite Hk|].
  destruct (array_index k0) as [n'|]; [destruct (n' <? n)%N|]; simpl;
    rewrite ?Hk; try reflexivity.
  destruct (P k0); [reflexivity | exact IH].
Qed.

Lemma find_keys_set {A} (P : string -> bool) (o : obj A) k v :
  P k = false -> find P (keys (obj_set o k v)) = find P (keys o).
Proof.
  intros Hk. unfold obj_set. destruct (obj_get o k).
  - now rewrite keys_replace.
  - destruct (array_index k).
    + now apply find_keys_insert_index.
    + unfold keys. rewrite map_app. simpl.
      induction (map fst o) as [|a l IH]; simpl; [now rewrite Hk|].
      now destruct (P a).
Qed.

Lemma find_keys_delete {A} (P : string -> bool) (o : obj A) k :
  P k = false -> find P (keys (obj_delete o k)) = find P (keys o).
Proof.
  intros Hk. induction o as [|[k0 v0] o IH]; simpl; [reflexivity|].
  destruct (String.eqb_spec k0 k) as [->|Hne]; simpl.
  - now rewrite Hk.
  - destruct (P k0); [reflexivity | exact IH].
Qed.

Lemma scan_keys_code (l : list string) (e o0 : string) n o :
  scan_keys l e o0 = (n, o) ->
  n = 0 \/ (n = 1 /\ o = e) \/ (n = 2 /\ Spec.prefix_of o e) \/
  (n = 3 /\ Spec.prefix_of e o).
Proof.
  revert o0. induction l as [|k l IH]; intros o0; simpl.
  - intros [= <- <-]. now left.
  - destruct (String.eqb_spec k e) as [->|Hne]; [intros [= <- <-]; auto|].
    destruct (indexOf e k =? 0) eqn:H2.
    { intros [= <- <-]. apply indexOf_zero_iff in H2. auto. }
    destruct (indexOf k e =? 0) eqn:H3.
    { intros [= <- <-]. apply indexOf_zero_iff in H3. auto 6. }
    apply IH.
Qed.

Lemma string_app_assoc (a b c : string) :
  ((a ++ b) ++ c = a ++ (b ++ c))%string.
Proof. induction a as [|x a IH]; simpl; [reflexivity|]. now rewrite IH. Qed.

Lemma occurs_in_prefix (e o ch : string) :
  Spec.prefix_of e o -> Spec.occurs_in o ch -> Spec.occurs_in e ch.
Proof.
  intros [post ->] (pre & post' & ->). exists pre, (post ++ post')%string.
  now rewrite string_app_assoc.
Qed.

(** More fuel than the height of the trie changes nothing for the loop of
    [getMiddlewares]. *)
Lemma get_loop_fuel (ch : string) (fuel fuel' : nat) :
  forall (t : option (obj (node F))) (s : list F),
    (level_opt_height t <= fuel)%nat -> (level_opt_height t <= fuel')%nat ->
    get_loop fuel ch t s = get_loop fuel' ch t s.
Proof.
  revert fuel'. induction fuel as [|fuel IH]; intros fuel' t s Hf Hf'.
  - destruct t as [lvl|]; simpl in Hf; [lia|]. now destruct fuel'.
  - destruct t as [lvl|]; [|now destruct fuel'].
    destruct fuel' as [|fuel']; [simpl in Hf'; lia|]. simpl.
    destruct (find _ (keys lvl)) as [i|]; [|reflexivity].
    destruct (obj_get lvl i) as [n|] eqn:Hn; [|reflexivity].
    pose proof (level_height_In _ _ _ (obj_get_In _ _ _ Hn)) as Hle.
    simpl in Hf, Hf'.
    apply IH; rewrite height_children; lia.
Qed.

(** What the loop collects goes after what was collected before. *)
Lemma get_loop_acc (ch : string) (fuel : nat) :
  forall (t : option (obj (node F))) (s : list F),
    get_loop fuel ch t s = (fun l => s ++ l) <$> get_loop fuel ch t [].
Proof.
  induction fuel as [|fuel IH]; intros t s.
  - destruct t as [lvl|]; simpl; [|now rewrite app_nil_r].
    destruct (find _ (keys lvl)); [|simpl; now rewrite app_nil_r].
    now destruct (obj_get lvl s0).
  - destruct t as [lvl|]; simpl; [|now rewrite app_nil_r].
    destruct (find _ (keys lvl)) as [i|]; [|simpl; now rewrite app_nil_r].
    destruct (obj_get lvl i) as [n|]; [|reflexivity].
    rewrite (IH _ (s ++ mdlws n)), (IH _ (mdlws n)).
    destruct (get_loop fuel ch (children n) []); simpl; [|reflexivity].
    now rewrite app_assoc.
Qed.

Lemma alike_refl (ch : string) (n : node F) : alike ch n n.
Proof. split; [reflexivity|]. intros acc g g' H H'. now apply get_loop_fuel. Qed.

Lemma get_loop_alike (ch : string) (s s' : obj (node F)) acc g g' :
  let P := fun k => negb (indexOf ch k =? -1) in
  find P (keys s') = find P (keys s) ->
  (forall i n, find P (keys s) = Some i -> obj_get s i = Some n ->
               exists n', obj_get s' i = Some n' /\ alike ch n n') ->
  (S (level_height s) <= g)%nat -> (S (level_height s') <= g')%nat ->
  get_loop g' ch (Some s') acc = get_loop g ch (Some s) acc.
Proof.
  intros P Hfind Hnode Hg Hg'.
  destruct g as [|g]; [lia|]; destruct g' as [|g']; [lia|].
  cbn [get_loop]. fold P. rewrite Hfind.
  destruct (find P (keys s)) as [i|] eqn:Hi; [|reflexivity].
  assert (In i (keys s)) as Hin.
  { destruct (find_first _ _ _ Hi) as (b & a & -> & _). apply in_elt. }
  destruct (obj_get_key _ _ Hin) as [n Hn]. rewrite Hn.
  destruct (Hnode i n eq_refl Hn) as (n' & Hn' & Hm & Hc). rewrite Hn', Hm.
  pose proof (level_height_In _ _ _ (obj_get_In _ _ _ Hn)).
  pose proof (level_height_In _ _ _ (obj_get_In _ _ _ Hn')).
  apply Hc; rewrite height_children; lia.
Qed.

(** A scope that does not occur in the channel: the loop of
    [addMiddleware] leaves what the loop of [getMiddlewares] collects for
    the channel as it was. *)
Lemma add_loop_frame (e ch : string) (t : F) (fuel : nat) :
  ~ Spec.occurs_in e ch ->
  forall (s s' : obj (node F)) (acc : list F) (g g' : nat),
    add_loop fuel s e t = Some s' ->
    (S (level_height s) <= g)%nat -> (S (level_height s') <= g')%nat ->
    get_loop g' ch (Some s') acc = get_loop g ch (Some s) acc.
Proof.
  intros Hocc.
  assert (He : negb (indexOf ch e =? -1) = false).
  { destruct (negb (indexOf ch e =? -1)) eqn:H; [|reflexivity].
    apply indexOf_found_iff in H. contradiction. }
  set (P := fun k => negb (indexOf ch k =? -1)).
  assert (HP : forall l i, find P l = Some i -> i <> e).
  { intros l i Hi ->. apply find_some in Hi. destruct Hi as [_ Hi].
    unfold P in Hi. congruence. }
  assert (Hpre : forall o, Spec.prefix_of e o -> P o = false).
  { intros o Hp. destruct (P o) eqn:Ho; [|reflexivity].
    exfalso. apply Hocc. eapply occurs_in_prefix; [exact Hp|].
    now apply indexOf_found_iff. }
  induction fuel as [|fuel IH]; intros s s' acc g g' Hadd Hg Hg'.
  all: cbn [add_loop] in Hadd.
  all: destruct (scan_keys (rev (keys s)) e "") as [n o] eqn:Hscan.
  all: destruct (scan_keys_code _ _ _ _ _ Hscan)
         as [-> | [[-> Heq] | [[-> Hp] | [-> Hp]]]];
       cbn [Z.eqb Pos.eqb] in Hadd.
  (* no key hits: a new leaf *)
  1,5: injection Hadd as <-;
       (apply get_loop_alike; [now apply find_keys_set | | exact Hg | exact Hg']);
       intros i ni Hi Hni; exists ni; (split; [|apply alike_refl]);
       rewrite obj_get_set;
       (destruct (String.eqb_spec e i) as [->|Hne]; [|exact Hni]);
       now apply HP in Hi.
  all: assert (exists so, obj_get s o = Some so) as [so Hso]
         by (apply obj_get_key, in_rev;
             destruct (scan_keys_hit _ _ _ _ _ Hscan) as [Hn0 | [Hin _]];
             [discriminate Hn0 | exact Hin]);
       rewrite Hso in Hadd.
  (* the scope is a key *)
  1,4: injection Hadd as <-;
       (apply get_loop_alike; [now rewrite keys_replace | | exact Hg | exact Hg']);
       intros i ni Hi Hni; exists ni; (split; [|apply alike_refl]);
       rewrite obj_get_replace;
       subst o; (destruct (String.eqb_spec e i) as [->|Hne]; [|exact Hni]);
       now apply HP in Hi.
  (* a key that starts with the scope *)
  2,4: injection Hadd as <-;
       (apply get_loop_alike; [| | exact Hg | exact Hg']);
       [ rewrite find_keys_set by exact He; apply find_keys_delete; now apply Hpre |];
       intros i ni Hi Hni; exists ni; (split; [|apply alike_refl]);
       rewrite obj_get_set, obj_get_delete;
       (destruct (String.eqb_spec e i) as [->|Hne]; [now apply HP in Hi|]);
       (destruct (String.eqb_spec o i) as [->|Hne']; [|exact Hni]);
       apply find_some in Hi; destruct Hi as [_ Hi];
       change (P i = true) in Hi; rewrite (Hpre i Hp) in Hi; discriminate.
  (* a key the scope starts with *)
  all: destruct (children so) as [c|] eqn:Hc; try discriminate Hadd.
  all: try (destruct (add_loop fuel c e t) as [c'|] eqn:Hc'; [|discriminate];
            simpl in Hadd).
  all: injection Hadd as <-.
  all: apply get_loop_alike; [now rewrite keys_replace | | exact Hg | exact Hg'].
  all: intros i ni Hi Hni; rewrite obj_get_replace, Hso;
       (destruct (String.eqb_spec o i) as [->|Hne];
        [|exists ni; split; [exact Hni | apply alike_refl]]).
  all: rewrite Hso in Hni; injection Hni as <-; eexists; split; [reflexivity|].
  all: split; [reflexivity|]; intros acc0 g0 g0' Hg0 Hg0'.
  all: cbn [children] in *; rewrite Hc in *.
  all: try (destruct g0', g0; cbn [get_loop keys map fst find];
            rewrite He; reflexivity).
  apply (IH c c'); [exact Hc' | exact Hg0 | exact Hg0'].
Qed.
End LookupFacts.
Section RegistrationFacts.
Import Composie.
Context {F : Type}.

(** The loop of [addMiddleware] creates no key but the scope. *)
Lemma add_loop_no_new_key (e k : string) (t : F) (fuel : nat)
  (s s' : obj (node F)) :
  add_loop fuel s e t = Some s' -> k <> e -> obj_get s k = None ->
  obj_get s' k = None.
Proof.
  intros Hadd Hne Hk. apply not_eq_sym, String.eqb_neq in Hne.
  destruct fuel; cbn [add_loop] in Hadd.
  all: destruct (scan_keys (rev (keys s)) e "") as [n o] eqn:Hscan.
  all: destruct (n =? 0);
       [injection Hadd as <-; now rewrite obj_get_set, Hne|].
  all: destruct (obj_get s o) as [so|] eqn:Hso; [|discriminate].
  all: assert (String.eqb o k = false) as Hok
         by (apply String.eqb_neq; congruence).
  all: destruct (n =? 1);
       [injection Hadd as <-; now rewrite obj_get_replace, Hok|].
  all: destruct (n =? 2);
       [|injection Hadd as <-; now rewrite obj_get_set, Hne, obj_get_delete, Hok].
  all: destruct (children so) as [c|];
       [|injection Hadd as <-; now rewrite obj_get_replace, Hok].
  - discriminate.
  - destruct (add_loop fuel c e t); [|discriminate]. injection Hadd as <-.
    now rewrite obj_get_replace, Hok.
Qed.

Lemma trie_ok_addMiddleware (c c' : composie F) (e : string) (t : F) :
  trie_ok c -> addMiddleware c e t = Some c' ->
  trie_ok c' /\ wildcard c' = wildcard c.
Proof.
  intros Hok. unfold addMiddleware.
  destruct (String.eqb_spec e (wildcard c)) as [->|Hne].
  - destruct (obj_get (middlewares c) (wildcard c)) as [wn|] eqn:Hw;
      intros [= <-]; (split; [|reflexivity]); intros wn'; cbn.
    + rewrite obj_get_replace, String.eqb_refl, Hw. intros [= <-]. cbn.
      now apply Hok.
    + rewrite String.eqb_refl. intros [= <-]. cbn. eauto.
  - destruct (obj_get (middlewares c) (wildcard c)) as [wn|] eqn:Hw.
    + destruct (children wn) as [ch|]; [|discriminate].
      destruct (add_loop _ ch e t) as [ch'|]; [|discriminate].
      intros [= <-]. split; [|reflexivity]. intros wn'. cbn.
      rewrite obj_get_replace, String.eqb_refl, Hw. intros [= <-]. cbn. eauto.
    + destruct (add_loop _ (middlewares c) e t) as [s'|] eqn:Hadd; [|discriminate].
      intros [= <-]. split; [|reflexivity]. intros wn'. cbn.
      rewrite (add_loop_no_new_key _ _ _ _ _ _ Hadd); [discriminate| |exact Hw].
      congruence.
Qed.
End RegistrationFacts.

(** X1. Registration never throws: starting from a new instance, every
    sequence of [addMiddleware] calls (and so of [use] calls) returns. The
    [TypeError] of [addMiddleware], writing into the [children] of a
    wildcard node that has none, needs a trie that no such sequence
    builds: the wildcard node is created with [children] and keeps
    them. *)
Theorem registration_never_throws :
  forall (F : Type) (w : string) (l : list (string * F)),
    exists c, Composie.addMiddlewares (Composie.create w) l = Some c /\
              Composie.trie_ok c.
Proof.
  intros F w l.
  assert (Composie.trie_ok (Composie.create (F := F) w)) as Hok
    by (intros wn; discriminate).
  revert Hok. generalize (Composie.create (F := F) w) as c.
  induction l as [|[e t] l IH]; intros c Hok; simpl; [eauto|].
  destruct (Composie.addMiddleware c e t) as [c'|] eqn:Hadd.
  - simpl. apply IH. eapply trie_ok_addMiddleware; eauto.
  - exfalso. apply addMiddleware_returns in Hadd.
    destruct Hadd as (_ & wn & Hw & Hc). destruct (Hok wn Hw) as [x Hx]. congruence.
Qed.

(** X2. A middleware registered without a scope runs for every channel,
    after the global ones registered before it and before every scoped
    one: [use(t)] returns, and for any channel [getMiddlewares] afterwards
    is what it was before with [t] put right after the list of the
    wildcard node. *)
Theorem use_global_precedes_scoped :
  forall (F : Type) (c : Composie.composie F) (t : F) (ch : string),
    exists c' scoped,
      Composie.use c None t = Some c' /\
      Composie.getMiddlewares c ch = Some (fst (Spec.wildcard_part c) ++ scoped) /\
      Composie.getMiddlewares c' ch =
      Some (fst (Spec.wildcard_part c) ++ t :: scoped).
Proof.
  intros F c t ch. cbn [Composie.use]. rewrite addMiddleware_wildcard.
  unfold Composie.getMiddlewares, Spec.wildcard_part.
  destruct (obj_get (Composie.middlewares c) (Composie.wildcard c)) as [wn|] eqn:Hw.
  - destruct (get_loop_descent ch _ (Composie.children wn) [] (Nat.le_refl _))
      as (path & _ & Hg). cbn [app] in Hg.
    eexists _, (concat (map Composie.mdlws path)). split; [reflexivity|].
    cbn. rewrite obj_get_replace, String.eqb_refl, Hw. cbn.
    rewrite (get_loop_acc _ _ _ (Composie.mdlws wn)),
            (get_loop_acc _ _ _ (Composie.mdlws wn ++ [t])), Hg.
    cbn. rewrite <- app_assoc. split; reflexivity.
  - destruct (get_loop_descent ch _ (Some (Composie.middlewares c)) []
                (Nat.le_refl _)) as (path & _ & Hg). cbn [app] in Hg.
    eexists _, (concat (map Composie.mdlws path)). split; [reflexivity|].
    cbn [Composie.middlewares Composie.wildcard obj_get fst].
    rewrite String.eqb_refl. cbn [Composie.children Composie.mdlws].
    rewrite (get_loop_acc _ _ _ [t]). rewrite Hg. split; reflexivity.
Qed.

(** X3. Registering a middleware under a scope changes nothing for the
    channels in which the scope does not occur: [getMiddlewares] returns
    for them what it returned before, also where the registration
    restructures the trie. *)
Theorem scoped_registration_spares_other_channels :
  forall (F : Type) (c c' : Composie.composie F) (e : string) (t : F)
         (ch : string),
    e <> Composie.wildcard c ->
    ~ Spec.occurs_in e ch ->
    Composie.addMiddleware c e t = Some c' ->
    Composie.getMiddlewares c' ch = Composie.getMiddlewares c ch.
Proof.
  intros F c c' e t ch Hne Hocc. rewrite addMiddleware_scope by exact Hne.
  unfold Composie.getMiddlewares.
  destruct (obj_get (Composie.middlewares c) (Composie.wildcard c)) as [wn|] eqn:Hw.
  - destruct (Composie.children wn) as [lvl|] eqn:Hc; [|discriminate].
    destruct (Composie.add_loop _ lvl e t) as [lvl'|] eqn:Hadd; [|discriminate].
    intros [= <-]. cbn [Composie.middlewares Composie.wildcard].
    rewrite obj_get_replace, String.eqb_refl, Hw.
    cbn [Composie.children Composie.mdlws].
    now apply (add_loop_frame e ch t _ Hocc lvl lvl' _ _ _ Hadd).
  - destruct (Composie.add_loop _ (Composie.middlewares c) e t) as [s'|] eqn:Hadd;
      [|discriminate].
    intros [= <-]. cbn [Composie.middlewares Composie.wildcard].
    rewrite (add_loop_no_new_key _ _ _ _ _ _ Hadd); [|congruence|exact Hw].
    now apply (add_loop_frame e ch t _ Hocc _ _ _ _ _ Hadd).
Qed.

Lemma scoped_registration_spares_other_channels_witness :
  exists c',
    Composie.addMiddleware (Composie.create "w") "user" 1%nat = Some c' /\
    Composie.getMiddlewares c' "order/list" =
    Composie.getMiddlewares (Composie.create "w") "order/list".
Proof.
  eexists. split; [reflexivity|].
  apply (scoped_registration_spares_other_channels nat (Composie.create "w") _
           "user" 1%nat "order/list").
  - discriminate.
  - intros H. apply indexOf_found_iff in H. discriminate H.
  - reflexivity.
Defined.

(** *** The composition engine: chains *)

Section ChainFacts.
Import Composie.
Context {E : Type}.
Implicit Types (e : list (handler E)) (s : option (handler E)) (w : world E).

(** A handler without a call of [next] does the same whatever [next] is
    and whatever the index: a result and a world. *)
Lemma call_alone (h : handler E) :
  no_next h ->
  forall w, exists res w',
    forall next a, call h next (CState a w) = Some (res, CState a w').
Proof.
  induction 1 as [v|err|f k Hk IH|k Hk IH]; intros w.
  - exists (Fulfilled v), w. reflexivity.
  - exists (Rejected err), w. reflexivity.
  - destruct (IH (f w)) as (res & w' & H). exists res, w'. intros next a. apply H.
  - destruct (IH w w) as (res & w' & H). exists res, w'. intros next a. apply H.
Qed.

Lemma at_index_app_l e e' n :
  0 <= n < Z.of_nat (length e) -> at_index (e ++ e') n = at_index e n.
Proof.
  intros Hn. unfold at_index. destruct (Z.ltb_spec n 0); [lia|].
  apply lookup_app_l. lia.
Qed.

Lemma at_index_middle e (h : handler E) e' :
  at_index (e ++ h :: e') (Z.of_nat (length e)) = Some h.
Proof.
  unfold at_index. destruct (Z.ltb_spec (Z.of_nat (length e)) 0); [lia|].
  rewrite Nat2Z.id. apply list_lookup_middle. reflexivity.
Qed.

Lemma slot_before e s n :
  0 <= n < Z.of_nat (length e) -> slot e s n = at_index e n.
Proof.
  intros Hn. unfold slot.
  destruct (Z.eqb_spec n (Z.of_nat (length e))); [lia | reflexivity].
Qed.

(** Up to a handler that does not call [next], the chain runs the same
    whatever comes after that handler. *)
Lemma r_short_circuit (pre post post' : list (handler E)) (h : handler E) s s' :
  no_next h ->
  forall (k : nat) (fuel fuel' : nat) st,
    (k <= length pre)%nat ->
    let n := Z.of_nat (length pre) - Z.of_nat k in
    Z.of_nat (length (pre ++ h :: post)) + 2 <= Z.of_nat fuel + n ->
    Z.of_nat (length (pre ++ h :: post')) + 2 <= Z.of_nat fuel' + n ->
    r fuel (pre ++ h :: post) s n st = r fuel' (pre ++ h :: post') s' n st.
Proof.
  intros Hh. induction k as [|k IH]; intros fuel fuel' st Hk n Hf Hf'; subst n.
  all: rewrite !length_app in Hf, Hf'; cbn [length] in Hf, Hf'.
  all: destruct fuel as [|fuel]; [lia|]; destruct fuel' as [|fuel']; [lia|].
  all: rewrite !r_unfold; destruct (_ <=? i st); [reflexivity|].
  all: rewrite !slot_before by (rewrite length_app; cbn [length]; lia).
  - replace (Z.of_nat (length pre) - Z.of_nat 0) with (Z.of_nat (length pre)) by lia.
    rewrite !at_index_middle.
    destruct (call_alone h Hh (wld st)) as (res & w' & H). now rewrite !H.
  - rewrite !at_index_app_l by lia.
    destruct (at_index pre _) as [h0|]; [|reflexivity].
    apply call_ext. intros st0.
    replace (Z.of_nat (length pre) - Z.of_nat (S k) + 1)
      with (Z.of_nat (length pre) - Z.of_nat k) by lia.
    apply IH; rewrite ?length_app; cbn [length]; lia.
Qed.

(** A chain of [wrap] handlers from index [length done] on: the [before]
    parts in order, what index [length fg] does, and the [after] parts in
    reverse order. *)
Lemma r_onion e s (fg : list ((world E -> world E) * (world E -> world E))) :
  (forall j p, fg !! j = Some p ->
               at_index e (Z.of_nat j) = Some (wrap (fst p) (snd p))) ->
  forall rest done w fuel,
    fg = done ++ rest ->
    Z.of_nat (length e) + 2 <= Z.of_nat fuel + Z.of_nat (length done) ->
    r fuel e s (Z.of_nat (length done)) (CState (Z.of_nat (length done) - 1) w) =
    '(res, st) ← r (S (S (length e))) e s (Z.of_nat (length fg))
                   (CState (Z.of_nat (length fg) - 1) (befores rest w));
    Some (res, CState (i st) (afters rest (wld st))).
Proof.
  intros Hfg. induction rest as [|[f g] rest IH]; intros done w fuel Heq Hfuel.
  - rewrite app_nil_r in Heq. subst done. cbn [befores afters fold_left fold_right].
    assert (length fg <= length e)%nat as Hlen.
    { destruct fg as [|p fg'] using rev_ind; [simpl; lia|].
      specialize (Hfg (length fg') p (list_lookup_middle _ _ _ _ eq_refl)).
      apply at_index_Some in Hfg. rewrite length_app. simpl. lia. }
    rewrite (r_fuel e s fuel (S (S (length e)))) by lia.
    destruct (r _ e s _ _) as [[res [i0 w0]]|]; reflexivity.
  - assert (fg !! length done = Some (f, g)) as Hat
      by (subst fg; now apply list_lookup_middle).
    pose proof (Hfg _ _ Hat) as Hslot. pose proof (at_index_Some _ _ _ Hslot) as Hlt.
    destruct fuel as [|fuel]; [lia|]. rewrite r_unfold. cbn [i wld].
    destruct (Z.leb_spec (Z.of_nat (length done)) (Z.of_nat (length done) - 1));
      [lia|].
    rewrite slot_before, Hslot by lia. cbn [fst snd wrap call i wld].
    specialize (IH (done ++ [(f, g)]) (f w) fuel).
    rewrite length_app in IH. cbn [length] in IH.
    replace (Z.of_nat (length done + 1)) with (Z.of_nat (length done) + 1) in IH by lia.
    replace (Z.of_nat (length done) + 1 - 1) with (Z.of_nat (length done)) in IH by lia.
    rewrite IH; [|rewrite <- app_assoc; exact Heq | lia]. clear IH.
    cbn [befores afters fold_left fold_right fst snd].
    destruct (r _ e s _ _) as [[res st]|]; [|reflexivity].
    cbn. destruct res; reflexivity.
Qed.

Lemma at_index_wraps (fg : list ((world E -> world E) * (world E -> world E)))
  (tail : list (handler E)) j p :
  fg !! j = Some p ->
  at_index (map (fun p => wrap (fst p) (snd p)) fg ++ tail) (Z.of_nat j)
  = Some (wrap (fst p) (snd p)).
Proof.
  intros Hj. pose proof (lookup_lt_Some _ _ _ Hj) as Hlt.
  rewrite at_index_app_l by (rewrite length_map; lia).
  unfold at_index. destruct (Z.ltb_spec (Z.of_nat j) 0); [lia|].
  rewrite Nat2Z.id, list_lookup_fmap, Hj. reflexivity.
Qed.

(** The chain [wrap ... wrap h ...] with [h] that does not call [next]. *)
Lemma compose_onion (fg : list ((world E -> world E) * (world E -> world E)))
  (h : handler E) (post : list (handler E)) s w :
  no_next h ->
  composeMiddlewares (map (fun p => wrap (fst p) (snd p)) fg ++ h :: post) s w =
  '(res, w1) ← alone h (befores fg w);
  Some (res, afters fg w1).
Proof.
  intros Hh. unfold composeMiddlewares.
  set (e := map _ fg ++ h :: post).
  pose proof (r_onion e s fg (fun j p Hj => at_index_wraps fg (h :: post) j p Hj)
                fg [] w (S (S (length e))) eq_refl) as H.
  cbn [length] in H. change (Z.of_nat 0 - 1) with (-1) in H.
  change (Z.of_nat 0) with 0 in H. rewrite H by lia. clear H.
  assert (length e = length fg + S (length post))%nat as Hlen
    by (unfold e; rewrite length_app, length_map; reflexivity).
  rewrite r_unfold. cbn [i wld].
  destruct (Z.leb_spec (Z.of_nat (length fg)) (Z.of_nat (length fg) - 1)); [lia|].
  rewrite slot_before by lia.
  replace (at_index e (Z.of_nat (length fg))) with (Some h).
  2:{ unfold e. rewrite <- (length_map (fun p => wrap (fst p) (snd p)) fg) at 1.
      now rewrite at_index_middle. }
  unfold alone.
  destruct (call_alone h Hh (befores fg w)) as (res & w' & Hc). rewrite !Hc.
  reflexivity.
Qed.
End ChainFacts.

(** X4. A handler that does not call [next] ends the chain: the handlers
    after it are never run, so that the composed function does the same
    whatever they are and whatever the terminal handler is, for any
    handlers before it. When it is the first handler, the composed
    function is what that handler does by itself. *)
Theorem handler_without_next_short_circuits :
  forall (E : Type) (pre post post' : list (Composie.handler E))
         (h : Composie.handler E) (s s' : option (Composie.handler E))
         (w : Composie.world E),
    Composie.no_next h ->
    Composie.composeMiddlewares (pre ++ h :: post) s w =
    Composie.composeMiddlewares (pre ++ h :: post') s' w
    /\ Composie.composeMiddlewares (h :: post) s w = Composie.alone h w.
Proof.
  intros E pre post post' h s s' w Hh. split.
  - unfold Composie.composeMiddlewares.
    pose proof (r_short_circuit pre post post' h s s' Hh (length pre)
                  (S (S (length (pre ++ h :: post))))
                  (S (S (length (pre ++ h :: post'))))
                  (Composie.CState (-1) w) (Nat.le_refl _)) as H.
    cbn zeta in H. rewrite Z.sub_diag in H. rewrite H by lia. reflexivity.
  - pose proof (compose_onion [] h post s w Hh) as H.
    cbn [map app Composie.befores Composie.afters fold_left fold_right] in H.
    rewrite H. now destruct (Composie.alone h w) as [[res w1]|].
Qed.

Lemma handler_without_next_short_circuits_witness :
  let log (n : Z) : Composie.handler (list Z) :=
    Composie.Update (fun w => Composie.World (Composie.ctx w) (n :: Composie.ext w))
      (Composie.Return VUndefined) in
  let w := Composie.World (Composie.createContext "ch" VNull) [] in
  Composie.composeMiddlewares ([Composie.forward] ++ log 2 :: [log 3]) None w =
  Composie.composeMiddlewares ([Composie.forward] ++ log 2 :: []) (Some (log 4)) w
  /\ Composie.composeMiddlewares (log 2 :: [log 3]) None w =
     Composie.alone (log 2) w.
Proof.
  intros log w.
  apply (handler_without_next_short_circuits (list Z) [Composie.forward]
           [log 3] [] (log 2) None (Some (log 4)) w).
  repeat constructor.
Defined.



(** X8. A chain that runs off its end resolves with [undefined]: when
    every handler calls [next] and there is no terminal handler, the last
    [next()] finds no handler and resolves, and the chain resolves with
    [undefined] after all the parts of the handlers have run, the parts
    after [next()] in reverse order. So does the empty chain. *)
Theorem chain_without_terminal_resolves_undefined (E : Type)
  (fg : list ((Composie.world E -> Composie.world E) *
              (Composie.world E -> Composie.world E)))
  (w : Composie.world E) :
  Composie.composeMiddlewares (map (fun p => Composie.wrap (fst p) (snd p)) fg)
    None w =
  Some (Fulfilled VUndefined, Composie.afters fg (Composie.befores fg w)).
Proof.
  unfold Composie.composeMiddlewares.
  set (layers := map _ fg).
  assert (forall j p, fg !! j = Some p ->
            Composie.at_index layers (Z.of_nat j) =
            Some (Composie.wrap (fst p) (snd p))) as Hat.
  { intros j p Hj. pose proof (at_index_wraps fg [] j p Hj) as H.
    now rewrite app_nil_r in H. }
  pose proof (r_onion layers None fg Hat fg [] w (S (S (length layers))) eq_refl)
    as H.
  cbn [length] in H. change (Z.of_nat 0 - 1) with (-1) in H.
  change (Z.of_nat 0) with 0 in H. rewrite H by lia. clear H.
  rewrite r_unfold. cbn [Composie.i Composie.wld].
  destruct (Z.leb_spec (Z.of_nat (length fg)) (Z.of_nat (length fg) - 1)); [lia|].
  unfold Composie.slot, layers. rewrite length_map, Z.eqb_refl. reflexivity.
Qed.

Section RouteFacts.
Import Composie.
Context {F : Type}.

Lemma route_result (c : composie F) (ch : string) (hs : list F) :
  route c ch hs =
  if (0 <? length hs)%nat then
    match obj_get (routers c) ch with
    | Some l =>
        Some (Composie (wildcard c) (middlewares c)
                (obj_set (routers c) ch (l ++ hs)))
    | None =>
        if inherited ch then None
        else Some (Composie (wildcard c) (middlewares c)
                     (obj_set (routers c) ch hs))
    end
  else Some c.
Proof.
  unfold route, route_map. cbn [keys map fst route_keys obj_get].
  rewrite String.eqb_refl. destruct (0 <? length hs)%nat.
  - destruct (obj_get (routers c) ch); [reflexivity|].
    now destruct (inherited ch).
  - now destruct c.
Qed.
End RouteFacts.

(** X6. [route(channel, ...handlers)] adds to the route table and to
    nothing else. For a channel that is no inherited property name the
    call returns; the handlers go after the ones already routed for the
    channel, in the order given; the table of every other channel and the
    middlewares of every channel are as before; and a call without
    handlers registers nothing. For an inherited name that has no route
    yet, a call with handlers throws. *)
Theorem route_appends_to_the_channel :
  forall (F : Type) (c : Composie.composie F) (ch : string) (hs : list F),
    Composie.inherited ch = false ->
    exists c',
      Composie.route c ch hs = Some c'
      /\ (forall ch',
            obj_get (Composie.routers c') ch' =
            if String.eqb ch ch' && (0 <? length hs)%nat
            then Some (default [] (obj_get (Composie.routers c) ch) ++ hs)
            else obj_get (Composie.routers c) ch')
      /\ (forall ch', Composie.getMiddlewares c' ch' = Composie.getMiddlewares c ch')
      /\ (hs = [] -> c' = c)
      /\ (forall name,
            Composie.inherited name = true ->
            obj_get (Composie.routers c) name = None ->
            hs <> [] ->
            Composie.route c name hs = None).
Proof.
  intros F c ch hs Hinh.
  assert (forall name, Composie.inherited name = true ->
                       obj_get (Composie.routers c) name = None -> hs <> [] ->
                       Composie.route c name hs = None) as Hthrow.
  { intros name Hname Hnone Hhs. rewrite route_result, Hnone, Hname.
    destruct hs; [contradiction|reflexivity]. }
  rewrite route_result, Hinh. destruct hs as [|h hs].
  - exists c. cbn [length Nat.ltb Nat.leb]. split; [reflexivity|].
    split; [intros ch'; now rewrite andb_false_r|]. repeat split; auto.
  - change (0 <? length (h :: hs))%nat with true. cbv iota.
    destruct (obj_get (Composie.routers c) ch) as [l|] eqn:Hl;
      (eexists; split; [reflexivity|]);
      cbn [Composie.routers default from_option id app];
      (split; [intros ch'; rewrite obj_get_set, andb_true_r;
               now destruct (String.eqb ch ch')|]);
      (split; [reflexivity|]); (split; [discriminate | exact Hthrow]).
Qed.

Lemma route_appends_to_the_channel_witness :
  let c := Composie.Composie "w" [] [("add", [1%nat])] in
  exists c',
    Composie.route c "add" [2%nat; 3%nat] = Some c'
    /\ obj_get (Composie.routers c') "add" = Some [1%nat; 2%nat; 3%nat]
    /\ Composie.route c "toString" [4%nat] = None.
Proof.
  intros c.
  destruct (route_appends_to_the_channel nat c "add" [2%nat; 3%nat] eq_refl)
    as (c' & Hroute & Hget & _ & _ & _).
  destruct (route_appends_to_the_channel nat c "add" [4%nat] eq_refl)
    as (_ & _ & _ & _ & _ & Hthrow).
  exists c'. split; [exact Hroute|]. split; [apply Hget|].
  apply Hthrow; [reflexivity | reflexivity | discriminate].
Defined.

(** X7. [run] on a channel whose middlewares are such layers and whose one
    routed handler does not call [next]: the layers run around the routed
    handler, and the promise of [run] resolves with [context.response] as
    the handlers leave it (what the routed handler returns is dropped), or
    rejects with what the routed handler threw. *)
Theorem run_resolves_with_the_response :
  forall (E : Type) (c : Composie.composie (Composie.handler E))
         (ch : string) (req : value) (x : E)
         (fg : list ((Composie.world E -> Composie.world E) *
                     (Composie.world E -> Composie.world E)))
         (h : Composie.handler E),
    Composie.getMiddlewares c ch =
      Some (map (fun p => Composie.wrap (fst p) (snd p)) fg) ->
    obj_get (Composie.routers c) ch = None ->
    Composie.inherited ch = false ->
    Composie.no_next h ->
    exists c',
      Composie.route c ch [h] = Some c'
      /\ Composie.run c' ch req x =
         '(res, w1) ← Composie.alone h
                        (Composie.befores fg
                           (Composie.World (Composie.createContext ch req) x));
         let w' := Composie.afters fg w1 in
         Some (match res with
               | Fulfilled _ => Fulfilled (Composie.response (Composie.ctx w'))
               | Rejected err => Rejected err
               end, w').
Proof.
  intros E c ch req x fg h Hmw Hroute Hinh Hh.
  rewrite route_result, Hroute, Hinh. change (0 <? length [h])%nat with true.
  cbv iota. eexists. split; [reflexivity|].
  unfold Composie.run.
  cbn [Composie.createContext Composie.channel Composie.routers].
  change (Composie.getMiddlewares
            (Composie.Composie (Composie.wildcard c) (Composie.middlewares c)
               (obj_set (Composie.routers c) ch [h])) ch)
    with (Composie.getMiddlewares c ch).
  rewrite Hmw, obj_get_set, String.eqb_refl. cbn [mbind option_bind].
  change (default [] (Some [h])) with [h].
  destruct (Nat.ltb_spec 0
              (length (map (fun p => Composie.wrap (fst p) (snd p)) fg ++ [h])))
    as [_|Hlt]; [|rewrite length_app in Hlt; cbn [length] in Hlt; lia].
  rewrite (compose_onion fg h [] None _ Hh).
  destruct (Composie.alone h _) as [[res w1]|]; [|reflexivity].
  cbn [mbind option_bind]. destruct res; reflexivity.
Qed.

Lemma run_resolves_with_the_response_witness :
  let log (n : Z) (w : Composie.world (list Z)) :=
    Composie.World (Composie.ctx w) (Composie.ext w ++ [n]) in
  let c :=
    Composie.Composie "w"
      [("w", Composie.Node [Composie.wrap (log 1) (log 3)] (Some []))] [] in
  exists c',
    Composie.route c "add" [Composie.respond_with (VNum 3)] = Some c'
    /\ Composie.run c' "add" (VArr [VNum 1; VNum 2]) [] =
       Some (Fulfilled (VNum 3),
             Composie.World
               (Composie.MkContext "add" (VArr [VNum 1; VNum 2]) (VNum 3)) [1; 3]).
Proof.
  intros log c.
  destruct (run_resolves_with_the_response (list Z) c "add" (VArr [VNum 1; VNum 2]) []
              [(log 1, log 3)] (Composie.respond_with (VNum 3)))
    as (c' & Hroute & Hrun).
  - reflexivity.
  - reflexivity.
  - reflexivity.
  - repeat constructor.
  - exists c'. split; [exact Hroute|]. exact Hrun.
Defined.

(** *** AbstractHub: registrations *)

Section FindFacts.
Context {A : Type} (P : A -> Prop) `{!forall x, Decision (P x)}.

Lemma find_insert_same (l : list A) (idx : nat) (x y : A) :
  list_find P l = Some (idx, x) -> P y ->
  list_find P (<[idx := y]> l) = Some (idx, y).
Proof.
  intros Hfind Hy. apply list_find_Some in Hfind as (Hl & Hx & Hbefore).
  apply list_find_Some. split; [|split; [exact Hy|]].
  - apply list_lookup_insert_eq. now apply lookup_lt_Some in Hl.
  - intros j z Hj Hlt. rewrite list_lookup_insert_ne in Hj by lia. eauto.
Qed.

Lemma find_insert_other (l : list A) (idx : nat) (x y : A) :
  l !! idx = Some x -> ~ P x -> ~ P y ->
  snd <$> list_find P (<[idx := y]> l) = snd <$> list_find P l.
Proof.
  revert idx. induction l as [|a l IH]; intros idx; [discriminate|].
  destruct idx as [|idx]; simpl.
  - intros [= ->] Hx Hy. simpl.
    rewrite !decide_False by assumption.
    reflexivity.
  - intros Hl Hx Hy. simpl.
    destruct (decide (P a)); [reflexivity|].
    specialize (IH idx Hl Hx Hy).
    destruct (list_find P (<[idx:=y]> l)) as [[? ?]|],
             (list_find P l) as [[? ?]|]; cbn in *; congruence.
Qed.

Lemma find_delete_other (l : list A) (idx : nat) (x : A) :
  l !! idx = Some x -> ~ P x ->
  snd <$> list_find P (delete idx l) = snd <$> list_find P l.
Proof.
  revert idx. induction l as [|a l IH]; intros idx; [discriminate|].
  destruct idx as [|idx]; simpl.
  - intros [= ->] Hx. simpl.
    rewrite decide_False by assumption.
    now destruct (list_find P l) as [[? ?]|].
  - intros Hl Hx. simpl.
    destruct (decide (P a)); [reflexivity|].
    specialize (IH idx Hl Hx).
    destruct (list_find P (delete idx l)) as [[? ?]|],
             (list_find P l) as [[? ?]|]; cbn in *; congruence.
Qed.

Lemma find_app_new (l : list A) (y : A) :
  list_find P l = None -> P y -> list_find P (l ++ [y]) = Some (length l, y).
Proof.
  intros Hnone Hy. apply list_find_None in Hnone.
  apply list_find_Some. split; [|split; [exact Hy|]].
  - now apply list_lookup_middle.
  - intros j z Hj Hlt. rewrite lookup_app_l in Hj by lia.
    rewrite Forall_forall in Hnone. apply Hnone.
    eapply list_elem_of_lookup_2, Hj.
Qed.

Lemma find_app_other (l : list A) (y : A) :
  ~ P y -> snd <$> list_find P (l ++ [y]) = snd <$> list_find P l.
Proof.
  intros Hy. induction l as [|a l IH]; simpl.
  - now rewrite decide_False.
  - destruct (decide (P a)); [reflexivity|].
    destruct (list_find P (l ++ [y])) as [[? ?]|],
             (list_find P l) as [[? ?]|]; cbn in *; congruence.
Qed.

Lemma find_cons_other (l : list A) (y : A) :
  ~ P y -> snd <$> list_find P (y :: l) = snd <$> list_find P l.
Proof.
  intros Hy. simpl. rewrite decide_False by assumption.
  now destruct (list_find P l) as [[? ?]|].
Qed.
End FindFacts.

Section RegistrationsFacts.
Import Hub.
Implicit Types (h : hub) (t : target).

Lemma find_pair_target h t idx t' reg :
  find_pair h t = Some (idx, (t', reg)) ->
  t' = t /\ _eventHandlerMap h !! idx = Some (t, reg).
Proof.
  intros H. apply list_find_Some in H as (Hl & Heq & _).
  cbn in Heq. subst t'. auto.
Qed.

Lemma on_find_same h t (a : on_arg) :
  exists idx, find_pair (_on h t a) t = Some (idx, (t, stored h t a)).
Proof.
  unfold _on, stored.
  destruct (find_pair h t) as [[idx [t' ex]]|] eqn:Hfind.
  - destruct (find_pair_target _ _ _ _ _ Hfind) as [-> Hl].
    exists idx. unfold find_pair in *. cbn [_eventHandlerMap with_handlers].
    erewrite find_insert_same; [|exact Hfind|reflexivity].
    destruct ex, a; reflexivity.
  - destruct t as [|p]; unfold find_pair in *; cbn [_eventHandlerMap with_handlers].
    + exists 0%nat. cbn [list_find]. rewrite decide_True by reflexivity.
      destruct a; reflexivity.
    + exists (length (_eventHandlerMap h)).
      erewrite find_app_new; [|exact Hfind|reflexivity].
      destruct a; reflexivity.
Qed.

Lemma on_find_other h t (a : on_arg) t2 :
  t2 <> t ->
  snd <$> find_pair (_on h t a) t2 = snd <$> find_pair h t2.
Proof.
  intros Hne. unfold _on.
  destruct (find_pair h t) as [[idx [t' ex]]|] eqn:Hfind.
  - destruct (find_pair_target _ _ _ _ _ Hfind) as [-> Hl].
    unfold find_pair. cbn [_eventHandlerMap with_handlers].
    eapply find_insert_other; [exact Hl| |]; cbn; congruence.
  - destruct t as [|p]; unfold find_pair; cbn [_eventHandlerMap with_handlers].
    + apply find_cons_other. cbn. congruence.
    + apply find_app_other. cbn. congruence.
Qed.

Lemma NoDup_insert_same_fst {B C : Type} (l : list (B * C)) idx b c c' :
  l !! idx = Some (b, c) ->
  map fst (<[idx := (b, c')]> l) = map fst l.
Proof.
  revert idx. induction l as [|x l IH]; intros idx; [discriminate|].
  destruct idx as [|idx]; cbn.
  - now intros [= ->].
  - intros H. f_equal. now apply IH.
Qed.

Lemma NoDup_delete {B : Type} (l : list B) idx :
  NoDup l -> NoDup (delete idx l).
Proof.
  intros H. exact (sublist_NoDup _ _ H (sublist_delete l idx)).
Qed.

Lemma map_delete {B C : Type} (f : B -> C) (l : list B) idx :
  map f (delete idx l) = delete idx (map f l).
Proof.
  revert idx. induction l as [|x l IH]; intros [|idx]; cbn; try reflexivity.
  f_equal. apply IH.
Qed.

Lemma registrations_ok_create (id : string) : registrations_ok (create id).
Proof. split; [constructor|]. intros idx reg H. discriminate. Qed.

Lemma registrations_ok_on h t (a : on_arg) :
  registrations_ok h -> registrations_ok (_on h t a).
Proof.
  intros [Hnd Hstar]. unfold _on.
  destruct (find_pair h t) as [[idx [t' ex]]|] eqn:Hfind.
  - destruct (find_pair_target _ _ _ _ _ Hfind) as [-> Hl].
    split; cbn [_eventHandlerMap with_handlers].
    + now rewrite (NoDup_insert_same_fst _ _ _ _ _ Hl).
    + intros j reg Hj. destruct (decide (j = idx)) as [->|Hne].
      * rewrite list_lookup_insert_eq in Hj by (now apply lookup_lt_Some in Hl).
        injection Hj as -> _. eapply Hstar, Hl.
      * rewrite list_lookup_insert_ne in Hj by congruence. eapply Hstar, Hj.
  - apply list_find_None in Hfind. rewrite Forall_forall in Hfind.
    assert (t ∉ map fst (_eventHandlerMap h)) as Hnot.
    { intros Hin. apply list_elem_of_In, in_map_iff in Hin as (x & Hx & Hin).
      apply (Hfind x); [now apply list_elem_of_In | exact Hx]. }
    destruct t as [|p]; split; cbn [_eventHandlerMap with_handlers map fst].
    + now apply NoDup_cons_2.
    + intros [|j] reg Hj; [reflexivity|]. cbn in Hj. exfalso. apply Hnot.
      apply list_elem_of_In, in_map_iff. exists (Star, reg). split; [reflexivity|].
      eapply list_elem_of_In, list_elem_of_lookup_2, Hj.
    + rewrite map_app. cbn [map fst]. apply NoDup_app. repeat split; auto.
      * intros x Hx Hin. apply list_elem_of_singleton in Hin. congruence.
      * apply NoDup_singleton.
    + intros j reg Hj. apply lookup_app_Some in Hj as [Hj|[_ Hj]]; [eapply Hstar, Hj|].
      destruct (j - length (_eventHandlerMap h))%nat; cbn in Hj; discriminate.
Qed.

Lemma registrations_ok_delete h idx x :
  registrations_ok h -> _eventHandlerMap h !! idx = Some x ->
  registrations_ok (with_handlers h (delete idx (_eventHandlerMap h))).
Proof.
  intros [Hnd Hstar] Hl. split; cbn [_eventHandlerMap with_handlers].
  - rewrite map_delete. now apply NoDup_delete.
  - intros j reg Hj. destruct (decide (j < idx)%nat) as [Hlt|Hge].
    + rewrite list_lookup_delete_lt in Hj by exact Hlt. eapply Hstar, Hj.
    + rewrite list_lookup_delete_ge in Hj by lia. apply Hstar in Hj. discriminate.
Qed.

Lemma registrations_ok_off h t (methodName : option string) :
  registrations_ok h -> registrations_ok (_off h t methodName).
Proof.
  intros Hok. unfold _off.
  destruct (find_pair h t) as [[idx [t' ex]]|] eqn:Hfind; [|exact Hok].
  destruct (find_pair_target _ _ _ _ _ Hfind) as [-> Hl].
  destruct (no_methodName methodName); [eapply registrations_ok_delete; eauto|].
  destruct ex as [f|m]; [exact Hok|].
  destruct (length (keys _) =? 0)%nat; [eapply registrations_ok_delete; eauto|].
  destruct Hok as [Hnd Hstar]. split; cbn [_eventHandlerMap with_handlers].
  - now rewrite (NoDup_insert_same_fst _ _ _ _ _ Hl).
  - intros j reg Hj. destruct (decide (j = idx)) as [->|Hne].
    + rewrite list_lookup_insert_eq in Hj by (now apply lookup_lt_Some in Hl).
      injection Hj as -> _. eapply Hstar, Hl.
    + rewrite list_lookup_insert_ne in Hj by congruence. eapply Hstar, Hj.
Qed.
End RegistrationsFacts.
Section HandlersFacts.
Import Hub.
Variable apply_fn : fn -> list value -> list value * outcome.
Implicit Types (h : hub) (t : target) (msg : value).

Lemma progress_messages_handlers h t reqMsg (reports : list value) :
  let h' := fold_left (fun hh data =>
                         sendMessage hh t (_buildProgressMessage hh data reqMsg))
              reports h in
  _eventHandlerMap h' = _eventHandlerMap h /\ instanceID h' = instanceID h.
Proof.
  revert h. induction reports as [|d reports IH]; intros h; [split; reflexivity|].
  cbn [fold_left]. destruct (IH (sendMessage h t (_buildProgressMessage h d reqMsg)))
    as [H1 H2]. split; [rewrite H1|rewrite H2]; reflexivity.
Qed.

Lemma runMsgCallback_handlers h t reqMsg methodName args sink :
  _eventHandlerMap (fst (_runMsgCallback apply_fn h t reqMsg methodName args sink))
  = _eventHandlerMap h.
Proof.
  unfold _runMsgCallback.
  destruct (resolve_method h t methodName args) as [[method|] args']; [|reflexivity].
  destruct (apply_fn method args') as [reports res].
  destruct sink, res; cbn [fst]; try reflexivity;
    apply progress_messages_handlers.
Qed.

Lemma onMessage_handlers h t msg h' :
  _onMessage apply_fn h t msg = Some h' ->
  _eventHandlerMap h' = _eventHandlerMap h.
Proof.
  unfold _onMessage. destruct (negb (truthy msg)); [now intros [= <-]|].
  destruct (negb (_isRequest h msg)).
  { intros [= <-]. apply on_reply_ids. }
  destruct (field msg "methodName"); try discriminate.
  destruct (field msg "args"); try discriminate.
  destruct (attach_progress msg a) as [[args' sink]|]; [|now intros [= <-]].
  pose proof (runMsgCallback_handlers h t msg s args' sink) as H.
  destruct (_runMsgCallback apply_fn h t msg s args' sink) as [h1 response].
  intros [= <-]. exact H.
Qed.

Lemma registrations_ok_handlers h h' :
  _eventHandlerMap h' = _eventHandlerMap h ->
  registrations_ok h -> registrations_ok h'.
Proof. unfold registrations_ok. now intros ->. Qed.

Lemma registrations_ok_step h (o : op) h' :
  step apply_fn h o = Some h' -> registrations_ok h -> registrations_ok h'.
Proof.
  destruct o as [t methodName args|t a|t methodName|t msg]; cbn [step].
  - intros [= <-]. now apply registrations_ok_handlers.
  - intros [= <-]. apply registrations_ok_on.
  - intros [= <-]. apply registrations_ok_off.
  - intros H. apply registrations_ok_handlers. eapply onMessage_handlers, H.
Qed.

Lemma registrations_ok_steps (ops : list op) :
  forall h h', steps apply_fn h ops = Some h' ->
               registrations_ok h -> registrations_ok h'.
Proof.
  induction ops as [|o ops IH]; intros h h'; cbn [steps].
  - now intros [= <-].
  - destruct (step apply_fn h o) as [h1|] eqn:Hstep; [|discriminate].
    cbn. intros Hsteps Hok. eapply IH; [exact Hsteps|].
    eapply registrations_ok_step; eauto.
Qed.

Lemma registrations_ok_find h idx t reg :
  registrations_ok h ->
  _eventHandlerMap h !! idx = Some (t, reg) ->
  find_pair h t = Some (idx, (t, reg)).
Proof.
  intros [Hnd _] Hl. apply list_find_Some. split; [exact Hl|]. split; [reflexivity|].
  intros j [t2 reg2] Hj Hlt Heq. cbn in Heq. subst t2.
  assert (map fst (_eventHandlerMap h) !! idx = Some t) as H1.
  { change (map fst (_eventHandlerMap h)) with (fst <$> _eventHandlerMap h).
    now rewrite list_lookup_fmap, Hl. }
  assert (map fst (_eventHandlerMap h) !! j = Some t) as H2.
  { change (map fst (_eventHandlerMap h)) with (fst <$> _eventHandlerMap h).
    now rewrite list_lookup_fmap, Hj. }
  pose proof (NoDup_lookup _ _ _ _ Hnd H1 H2). lia.
Qed.

(** With one entry for a target, the entry at an index is the one [find]
    returns. *)
Lemma unique_find h idx t reg :
  NoDup (map fst (_eventHandlerMap h)) ->
  _eventHandlerMap h !! idx = Some (t, reg) ->
  find_pair h t = Some (idx, (t, reg)).
Proof.
  intros Hnd Hl. apply list_find_Some. split; [exact Hl|]. split; [reflexivity|].
  intros j [t2 reg2] Hj Hlt Heq. cbn in Heq. subst t2.
  assert (map fst (_eventHandlerMap h) !! idx = Some t) as H1.
  { change (map fst (_eventHandlerMap h)) with (fst <$> _eventHandlerMap h).
    now rewrite list_lookup_fmap, Hl. }
  assert (map fst (_eventHandlerMap h) !! j = Some t) as H2.
  { change (map fst (_eventHandlerMap h)) with (fst <$> _eventHandlerMap h).
    now rewrite list_lookup_fmap, Hj. }
  pose proof (NoDup_lookup _ _ _ _ Hnd H1 H2). lia.
Qed.

(** Once the entry found for a target is spliced out, [find] has none for
    it. *)
Lemma splice_find_same h t idx reg :
  NoDup (map fst (_eventHandlerMap h)) ->
  find_pair h t = Some (idx, reg) ->
  find_pair (with_handlers h (delete idx (_eventHandlerMap h))) t = None.
Proof.
  intros Hnd Hfind. destruct reg as [t' ex].
  destruct (find_pair_target _ _ _ _ _ Hfind) as [-> Hl].
  unfold find_pair. cbn [_eventHandlerMap with_handlers].
  apply list_find_None. apply Forall_forall. intros [t2 reg2] Hin Heq.
  cbn in Heq. subst t2. apply list_elem_of_lookup_1 in Hin as [j Hj].
  destruct (decide (j < idx)%nat) as [Hlt|Hge].
  - rewrite list_lookup_delete_lt in Hj by exact Hlt.
    pose proof (unique_find _ _ _ _ Hnd Hj) as Hf.
    unfold find_pair in *. rewrite Hfind in Hf. injection Hf as ->. lia.
  - rewrite list_lookup_delete_ge in Hj by lia.
    pose proof (unique_find _ _ _ _ Hnd Hj) as Hf.
    unfold find_pair in *. rewrite Hfind in Hf. injection Hf as Hf. lia.
Qed.
End HandlersFacts.

(** X9. A hub keeps one registration for a target, and the wildcard's
    first: whatever calls of [_on], [_off], [_emit] and [_onMessage] a hub
    has gone through since its construction, no two entries of
    [_eventHandlerMap] have the same target, an entry for ['*'] is at index
    0, and every entry is the one [find] returns for its target. *)
Theorem registrations_stay_unique
  (apply_fn : fn -> list value -> list value * outcome)
  (id : string) (ops : list Hub.op) (h : Hub.hub) :
  Hub.steps apply_fn (Hub.create id) ops = Some h ->
  NoDup (map fst (Hub._eventHandlerMap h))
  /\ (forall idx reg,
        Hub._eventHandlerMap h !! idx = Some (Hub.Star, reg) -> idx = 0%nat)
  /\ (forall idx t reg,
        Hub._eventHandlerMap h !! idx = Some (t, reg) ->
        Hub.find_pair h t = Some (idx, (t, reg))).
Proof.
  intros Hsteps.
  pose proof (registrations_ok_steps apply_fn ops _ _ Hsteps
                (registrations_ok_create id)) as Hok.
  destruct Hok as [Hnd Hstar]. split; [exact Hnd|]. split; [exact Hstar|].
  intros idx t reg. apply registrations_ok_find. now split.
Qed.

Lemma registrations_stay_unique_witness :
  let apply_fn := fun (_ : fn) (_ : list value) => ([] : list value, Fulfilled VUndefined) in
  let ops := [Hub.On (Hub.Peer 1) (Hub.OnMethod "add" 1);
              Hub.On (Hub.Peer 2) (Hub.OnFunction 2);
              Hub.On Hub.Star (Hub.OnMethod "ping" 3);
              Hub.On (Hub.Peer 1) (Hub.OnMethod "sub" 4);
              Hub.Off (Hub.Peer 2) None] in
  exists h,
    Hub.steps apply_fn (Hub.create "A") ops = Some h
    /\ Hub._eventHandlerMap h =
       [(Hub.Star, Hub.HMap [("ping", 3%nat)]);
        (Hub.Peer 1, Hub.HMap [("add", 1%nat); ("sub", 4%nat)])]
    /\ NoDup (map fst (Hub._eventHandlerMap h)).
Proof.
  intros apply_fn ops. eexists. split; [reflexivity|]. split; [reflexivity|].
  apply (registrations_stay_unique apply_fn "A" ops). reflexivity.
Defined.

(** X10. A handler registered is the handler a request resolves to. After
    [_on(target, methodName, f)] a request of the target for [methodName]
    resolves to [f], with the arguments as sent, whatever was registered
    for the target before; after [_on(target, g)] every request of the
    target resolves to [g], with the method name put before the
    arguments. The hub then has listeners, and what is registered for the
    other targets is as before. *)
Theorem on_then_request_resolves :
  forall (h : Hub.hub) (t : Hub.target) (name : string) (f g : nat)
         (args : list value) (a : Hub.on_arg),
    Hub.resolve_method (Hub._on h t (Hub.OnMethod name f)) t name args =
      (Some (UserFn f), args)
    /\ Hub.resolve_method (Hub._on h t (Hub.OnFunction g)) t name args =
         (Some (UserFn g), VStr name :: args)
    /\ Hub._hasListeners (Hub._on h t a) = true
    /\ (forall t2, t2 <> t ->
          snd <$> Hub.find_pair (Hub._on h t a) t2 = snd <$> Hub.find_pair h t2).
Proof.
  intros h t name f g args a. repeat split.
  - unfold Hub.resolve_method, Hub.matchedMap.
    destruct (on_find_same h t (Hub.OnMethod name f)) as [idx ->].
    unfold Hub.stored. unfold Hub.method_of_map.
    destruct (Hub.find_pair h t) as [[? [? [?|em]]]|].
    + cbn [obj_get]. now rewrite String.eqb_refl.
    + rewrite obj_get_assign. cbn [obj_get]. now rewrite String.eqb_refl.
    + cbn [obj_get]. now rewrite String.eqb_refl.
  - unfold Hub.resolve_method, Hub.matchedMap.
    destruct (on_find_same h t (Hub.OnFunction g)) as [idx ->].
    unfold Hub.stored. now destruct (Hub.find_pair h t) as [[? [? [?|em]]]|].
  - destruct (on_find_same h t a) as [idx Hfind].
    apply list_find_Some in Hfind as (Hl & _).
    pose proof (lookup_lt_Some _ _ _ Hl) as Hlt.
    unfold Hub._hasListeners. apply Nat.ltb_lt. lia.
  - intros t2 Hne. now apply on_find_other.
Qed.

Lemma on_then_request_resolves_witness :
  let h := Hub._on (Hub.create "B") (Hub.Peer 1) (Hub.OnFunction 9) in
  Hub.resolve_method (Hub._on h (Hub.Peer 1) (Hub.OnMethod "add" 1)) (Hub.Peer 1)
    "add" [VNum 1] = (Some (UserFn 1), [VNum 1])
  /\ snd <$> Hub.find_pair (Hub._on h (Hub.Peer 2) (Hub.OnFunction 3)) (Hub.Peer 1) =
     Some (Hub.Peer 1, Hub.HFunction 9).
Proof.
  intros h. split.
  - apply (on_then_request_resolves h (Hub.Peer 1) "add" 1 0 [VNum 1]
             (Hub.OnFunction 3)).
  - destruct (on_then_request_resolves h (Hub.Peer 2) "add" 1 0 [VNum 1]
                (Hub.OnFunction 3)) as (_ & _ & _ & Hother).
    rewrite (Hother (Hub.Peer 1)); [reflexivity | discriminate].
Defined.

(** X11. [_on] with a method map on a target that has a method map merges
    the two into a new map: the registration keeps its place, a method of
    the new map replaces the one of that name, and the other methods stay.
    Neither map has an own property "__proto__", for which
    [Object.assign] would run the setter of the target instead of adding a
    property. *)
Theorem on_merges_method_maps :
  forall (h : Hub.hub) (t t' : Hub.target) (idx : nat) (em nm : obj nat),
    Hub.find_pair h t = Some (idx, (t', Hub.HMap em)) ->
    obj_get em "__proto__" = None ->
    obj_get nm "__proto__" = None ->
    exists merged,
      Hub.find_pair (Hub._on h t (Hub.OnMap nm)) t = Some (idx, (t, Hub.HMap merged))
      /\ (forall k, obj_get merged k =
                    match obj_get nm k with
                    | Some f => Some f
                    | None => obj_get em k
                    end)
      /\ obj_get merged "__proto__" = None
      /\ length (Hub._eventHandlerMap (Hub._on h t (Hub.OnMap nm))) =
         length (Hub._eventHandlerMap h).
Proof.
  intros h t t' idx em nm Hfind Hem Hnm.
  destruct (find_pair_target _ _ _ _ _ Hfind) as [-> Hl].
  exists (obj_assign (obj_assign [] em) nm). unfold Hub._on. rewrite Hfind.
  assert (forall k, obj_get (obj_assign (obj_assign [] em) nm) k =
                    match obj_get nm k with
                    | Some f => Some f
                    | None => obj_get em k
                    end) as Hget.
  { intros k. rewrite !obj_get_assign. cbn [obj_get].
    destruct (obj_get nm k); [reflexivity|]. now destruct (obj_get em k). }
  split; [|split; [|split]].
  - unfold Hub.find_pair in *. cbn [Hub._eventHandlerMap Hub.with_handlers].
    eapply find_insert_same; [exact Hfind | reflexivity].
  - exact Hget.
  - now rewrite Hget, Hnm, Hem.
  - cbn [Hub._eventHandlerMap Hub.with_handlers]. apply length_insert.
Qed.

Lemma on_merges_method_maps_witness :
  let h := Hub._on (Hub.create "A") (Hub.Peer 1)
             (Hub.OnMap [("add", 1%nat); ("sub", 2%nat)]) in
  exists merged,
    Hub.find_pair (Hub._on h (Hub.Peer 1) (Hub.OnMap [("sub", 3%nat); ("mul", 4%nat)]))
      (Hub.Peer 1) = Some (0%nat, (Hub.Peer 1, Hub.HMap merged))
    /\ obj_get merged "add" = Some 1%nat
    /\ obj_get merged "sub" = Some 3%nat
    /\ obj_get merged "mul" = Some 4%nat.
Proof.
  intros h.
  destruct (on_merges_method_maps h (Hub.Peer 1) (Hub.Peer 1) 0
              [("add", 1%nat); ("sub", 2%nat)] [("sub", 3%nat); ("mul", 4%nat)]
              eq_refl eq_refl eq_refl) as (merged & Hfind & Hget & _).
  exists merged. split; [exact Hfind|].
  repeat split; rewrite Hget; reflexivity.
Defined.

(** X12. [_off(target)], without a method name or with the empty one,
    removes what is registered for the target, and nothing else. On a hub
    in any state that has one entry for a target (as [_on] keeps it):
    [_eventHandlerMap] loses the entry found for the target and is
    otherwise as before, [find] has no entry for the target afterwards, and
    the entries of the other targets are the ones they were; [_off] on a
    target that has no entry changes nothing, with or without a method
    name. *)
Theorem off_removes_the_registration
  (h : Hub.hub) (t : Hub.target) (methodName : option string) :
  NoDup (map fst (Hub._eventHandlerMap h)) ->
  Hub.no_methodName methodName = true ->
  Hub.find_pair (Hub._off h t methodName) t = None
  /\ (forall idx reg,
        Hub.find_pair h t = Some (idx, reg) ->
        Hub._off h t methodName =
        Hub.with_handlers h (delete idx (Hub._eventHandlerMap h)))
  /\ (forall t2, t2 <> t ->
        snd <$> Hub.find_pair (Hub._off h t methodName) t2 =
        snd <$> Hub.find_pair h t2)
  /\ (Hub.find_pair h t = None -> forall name, Hub._off h t name = h).
Proof.
  intros Hnd Hno. split; [|split; [|split]].
  - unfold Hub._off.
    destruct (Hub.find_pair h t) as [[idx [t' ex]]|] eqn:Hfind; [|exact Hfind].
    rewrite Hno. eapply splice_find_same; eauto.
  - intros idx [t' ex] Hfind. unfold Hub._off. now rewrite Hfind, Hno.
  - intros t2 Hne. unfold Hub._off.
    destruct (Hub.find_pair h t) as [[idx [t' ex]]|] eqn:Hfind; [|reflexivity].
    destruct (find_pair_target _ _ _ _ _ Hfind) as [-> Hl]. rewrite Hno.
    unfold Hub.find_pair. cbn [Hub._eventHandlerMap Hub.with_handlers].
    eapply find_delete_other; [exact Hl|]. cbn. congruence.
  - intros Hnone name. unfold Hub._off. now rewrite Hnone.
Qed.

Lemma off_removes_the_registration_witness :
  let h := Hub.MkHub "A" [(Hub.Peer 1, Hub.HMap [("add", 1%nat)]);
                          (Hub.Peer 2, Hub.HFunction 2)] [] 0 [] [] in
  NoDup (map fst (Hub._eventHandlerMap h))
  /\ Hub.find_pair (Hub._off h (Hub.Peer 1) None) (Hub.Peer 1) = None
  /\ Hub._eventHandlerMap (Hub._off h (Hub.Peer 1) None) =
     [(Hub.Peer 2, Hub.HFunction 2)].
Proof.
  intros h.
  assert (NoDup (map fst (Hub._eventHandlerMap h))) as Hnd.
  { apply (bool_decide_unpack _). vm_compute. exact I. }
  split; [exact Hnd|]. split; [|reflexivity].
  apply (off_removes_the_registration h (Hub.Peer 1) None Hnd). reflexivity.
Defined.

(** X13. [_off(target, methodName)] with a name, on a hub in any state
    that has one entry for a target, where the entry found for the target
    is a method map with the own properties [m]: the call deletes the
    property [methodName] from the map and keeps the others; the entry of
    the target goes when the map has no property left, and stays in its
    place with the properties left otherwise. *)
Theorem off_method_removes_one_method
  (h : Hub.hub) (t t' : Hub.target) (idx : nat) (m : obj nat) (name : string) :
  NoDup (map fst (Hub._eventHandlerMap h)) ->
  Hub.find_pair h t = Some (idx, (t', Hub.HMap m)) ->
  name <> "" ->
  Hub.find_pair (Hub._off h t (Some name)) t =
    match obj_delete m name with
    | [] => None
    | left_over => Some (idx, (t, Hub.HMap left_over))
    end
  /\ obj_get (obj_delete m name) name = None
  /\ (forall k, k <> name -> obj_get (obj_delete m name) k = obj_get m k).
Proof.
  intros Hnd Hfind Hname.
  destruct (find_pair_target _ _ _ _ _ Hfind) as [-> Hl].
  split; [|split].
  - pose proof (splice_find_same h t idx _ Hnd Hfind) as Hgone.
    unfold Hub._off. rewrite Hfind. cbn [Hub.no_methodName].
    apply String.eqb_neq in Hname. rewrite Hname.
    change (default "" (Some name)) with name.
    destruct (obj_delete m name) as [|kv rest] eqn:Hdel; cbn [keys map length Nat.eqb].
    + exact Hgone.
    + unfold Hub.find_pair in *. cbn [Hub._eventHandlerMap Hub.with_handlers].
      eapply find_insert_same; [exact Hfind | reflexivity].
  - rewrite obj_get_delete. now rewrite String.eqb_refl.
  - intros k Hk. rewrite obj_get_delete.
    apply not_eq_sym, String.eqb_neq in Hk. now rewrite Hk.
Qed.

Lemma off_method_removes_one_method_witness :
  let h := Hub.MkHub "A" [(Hub.Peer 1, Hub.HMap [("add", 1%nat); ("sub", 2%nat)]);
                          (Hub.Peer 2, Hub.HMap [("add", 1%nat)])] [] 0 [] [] in
  NoDup (map fst (Hub._eventHandlerMap h))
  /\ Hub.find_pair (Hub._off h (Hub.Peer 1) (Some "add")) (Hub.Peer 1) =
     Some (0%nat, (Hub.Peer 1, Hub.HMap [("sub", 2%nat)]))
  /\ Hub.find_pair (Hub._off h (Hub.Peer 2) (Some "add")) (Hub.Peer 2) = None.
Proof.
  intros h.
  assert (NoDup (map fst (Hub._eventHandlerMap h))) as Hnd.
  { apply (bool_decide_unpack _). vm_compute. exact I. }
  split; [exact Hnd|]. split.
  - destruct (off_method_removes_one_method h (Hub.Peer 1) (Hub.Peer 1) 0
                [("add", 1%nat); ("sub", 2%nat)] "add" Hnd eq_refl) as (H & _);
      [discriminate|].
    exact H.
  - destruct (off_method_removes_one_method h (Hub.Peer 2) (Hub.Peer 2) 1
                [("add", 1%nat)] "add" Hnd eq_refl) as (H & _);
      [discriminate|].
    exact H.
Defined.

(** *** AbstractHub: a call from hub to hub *)

Section RoundTripFacts.
Import Hub.
Variable apply_fn : fn -> list value -> list value * outcome.
Implicit Types (h a b : hub) (t : target) (msg : value).

Lemma step_identity h (o : op) h' :
  step apply_fn h o = Some h' ->
  instanceID h' = instanceID h /\ _messageID h <= _messageID h'.
Proof.
  destruct o as [t methodName args|t x|t methodName|t msg]; cbn [step].
  - intros Heq. assert (h' = fst (_emit h t methodName args)) as -> by congruence.
    destruct (emit_request_ids h t methodName args) as [_ ->].
    split; [reflexivity | lia].
  - intros [= <-]. unfold _on.
    destruct (find_pair h t) as [[idx [t' existing]]|]; [split; [reflexivity|cbn; lia]|].
    destruct t; split; try reflexivity; cbn; lia.
  - intros [= <-]. unfold _off.
    destruct (find_pair h t) as [[idx [t' handlerMap]]|]; [|split; [reflexivity|lia]].
    destruct (no_methodName methodName); [split; [reflexivity|cbn; lia]|].
    destruct handlerMap as [f|m]; [split; [reflexivity|lia]|].
    destruct (length (keys (obj_delete m (default "" methodName))) =? 0)%nat;
      split; try reflexivity; cbn; lia.
  - destruct (truthy msg) eqn:Ht.
    + destruct (_isRequest h msg) eqn:Hr.
      * intros H. destruct (onMessage_request_quiet apply_fn h t msg h' Ht Hr H)
          as (Hi & _ & Hm & _). split; [exact Hi | lia].
      * unfold _onMessage. rewrite Ht, Hr. cbn [negb]. intros [= <-].
        destruct (on_reply_ids h msg) as (Hi & _ & Hm & _). split; [exact Hi | lia].
    + unfold _onMessage. rewrite Ht. cbn [negb]. intros [= <-]. split; [reflexivity|lia].
Qed.

Lemma steps_identity (ops : list op) :
  forall h h', steps apply_fn h ops = Some h' ->
               instanceID h' = instanceID h /\ _messageID h <= _messageID h'.
Proof.
  induction ops as [|o ops IH]; intros h h'; cbn [steps].
  - intros [= <-]. split; [reflexivity|lia].
  - destruct (step apply_fn h o) as [h1|] eqn:Hstep; [|discriminate]. cbn.
    intros Hsteps. destruct (step_identity _ _ _ Hstep) as [Hi Hm].
    destruct (IH _ _ Hsteps) as [Hi' Hm']. split; [congruence|lia].
Qed.

(** The request [_buildReqMessage] builds for a method name. *)
Lemma named_request h (name : string) (args : list value) :
  snd (_buildReqMessage h (inl name) args) =
  [("methodName", VStr name); ("fromInstance", VStr (instanceID h));
   ("messageID", VNum (_messageID h + 1)); ("type", VStr "request");
   ("args", VArr args)].
Proof. reflexivity. Qed.

(** What [_normalizeRequest] sends for it: the request itself, or the
    request with the [onprogress] function taken out of the first argument
    and the [progress] flag set. *)
Lemma named_request_sent h t (name : string) (args : list value) :
  let sent := _normalizeRequest t (snd (_buildReqMessage h (inl name) args)) in
  (sent = snd (_buildReqMessage h (inl name) args) /\
   attach_progress (VObj sent) args = Some (args, false))
  \/ (exists o rest,
        args = VObj o :: rest /\
        is_function (field (VObj o) "onprogress") = true /\
        t <> Star /\
        sent = [("methodName", VStr name); ("fromInstance", VStr (instanceID h));
                ("messageID", VNum (_messageID h + 1)); ("type", VStr "request");
                ("args", VArr (VObj (obj_delete (obj_assign [] o) "onprogress") :: rest));
                ("progress", VBool true)]).
Proof.
  rewrite named_request. cbv zeta. unfold _normalizeRequest.
  destruct t as [|p]; [left; split; reflexivity|].
  change (args0 _) with (first args).
  destruct (negb (truthy (first args))
            || negb (is_function (field (first args) "onprogress"))) eqn:Hc.
  { left. split; reflexivity. }
  apply orb_false_iff in Hc as [Ht Hf]. apply negb_false_iff in Ht, Hf.
  destruct args as [|x rest]; [discriminate|]. change (first (x :: rest)) with x in *.
  destruct x as [| | | | | | | |o]; try discriminate Hf.
  right. exists o, rest. repeat split; [exact Hf | discriminate].
Qed.

Lemma progress_messages_trace h t reqMsg (reports : list value) :
  let h' := fold_left (fun hh data =>
                         sendMessage hh t (_buildProgressMessage hh data reqMsg))
              reports h in
  trace h' =
    trace h ++ map (fun d => Sent t (_buildProgressMessage h d reqMsg)) reports
  /\ instanceID h' = instanceID h.
Proof.
  revert h. induction reports as [|d reports IH]; intros h; cbn [fold_left map].
  - split; [now rewrite app_nil_r | reflexivity].
  - destruct (IH (sendMessage h t (_buildProgressMessage h d reqMsg))) as [Ht Hi].
    cbv zeta. rewrite Ht, Hi. cbn [sendMessage emit_event trace instanceID].
    split; [|reflexivity]. rewrite <- app_assoc. reflexivity.
Qed.

(** What [_runMsgCallback] answers: the response of the handler's
    outcome, after its progress reports when the sink is attached. *)
Lemma runMsgCallback_answer b t reqMsg (methodName : string) (args : list value)
  (sink : bool) :
  let expected :=
    match resolve_method b t methodName args with
    | (Some method, xs) => snd (apply_fn method xs)
    | (None, _) => Rejected (VError (no_handler_found methodName))
    end in
  exists h1 data (ok : bool),
    _runMsgCallback apply_fn b t reqMsg methodName args sink =
      (h1, _buildRespMessage b data reqMsg ok)
    /\ (if ok then Fulfilled data else Rejected data) = expected
    /\ trace h1 =
       trace b ++
       match resolve_method b t methodName args with
       | (Some method, xs) =>
           if sink
           then map (fun d => Sent t (_buildProgressMessage b d reqMsg))
                  (fst (apply_fn method xs))
           else []
       | (None, _) => [Warned (no_handler_warning methodName)]
       end.
Proof.
  unfold _runMsgCallback.
  destruct (resolve_method b t methodName args) as [[method|] xs].
  - destruct (apply_fn method xs) as [reports res]. cbn [fst snd].
    destruct (progress_messages_trace b t reqMsg reports) as [Ht Hi].
    destruct sink, res as [data|err].
    + eexists _, data, true. split; [|split; [reflexivity|exact Ht]].
      unfold _buildRespMessage. now rewrite Hi.
    + eexists _, err, false. split; [|split; [reflexivity|exact Ht]].
      unfold _buildRespMessage. now rewrite Hi.
    + exists b, data, true. split; [reflexivity|]. split; [reflexivity|].
      now rewrite app_nil_r.
    + exists b, err, false. split; [reflexivity|]. split; [reflexivity|].
      now rewrite app_nil_r.
  - eexists _, _, false. split; [reflexivity|]. split; reflexivity.
Qed.

(** A response to a request of a pending call, whatever it reports, is
    accepted by that call. *)
Lemma response_accepted a cb msg (data : value) (ok : bool) (responder : hub) :
  pending_wf a ->
  In cb (_responseCallbacks a) ->
  field msg "fromInstance" = VStr (instanceID a) ->
  field msg "messageID" = request_id cb ->
  _isResponse a (cb_reqMsg cb) (_buildRespMessage responder data msg ok) = true.
Proof.
  intros Hwf Hin Hfrom Hid.
  pose proof (wf_from a Hwf) as Hf. rewrite Forall_forall in Hf.
  pose proof (wf_id a Hwf) as Hi. rewrite Forall_forall in Hi.
  apply list_elem_of_In in Hin.
  specialize (Hf cb Hin). destruct (Hi cb Hin) as (n & Hn & _).
  unfold _isResponse. fold (request_id cb).
  change (field (_buildRespMessage responder data msg ok) "toInstance")
    with (field msg "fromInstance").
  change (field (_buildRespMessage responder data msg ok) "messageID")
    with (field msg "messageID").
  change (field (_buildRespMessage responder data msg ok) "type")
    with (VStr "response").
  rewrite Hfrom, Hid, Hf, Hn. simpl.
  rewrite String.eqb_refl, Z.eqb_refl. reflexivity.
Qed.

Lemma progress_accepted a cb msg (data : value) (responder : hub) :
  pending_wf a ->
  In cb (_responseCallbacks a) ->
  field msg "fromInstance" = VStr (instanceID a) ->
  field msg "messageID" = request_id cb ->
  _isProgress a (cb_reqMsg cb) (_buildProgressMessage responder data msg) = true.
Proof.
  intros Hwf Hin Hfrom Hid.
  pose proof (wf_from a Hwf) as Hf. rewrite Forall_forall in Hf.
  pose proof (wf_id a Hwf) as Hi. rewrite Forall_forall in Hi.
  apply list_elem_of_In in Hin.
  specialize (Hf cb Hin). destruct (Hi cb Hin) as (n & Hn & _).
  unfold _isProgress. fold (request_id cb).
  change (field (_buildProgressMessage responder data msg) "toInstance")
    with (field msg "fromInstance").
  change (field (_buildProgressMessage responder data msg) "messageID")
    with (field msg "messageID").
  change (field (_buildProgressMessage responder data msg) "type")
    with (VStr "progress").
  rewrite Hfrom, Hid, Hf, Hn. simpl.
  rewrite String.eqb_refl, Z.eqb_refl. reflexivity.
Qed.
End RoundTripFacts.
Section ExchangeFacts.
Import Hub.
Variable apply_fn : fn -> list value -> list value * outcome.
Implicit Types (h a b : hub) (t : target) (msg : value).

Lemma isRequest_fields b msg (from : string) (n : Z) :
  truthy msg = true ->
  field msg "fromInstance" = VStr from -> from <> "" -> from <> instanceID b ->
  field msg "toInstance" = VUndefined ->
  field msg "messageID" = VNum n -> n <> 0 ->
  field msg "type" = VStr "request" ->
  _isRequest b msg = true.
Proof.
  intros Ht Hfrom Hne Hother Hto Hid Hn Htype. unfold _isRequest.
  rewrite Ht, Hfrom, Hto, Hid, Htype. cbn [truthy is_str negb orb andb].
  apply String.eqb_neq in Hne, Hother. rewrite Hne, Hother.
  apply Z.eqb_neq in Hn. rewrite Hn. reflexivity.
Qed.

(** [_onMessage] on a request. *)
Lemma onMessage_request b t msg (methodName : string) (sent_args args' : list value)
  (sink : bool) :
  truthy msg = true -> _isRequest b msg = true ->
  field msg "methodName" = VStr methodName ->
  field msg "args" = VArr sent_args ->
  attach_progress msg sent_args = Some (args', sink) ->
  _onMessage apply_fn b t msg =
  Some (sendMessage (fst (_runMsgCallback apply_fn b t msg methodName args' sink)) t
          (snd (_runMsgCallback apply_fn b t msg methodName args' sink))).
Proof.
  intros Ht Hr Hm Ha Hp. unfold _onMessage. rewrite Ht, Hr, Hm, Ha, Hp.
  cbn [negb]. now destruct (_runMsgCallback apply_fn b t msg methodName args' sink).
Qed.

(** The call [_emit] has just registered is settled by a response to its
    request. *)
Lemma emit_then_response a t (methodName : string + obj value) (args : list value)
  (from : target) (response : value) :
  pending_wf a ->
  let a1 := fst (_emit a t methodName args) in
  let p := snd (_emit a t methodName args) in
  _isResponse a1 (snd (_buildReqMessage a methodName args)) response = true ->
  promises a1 !! p = Some None /\
  exists a2, _onMessage apply_fn a1 from response = Some a2 /\
             promises a2 !! p = Some (Some (settlement response)).
Proof.
  intros Hwf a1 p Hresp.
  assert (p = length (promises a)) as Hp by reflexivity.
  assert (promises a1 = promises a ++ [None]) as Hpr by reflexivity.
  pose proof (pending_wf_emit a t methodName args Hwf) as Hwf1. fold a1 in Hwf1.
  pose proof (emit_callbacks a t methodName args) as Hcbs. fold a1 in Hcbs.
  split. { rewrite Hpr, Hp. now apply list_lookup_middle. }
  exists (on_reply a1 response). split.
  - apply (onMessage_reply apply_fn a1 from (snd (_buildReqMessage a methodName args))).
    now rewrite Hresp.
  - rewrite (on_reply_response a1 (_responseCallbacks a) []
               (Callback (snd (_buildReqMessage a methodName args)) (length (promises a)))
               response Hwf1 Hcbs Hresp).
    cbn [promises with_callbacks with_promises cb_promise]. rewrite Hp.
    apply list_lookup_insert_eq. rewrite Hpr, length_app. cbn. lia.
Qed.
End ExchangeFacts.

(** X14. A call goes round: hub [a] emits a call of [name]; hub [b],
    another instance, takes what [a] sent as a request, resolves the
    method among its registrations, applies it and sends a response; [a]
    takes that response and settles the promise [_emit] returned with the
    handler's outcome: fulfilled with the value returned, rejected with
    what was thrown, or rejected with the error "no corresponding handler
    found" when [b] resolves no function. The handler gets the arguments
    as emitted unless the progress sink is attached. *)
Theorem call_goes_round
  (apply_fn : fn -> list value -> list value * outcome)
  (ida : string) (opsA : list Hub.op) (a b : Hub.hub)
  (t tb ta : Hub.target) (name : string) (args : list value) :
  ida <> "" ->
  Hub.steps apply_fn (Hub.create ida) opsA = Some a ->
  Hub.instanceID b <> ida ->
  let a1 := fst (Hub._emit a t (inl name) args) in
  let p := snd (Hub._emit a t (inl name) args) in
  let request :=
    VObj (Hub._normalizeRequest t (snd (Hub._buildReqMessage a (inl name) args))) in
  exists sent_args args' sink b' response a2,
    Hub.trace a1 = Hub.trace a ++ [Hub.Sent t request]
    /\ field request "args" = VArr sent_args
    /\ Hub.attach_progress request sent_args = Some (args', sink)
    /\ (sink = false -> args' = args)
    /\ Hub._onMessage apply_fn b tb request = Some b'
    /\ last (Hub.trace b') = Some (Hub.Sent tb response)
    /\ Hub._onMessage apply_fn a1 ta response = Some a2
    /\ Hub.promises a1 !! p = Some None
    /\ Hub.promises a2 !! p =
       Some (Some (match Hub.resolve_method b tb name args' with
                   | (Some method, xs) => snd (apply_fn method xs)
                   | (None, _) => Rejected (VError (Hub.no_handler_found name))
                   end)).
Proof.
  intros Hida Hsteps Hb a1 p request.
  destruct (steps_identity apply_fn opsA _ _ Hsteps) as [Hid Hcount].
  cbn [Hub.create Hub.instanceID Hub._messageID] in Hid, Hcount.
  pose proof (pending_wf_steps apply_fn opsA _ _ Hsteps (pending_wf_create ida)) as Hwf.
  assert (exists sent_args args' sink,
             field request "args" = VArr sent_args
             /\ Hub.attach_progress request sent_args = Some (args', sink)
             /\ (sink = false -> args' = args)
             /\ field request "methodName" = VStr name
             /\ field request "fromInstance" = VStr (Hub.instanceID a)
             /\ field request "toInstance" = VUndefined
             /\ field request "messageID" = VNum (Hub._messageID a + 1)
             /\ field request "type" = VStr "request")
    as (sent_args & args' & sink & Hargs & Hattach & Hsame & Hname & Hfrom & Hto
        & Hmid & Htype).
  { subst request.
    destruct (named_request_sent a t name args)
      as [[Hsent Hattach] | (o & rest & Hargs & Hf & Ht & Hsent)].
    - exists args, args, false. rewrite Hsent in *. rewrite named_request in *.
      repeat split; auto.
    - eexists _, _, true. rewrite Hsent. repeat split; try reflexivity.
      discriminate. }
  destruct (runMsgCallback_answer apply_fn b tb request name args' sink)
    as (h1 & data & ok & Hrun & Hexp & Htrace).
  assert (Hub._isRequest b request = true) as Hreq.
  { apply (isRequest_fields b request (Hub.instanceID a) (Hub._messageID a + 1));
      auto; try congruence; try lia. }
  pose proof (onMessage_request apply_fn b tb request name sent_args args' sink
                eq_refl Hreq Hname Hargs Hattach) as Hb'.
  rewrite Hrun in Hb'. cbn [fst snd] in Hb'.
  assert (Hub._isResponse a1 (snd (Hub._buildReqMessage a (inl name) args))
            (Hub._buildRespMessage b data request ok) = true) as Hresp.
  { apply (response_accepted a1
             (Hub.Callback (snd (Hub._buildReqMessage a (inl name) args))
                (length (Hub.promises a))) request data ok b).
    - now apply pending_wf_emit.
    - unfold a1. rewrite emit_callbacks. apply in_or_app. right. now left.
    - exact Hfrom.
    - rewrite Hmid. unfold Hub.request_id. cbn [Hub.cb_reqMsg].
      now rewrite named_request. }
  destruct (emit_then_response apply_fn a t (inl name) args ta _ Hwf Hresp)
    as (Hpending & a2 & Ha2 & Hsettled).
  exists sent_args, args', sink. eexists. eexists. exists a2.
  split; [reflexivity|]. split; [exact Hargs|]. split; [exact Hattach|].
  split; [exact Hsame|]. split; [exact Hb'|].
  split; [cbn [Hub.sendMessage Hub.emit_event Hub.trace]; apply last_snoc|].
  split; [exact Ha2|]. split; [exact Hpending|].
  fold a1 p in Hsettled. rewrite Hsettled, <- Hexp. unfold Hub.settlement.
  now destruct ok.
Qed.

Lemma call_goes_round_witness :
  let apply_fn := fun (f : fn) (xs : list value) =>
    match f, xs with
    | UserFn 1, [VNum x; VNum y] => ([] : list value, Fulfilled (VNum (x + y)))
    | _, _ => ([], Rejected (VStr "bad call"))
    end in
  let a := Hub.create "A" in
  let b := Hub._on (Hub.create "B") (Hub.Peer 1) (Hub.OnMethod "add" 1) in
  let request :=
    VObj [("methodName", VStr "add"); ("fromInstance", VStr "A");
          ("messageID", VNum 1); ("type", VStr "request");
          ("args", VArr [VNum 1; VNum 2])] in
  exists b' response a2,
    Hub._onMessage apply_fn b (Hub.Peer 1) request = Some b'
    /\ last (Hub.trace b') = Some (Hub.Sent (Hub.Peer 1) response)
    /\ Hub._onMessage apply_fn
         (fst (Hub._emit a (Hub.Peer 2) (inl "add") [VNum 1; VNum 2]))
         (Hub.Peer 2) response = Some a2
    /\ Hub.promises a2 !! 0%nat = Some (Some (Fulfilled (VNum 3))).
Proof.
  intros apply_fn a b request.
  destruct (call_goes_round apply_fn "A" [] a b (Hub.Peer 2) (Hub.Peer 1)
              (Hub.Peer 2) "add" [VNum 1; VNum 2])
    as (sent_args & args' & sink & b' & response & a2 & _ & Hargs & Hattach & _
        & Hb' & Hlast & Ha2 & _ & Hsettled);
    [discriminate | reflexivity | discriminate |].
  injection Hargs as <-. injection Hattach as <- <-.
  exists b', response, a2. repeat split; assumption.
Defined.
Section ProgressFacts.
Import Hub.
Variable apply_fn : fn -> list value -> list value * outcome.
Implicit Types (h a b : hub) (t : target) (msg : value).

(** What is sent for a named request whose first argument has an
    [onprogress] function, to a peer. *)
Lemma named_request_sent_progress h (p : nat) (name : string)
  (o : obj value) (rest : list value) :
  is_function (field (VObj o) "onprogress") = true ->
  _normalizeRequest (Peer p) (snd (_buildReqMessage h (inl name) (VObj o :: rest))) =
  [("methodName", VStr name); ("fromInstance", VStr (instanceID h));
   ("messageID", VNum (_messageID h + 1)); ("type", VStr "request");
   ("args", VArr (VObj (obj_delete (obj_assign [] o) "onprogress") :: rest));
   ("progress", VBool true)].
Proof.
  intros Hf. rewrite named_request. unfold _normalizeRequest.
  change (args0 _) with (VObj o). rewrite Hf. reflexivity.
Qed.

End ProgressFacts.

(** X15. Progress reports go round. A call whose first argument has an
    [onprogress] function [f], emitted to a peer: the hub [b] that takes
    the request gives its handler the first argument with the progress
    sink as [onprogress]; it sends one progress message for each payload
    the handler reports, in order, and the response last; and hub [a], on
    any such progress message, calls [f] with the payload and does nothing
    else (the call stays pending). *)
Theorem progress_reports_go_round
  (apply_fn : fn -> list value -> list value * outcome)
  (ida : string) (opsA : list Hub.op) (a b : Hub.hub)
  (q : nat) (tb ta : Hub.target) (name : string)
  (o : obj value) (rest : list value) (f method : fn) (xs : list value) :
  ida <> "" ->
  Hub.steps apply_fn (Hub.create ida) opsA = Some a ->
  Hub.instanceID b <> ida ->
  obj_get o "onprogress" = Some (VFun f) ->
  let args := VObj o :: rest in
  let a1 := fst (Hub._emit a (Hub.Peer q) (inl name) args) in
  let request :=
    VObj (Hub._normalizeRequest (Hub.Peer q)
            (snd (Hub._buildReqMessage a (inl name) args))) in
  let args' :=
    VObj (obj_set (obj_delete (obj_assign [] o) "onprogress") "onprogress"
            (VFun ProgressSink)) :: rest in
  Hub.resolve_method b tb name args' = (Some method, xs) ->
  exists b' response,
    Hub._onMessage apply_fn b tb request = Some b'
    /\ Hub.trace b' =
       Hub.trace b
       ++ map (fun d => Hub.Sent tb (Hub._buildProgressMessage b d request))
            (fst (apply_fn method xs))
       ++ [Hub.Sent tb response]
    /\ field response "type" = VStr "response"
    /\ (forall d,
          Hub._onMessage apply_fn a1 ta (Hub._buildProgressMessage b d request) =
          Some (Hub.emit_event a1 (Hub.Progressed f d))).
Proof.
  intros Hida Hsteps Hb Hon args a1 request args' Hresolve. subst args.
  destruct (steps_identity apply_fn opsA _ _ Hsteps) as [Hid Hcount].
  cbn [Hub.create Hub.instanceID Hub._messageID] in Hid, Hcount.
  pose proof (pending_wf_steps apply_fn opsA _ _ Hsteps (pending_wf_create ida)) as Hwf.
  assert (is_function (field (VObj o) "onprogress") = true) as Hf
    by (rewrite field_obj, Hon; reflexivity).
  pose proof (named_request_sent_progress a q name o rest Hf) as Hsent.
  assert (Hub._isRequest b request = true) as Hreq.
  { apply (isRequest_fields b request (Hub.instanceID a) (Hub._messageID a + 1));
      [reflexivity | | congruence | congruence | | | lia |];
      subst request; rewrite Hsent; reflexivity. }
  assert (Hub.attach_progress request
            (VObj (obj_delete (obj_assign [] o) "onprogress") :: rest)
          = Some (args', true)) as Hattach
    by (subst request; rewrite Hsent; reflexivity).
  pose proof (onMessage_request apply_fn b tb request name
                (VObj (obj_delete (obj_assign [] o) "onprogress") :: rest)
                args' true eq_refl Hreq) as Hb'.
  rewrite Hb' by (try exact Hattach; subst request; rewrite Hsent; reflexivity).
  destruct (runMsgCallback_answer apply_fn b tb request name args' true)
    as (h1 & data & ok & Hrun & _ & Htrace).
  rewrite Hresolve in Htrace. rewrite Hrun. cbn [fst snd].
  exists (Hub.sendMessage h1 tb (Hub._buildRespMessage b data request ok)),
         (Hub._buildRespMessage b data request ok).
  split; [reflexivity|]. split; [|split; [reflexivity|]].
  - cbn [Hub.sendMessage Hub.emit_event Hub.trace]. rewrite Htrace.
    now rewrite <- app_assoc.
  - intros d.
    set (cb := Hub.Callback
                 (snd (Hub._buildReqMessage a (inl name) (VObj o :: rest)))
                 (length (Hub.promises a))).
    assert (Hub.pending_wf a1) as Hwf1 by now apply pending_wf_emit.
    assert (In cb (Hub._responseCallbacks a1)) as Hin.
    { unfold a1. rewrite emit_callbacks. apply in_or_app. right. now left. }
    assert (Hub._isProgress a1 (Hub.cb_reqMsg cb)
              (Hub._buildProgressMessage b d request) = true) as Hprog.
    { apply progress_accepted; auto; subst request; rewrite Hsent; reflexivity. }
    rewrite (onMessage_reply apply_fn a1 ta (Hub.cb_reqMsg cb))
      by (rewrite Hprog; apply orb_true_r).
    rewrite (on_reply_progress a1 cb _ Hwf1 Hin Hprog).
    assert (Hub.onprogress_of (Hub.cb_reqMsg cb) = Some f) as ->; [|reflexivity].
    unfold Hub.onprogress_of, cb. cbn [Hub.cb_reqMsg]. rewrite named_request.
    change (Hub.args0 _) with (VObj o). now rewrite field_obj, Hon.
Qed.

Lemma progress_reports_go_round_witness :
  let apply_fn := fun (f : fn) (xs : list value) =>
    match f with
    | UserFn 1 => ([VNum 50; VNum 100], Fulfilled (VStr "done"))
    | _ => ([], Rejected VNull)
    end in
  let b := Hub._on (Hub.create "B") (Hub.Peer 1) (Hub.OnMethod "load" 1) in
  let args := [VObj [("url", VStr "u"); ("onprogress", VFun (UserFn 7))]] in
  let a1 := fst (Hub._emit (Hub.create "A") (Hub.Peer 2) (inl "load") args) in
  let request :=
    VObj (Hub._normalizeRequest (Hub.Peer 2)
            (snd (Hub._buildReqMessage (Hub.create "A") (inl "load") args))) in
  exists b' response,
    Hub._onMessage apply_fn b (Hub.Peer 1) request = Some b'
    /\ Hub.trace b' =
       [Hub.Sent (Hub.Peer 1) (Hub._buildProgressMessage b (VNum 50) request);
        Hub.Sent (Hub.Peer 1) (Hub._buildProgressMessage b (VNum 100) request);
        Hub.Sent (Hub.Peer 1) response]
    /\ Hub._onMessage apply_fn a1 (Hub.Peer 2)
         (Hub._buildProgressMessage b (VNum 50) request) =
       Some (Hub.emit_event a1 (Hub.Progressed (UserFn 7) (VNum 50))).
Proof.
  intros apply_fn b args a1 request.
  destruct (progress_reports_go_round apply_fn "A" [] (Hub.create "A") b 2
              (Hub.Peer 1) (Hub.Peer 2) "load" [("url", VStr "u"); ("onprogress", VFun (UserFn 7))]
              [] (UserFn 7) (UserFn 1)
              [VObj [("url", VStr "u"); ("onprogress", VFun ProgressSink)]])
    as (b' & response & Hb' & Htrace & _ & Hprog);
    [discriminate | reflexivity | discriminate | reflexivity | reflexivity |].
  exists b', response. split; [exact Hb'|]. split; [exact Htrace|]. apply Hprog.
Defined.

(** X16. A request that is not for this hub is dropped. A message of type
    "request" that comes from the hub itself, that is addressed to another
    instance, or that has no [fromInstance] or no [messageID], is neither
    dispatched to a handler nor answered, and no pending call takes it:
    [_onMessage] leaves the hub as it is. *)
Theorem misaddressed_request_is_dropped
  (apply_fn : fn -> list value -> list value * outcome)
  (h : Hub.hub) (t : Hub.target) (msg : value) :
  field msg "type" = VStr "request" ->
  field msg "fromInstance" = VStr (Hub.instanceID h)
  \/ (truthy (field msg "toInstance") = true /\
      field msg "toInstance" <> VStr (Hub.instanceID h))
  \/ truthy (field msg "fromInstance") = false
  \/ truthy (field msg "messageID") = false ->
  Hub._isRequest h msg = false
  /\ Hub._onMessage apply_fn h t msg = Some h.
Proof.
  intros Htype Hcase.
  assert (Hub._isRequest h msg = false) as Hreq.
  { unfold Hub._isRequest.
    destruct Hcase as [Hfrom | [[Hto Hne] | [Hfrom | Hid]]].
    - rewrite Hfrom. cbn [is_str]. rewrite String.eqb_refl. cbn [negb].
      now rewrite !andb_false_r.
    - rewrite Hto. cbn [negb orb].
      destruct (is_str (field msg "toInstance") (Hub.instanceID h)) eqn:Hs.
      + apply is_str_true in Hs. contradiction.
      + now rewrite !andb_false_r.
    - rewrite Hfrom. now rewrite !andb_false_r.
    - rewrite Hid. now rewrite !andb_false_r. }
  split; [exact Hreq|]. unfold Hub._onMessage.
  destruct (truthy msg); [|reflexivity]. rewrite Hreq. cbn [negb]. f_equal.
  apply on_reply_miss. apply Forall_forall. intros cb _.
  rewrite run_callback_ret. unfold Hub._isResponse, Hub._isProgress.
  rewrite Htype. cbn [is_str String.eqb Ascii.eqb Bool.eqb].
  now rewrite !andb_false_r.
Qed.

Lemma misaddressed_request_is_dropped_witness :
  let apply_fn := fun (_ : fn) (_ : list value) => ([] : list value, Fulfilled VUndefined) in
  let h := Hub._on (fst (Hub._emit (Hub.create "A") (Hub.Peer 1) (inl "add") []))
             (Hub.Peer 1) (Hub.OnMethod "add" 1) in
  let echo := VObj [("methodName", VStr "add"); ("fromInstance", VStr "A");
                    ("messageID", VNum 1); ("type", VStr "request");
                    ("args", VArr [])] in
  Hub._isRequest h echo = false
  /\ Hub._onMessage apply_fn h (Hub.Peer 1) echo = Some h.
Proof.
  intros apply_fn h echo.
  apply (misaddressed_request_is_dropped apply_fn h (Hub.Peer 1) echo).
  - reflexivity.
  - left. reflexivity.
Defined.

(** X17. A promise settles once: when a promise that [_emit] returned has
    settled, it keeps its outcome through every later call of the hub,
    whatever messages come in. *)
Theorem settled_promise_keeps_its_outcome
  (apply_fn : fn -> list value -> list value * outcome)
  (ops : list Hub.op) :
  forall (h h' : Hub.hub) (p : nat) (o : outcome),
    Hub.steps apply_fn h ops = Some h' ->
    Hub.promises h !! p = Some (Some o) ->
    Hub.promises h' !! p = Some (Some o).
Proof.
  induction ops as [|op0 ops IH]; intros h h' p o; cbn [Hub.steps].
  - now intros [= <-].
  - destruct (Hub.step apply_fn h op0) as [h1|] eqn:Hstep; [|discriminate]. cbn.
    intros Hsteps Hp. eapply IH; [exact Hsteps|].
    eapply step_keeps; eauto.
Qed.

Lemma settled_promise_keeps_its_outcome_witness :
  let apply_fn := fun (_ : fn) (_ : list value) => ([] : list value, Fulfilled VUndefined) in
  let response := fun ok data =>
    VObj [("fromInstance", VStr "B"); ("toInstance", VStr "A");
          ("messageID", VNum 1); ("type", VStr "response");
          ("isSuccess", VBool ok); ("data", data)] in
  let h := Hub.on_reply (fst (Hub._emit (Hub.create "A") (Hub.Peer 1) (inl "m") []))
             (response true (VNum 1)) in
  exists h',
    Hub.steps apply_fn h [Hub.Receive (Hub.Peer 1) (response false (VNum 2));
                          Hub.Emit (Hub.Peer 1) (inl "m") []] = Some h'
    /\ Hub.promises h' !! 0%nat = Some (Some (Fulfilled (VNum 1))).
Proof.
  intros apply_fn response h. eexists. split; [reflexivity|].
  apply (settled_promise_keeps_its_outcome apply_fn
           [Hub.Receive (Hub.Peer 1) (response false (VNum 2));
            Hub.Emit (Hub.Peer 1) (inl "m") []] h); reflexivity.
Defined.
Section IdentityFacts.
Lemma string_length_app (x y : string) :
  String.length (x ++ y) = (String.length x + String.length y)%nat.
Proof. induction x as [|c x IH]; simpl; [reflexivity|]. now rewrite IH. Qed.

Lemma substring_all_but_last (x : string) (c : ascii) :
  String.substring 0 (String.length (x ++ String c "") - 1) (x ++ String c "") = x.
Proof.
  rewrite string_length_app. simpl String.length.
  replace (String.length x + 1 - 1)%nat with (String.length x) by lia.
  induction x as [|a x IH]; simpl; [reflexivity|]. now rewrite IH.
Qed.
End IdentityFacts.

(** X18. The instance ID is the random token twice, with a dash in
    between: [Math.random()] is evaluated once and the string joined with
    itself. The ID is never the empty string, so that the [fromInstance]
    of a request this hub sends is truthy, whatever the token. *)
Theorem instance_id_is_the_token_twice :
  forall random : string,
    Hub.generateInstanceID random = (random ++ "-" ++ random)%string
    /\ truthy (VStr (Hub.generateInstanceID random)) = true
    /\ String.length (Hub.generateInstanceID random) =
       (2 * String.length random + 1)%nat.
Proof.
  intros random.
  assert (Hub.generateInstanceID random = (random ++ "-" ++ random)%string) as ->.
  { unfold Hub.generateInstanceID, Hub.slice_0_minus_1.
    cbn [Hub.join_holes String.append].
    rewrite <- string_app_assoc.
    change (((random ++ "-") ++ random) ++ "-")%string
      with (((random ++ "-") ++ random) ++ String "-" "")%string.
    rewrite substring_all_but_last. now rewrite string_app_assoc. }
  split; [reflexivity|]. split.
  - destruct random; reflexivity.
  - rewrite !string_length_app. simpl String.length. lia.
Qed.

Section NormalizeFacts.
Import Hub.

Lemma field_non_function (v : value) (k : string) :
  truthy v = false -> is_function (field v k) = false.
Proof. destruct v; try reflexivity. discriminate. Qed.

Lemma normalizeRequest_stripped (p : nat) (msg : obj value) :
  negb (truthy (args0 msg)) || negb (is_function (field (args0 msg) "onprogress"))
  = false ->
  exists a o,
    obj_get msg "args" = Some (VArr (VObj o :: a)) /\
    _normalizeRequest (Peer p) msg =
    obj_set (obj_assign (obj_assign [] msg) [("progress", VBool true)]) "args"
      (VArr (VObj (obj_delete (obj_assign [] o) "onprogress") :: a)).
Proof.
  intros Hc. unfold _normalizeRequest. rewrite Hc.
  apply orb_false_iff in Hc as [Ht Hf]. apply negb_false_iff in Ht, Hf.
  assert (field (VObj (obj_assign (obj_assign [] msg) [("progress", VBool true)]))
            "args" = field (VObj msg) "args") as Hargs.
  { rewrite !field_obj, !obj_get_assign. cbn [obj_get String.eqb Ascii.eqb Bool.eqb].
    now destruct (obj_get msg "args"). }
  rewrite Hargs. unfold args0 in *. rewrite field_obj in *.
  destruct (obj_get msg "args") as [[| | | | | | |a|]|]; try discriminate Ht.
  cbn [default] in *. destruct a as [|x a]; [discriminate|].
  change (first (x :: a)) with x in *.
  destruct x as [| | | | | | | |o]; try discriminate Hf.
  exists a, o. split; reflexivity.
Qed.
End NormalizeFacts.

(** X19. What is sent to a peer never has a function as
    [args[0].onprogress], for any request object (also one built from a
    configuration object): [_normalizeRequest] either finds none or sends
    a copy without it. Normalising what was normalised changes nothing,
    the fields other than [args] and [progress] are those of the request,
    and for the target ['*'] the request is sent as it is. *)
Theorem sent_to_peer_has_no_onprogress :
  forall (p : nat) (msg : obj value),
    let sent := Hub._normalizeRequest (Hub.Peer p) msg in
    is_function (field (Hub.args0 sent) "onprogress") = false
    /\ Hub._normalizeRequest (Hub.Peer p) sent = sent
    /\ (forall k, k <> "progress" -> k <> "args" -> obj_get sent k = obj_get msg k)
    /\ Hub._normalizeRequest Hub.Star msg = msg.
Proof.
  intros p msg sent.
  assert (is_function (field (Hub.args0 sent) "onprogress") = false) as Hnone.
  { subst sent.
    destruct (negb (truthy (Hub.args0 msg))
              || negb (is_function (field (Hub.args0 msg) "onprogress"))) eqn:Hc.
    - unfold Hub._normalizeRequest. rewrite Hc.
      apply orb_true_iff in Hc as [Ht|Hf].
      + apply field_non_function. now apply negb_true_iff in Ht.
      + now apply negb_true_iff in Hf.
    - destruct (normalizeRequest_stripped p msg Hc) as (a & o & _ & ->).
      unfold Hub.args0. rewrite field_obj, obj_get_set, String.eqb_refl.
      cbn [default from_option id first head].
      rewrite field_obj, obj_get_delete. reflexivity. }
  split; [exact Hnone|]. split; [|split; [|reflexivity]].
  - unfold Hub._normalizeRequest at 1. fold sent. rewrite Hnone.
    now rewrite orb_true_r.
  - intros k Hk1 Hk2. now apply normalizeRequest_other.
Qed.

Lemma sent_to_peer_has_no_onprogress_witness :
  let msg := [("methodName", VStr "load"); ("timeout", VNum 5);
              ("args", VArr [VObj [("url", VStr "u"); ("onprogress", VFun (UserFn 7))]])] in
  let sent := Hub._normalizeRequest (Hub.Peer 1) msg in
  is_function (field (Hub.args0 sent) "onprogress") = false
  /\ obj_get sent "timeout" = Some (VNum 5)
  /\ field (VObj sent) "args" = VArr [VObj [("url", VStr "u")]].
Proof.
  intros msg sent.
  destruct (sent_to_peer_has_no_onprogress 1 msg) as (Hnone & _ & Hother & _).
  split; [exact Hnone|]. split; [|reflexivity].
  apply Hother; discriminate.
Defined.

(** *** MessageHub *)

Section PairsFacts.
Import MessageHub.

Lemma pairs_get_delete (l : pairs) (k k' : Z) :
  pairs_get (pairs_delete l k) k' = if k =? k' then None else pairs_get l k'.
Proof.
  induction l as [|[k0 v0] l IH]; cbn [pairs_get pairs_delete].
  - now destruct (k =? k').
  - destruct (Z.eqb_spec k0 k) as [->|Hne].
    + rewrite IH. now destruct (Z.eqb_spec k k').
    + cbn [pairs_get]. rewrite IH.
      destruct (Z.eqb_spec k0 k') as [->|Hne'].
      * destruct (Z.eqb_spec k k'); [congruence|reflexivity].
      * reflexivity.
Qed.

Lemma pairs_get_set (l : pairs) (k k' : Z) (v : nat) :
  pairs_get (pairs_set l k v) k' = if k =? k' then Some v else pairs_get l k'.
Proof.
  unfold pairs_set. cbn [pairs_get].
  destruct (Z.eqb_spec k k') as [->|Hne]; [reflexivity|].
  rewrite pairs_get_delete.
  destruct (Z.eqb_spec k k'); [contradiction|reflexivity].
Qed.

Lemma remove_last_snoc (l : list nat) (f : nat) : remove_last f (l ++ [f]) = l.
Proof.
  unfold remove_last. rewrite rev_app_distr. cbn [rev app remove_first].
  rewrite Nat.eqb_refl. apply rev_involutive.
Qed.

Lemma remove_first_app (l l' : list nat) (f : nat) :
  ~ In f l -> remove_first f (l ++ f :: l') = l ++ l'.
Proof.
  induction l as [|x l IH]; cbn [remove_first app].
  - now rewrite Nat.eqb_refl.
  - intros Hnot. destruct (Nat.eqb_spec x f) as [->|Hne].
    + exfalso. apply Hnot. now left.
    + f_equal. apply IH. intros H. apply Hnot. now right.
Qed.

(** [off] takes out the last registration of the callback. *)
Lemma remove_last_middle (a b : list nat) (f : nat) :
  ~ In f b -> remove_last f (a ++ f :: b) = a ++ b.
Proof.
  intros Hnot. unfold remove_last.
  rewrite rev_app_distr. cbn [rev]. rewrite <- app_assoc. cbn [app].
  rewrite remove_first_app by (now rewrite <- in_rev).
  now rewrite rev_app_distr, !rev_involutive.
Qed.
End PairsFacts.

Section MessageHubFacts.
Import MessageHub.
Context {E : Type}.
Variable returns_false : nat -> value -> bool.
Implicit Types (h a b : hub E).

Lemma fetch_result h (channel : string) (payload transfers : value) :
  channel <> secret_channel -> count h + 1 <> 0 ->
  fetch h channel payload transfers =
  Some (MkHub (type h) (peer h) (targetOrigin h) (count h + 1) (evtsCbs h)
          (pairs_set (promisePairs h) (count h + 1) (length (promises h)))
          (isReady h) (composie h) (env h) (promises h ++ [None])
          (effects h ++
             [Posted (post_args h (posted_request channel payload (count h + 1))
                        transfers)]),
        Some (length (promises h))).
Proof.
  intros Hch Hid. unfold fetch, postMessage.
  change (is_str (field (VObj (request_of channel payload transfers)) "type") "request")
    with true. cbv iota.
  change (is_str (field (VObj (request_of channel payload transfers)) "channel")
            secret_channel) with (String.eqb channel secret_channel).
  apply String.eqb_neq in Hch. rewrite Hch. cbv iota beta zeta.
  change (obj_delete (obj_set (request_of channel payload transfers) "id"
                        (VNum (count h + 1))) "transfers")
    with (posted_request channel payload (count h + 1)).
  change (field (VObj (obj_set (request_of channel payload transfers) "id"
                         (VNum (count h + 1)))) "transfers") with transfers.
  change (is_str (field (VObj (posted_request channel payload (count h + 1))) "type")
            "response") with false.
  change (field (VObj (posted_request channel payload (count h + 1))) "id")
    with (VNum (count h + 1)).
  cbn [negb andb truthy]. apply Z.eqb_neq in Hid. rewrite Hid. reflexivity.
Qed.

Lemma emit_result h (channel : string) (payload transfers : value) :
  channel <> secret_channel ->
  emit h channel payload transfers =
  Some (effect_of h (Posted (post_args h (posted_request channel payload 0) transfers))).
Proof.
  intros Hch. unfold emit, postMessage.
  change (is_str (field (VObj (request_of channel payload transfers)) "type") "request")
    with true. cbv iota.
  change (is_str (field (VObj (request_of channel payload transfers)) "channel")
            secret_channel) with (String.eqb channel secret_channel).
  apply String.eqb_neq in Hch. rewrite Hch. reflexivity.
Qed.

Lemma respond_result h (id : value) (channel : string) (response : value) (t : bool) :
  respond h id channel response t =
  Some (effect_of h (Posted (post_args h (posted_response t id channel response)
                               VUndefined))).
Proof. reflexivity. Qed.

(** [onMessage] on an event it does not ignore, with a channel. *)
Lemma onMessage_channel h (e : message_event) c (channel : string) :
  ignores h e = false -> composie h = Some c ->
  field (data e) "channel" = VStr channel -> channel <> "" ->
  onMessage returns_false h e =
  if truthy (field (data e) "id") then
    if is_str (field (data e) "type") "response"
    then fst <$> resolveFetch h (data e)
    else
      '(h1, taken) ← resolveFetch h (data e);
      if (taken : bool) then respond h1 (field (data e) "id") channel VUndefined true
      else if inherited channel
              && negb (bool_decide (is_Some (obj_get (Composie.routers c) channel)))
      then None
      else
        '(res, w) ← Composie.run c channel (field (data e) "data") (env h1);
        let h2 := with_env h1 (Composie.ext w) in
        match res with
        | Fulfilled _ =>
            respond h2 (field (data e) "id") channel
              (Composie.response (Composie.ctx w)) true
        | Rejected _ =>
            respond (effect_of h2 (Warned "run middleware failed"))
              (field (data e) "id") channel
              (Composie.response (Composie.ctx w)) false
        end
  else
    '(h1, taken) ← resolveFetch h (data e);
    if (taken : bool) then Some h1
    else if inherited channel then None
    else
      match obj_get (evtsCbs h1) channel with
      | None | Some [] =>
          Some (effect_of h1 (Warned "no corresponed callback for"))
      | Some cbs => Some (dispatch returns_false h1 cbs (field (data e) "data"))
      end.
Proof.
  intros Hacc Hc Hch Hne. unfold onMessage. rewrite Hacc, Hc, Hch.
  assert (truthy (data e) = true) as ->.
  { destruct (data e); try discriminate Hch; reflexivity. }
  cbn [truthy andb]. apply String.eqb_neq in Hne. rewrite Hne. reflexivity.
Qed.

End MessageHubFacts.

(** A fetch is settled by its response. [fetch] on a channel other
    than the handshake's posts a request with the next id (the counter
    plus one, never 0) and returns a pending promise kept under that id.
    A response with that id, on an event the hub does not ignore, settles
    the promise: it rejects with [data] when [resolved] is [false] and
    fulfils with [data] otherwise, also when [resolved] is missing; the
    pair is removed, so that the same response a second time settles
    nothing and is reported as unowned. *)
Lemma response_settles_fetch
  (E : Type) (returns_false : nat -> value -> bool)
  (h : MessageHub.hub E) (c : Composie.composie (Composie.handler E))
  (channel : string) (payload transfers : value)
  (e : MessageHub.message_event) (channel' : string) :
  channel <> MessageHub.secret_channel ->
  0 <= MessageHub.count h ->
  MessageHub.composie h = Some c ->
  MessageHub.ignores h e = false ->
  field (MessageHub.data e) "channel" = VStr channel' -> channel' <> "" ->
  field (MessageHub.data e) "type" = VStr "response" ->
  field (MessageHub.data e) "id" = VNum (MessageHub.count h + 1) ->
  let answer :=
    if strict_eq (VBool false) (field (MessageHub.data e) "resolved")
    then Rejected (field (MessageHub.data e) "data")
    else Fulfilled (field (MessageHub.data e) "data") in
  exists h1 p h2,
    MessageHub.fetch h channel payload transfers = Some (h1, Some p)
    /\ MessageHub.effects h1 =
       MessageHub.effects h ++
       [MessageHub.Posted
          (MessageHub.post_args h
             (MessageHub.posted_request channel payload (MessageHub.count h + 1))
             transfers)]
    /\ MessageHub.promises h1 !! p = Some None
    /\ MessageHub.onMessage returns_false h1 e = Some h2
    /\ MessageHub.promises h2 !! p = Some (Some answer)
    /\ MessageHub.pairs_get (MessageHub.promisePairs h2) (MessageHub.count h + 1) = None
    /\ MessageHub.onMessage returns_false h2 e =
       Some (MessageHub.effect_of h2 (MessageHub.Warned "unowned message with id")).
Proof.
  intros Hch Hcount Hc Hacc Hch' Hne Htype Hid answer.
  rewrite (fetch_result h channel payload transfers Hch) by lia.
  eexists _, _, _. split; [reflexivity|]. split; [reflexivity|].
  split; [cbn [MessageHub.promises]; now apply list_lookup_middle|].
  assert (forall h0 : MessageHub.hub E,
             MessageHub.ignores h0 e = false -> MessageHub.composie h0 = Some c ->
             MessageHub.onMessage returns_false h0 e =
             fst <$> MessageHub.resolveFetch h0 (MessageHub.data e)) as Hon.
  { intros h0 H0 Hc0.
    rewrite (onMessage_channel returns_false h0 e c channel' H0 Hc0 Hch' Hne).
    rewrite Hid, Htype. cbn [truthy is_str String.eqb Ascii.eqb Bool.eqb].
    destruct (Z.eqb_spec (MessageHub.count h + 1) 0); [lia | reflexivity]. }
  assert (forall h0 : MessageHub.hub E,
             MessageHub.resolveFetch h0 (MessageHub.data e) =
             match MessageHub.pairs_get (MessageHub.promisePairs h0)
                     (MessageHub.count h + 1) with
             | Some p =>
                 Some (MessageHub.with_pairs (MessageHub.settle h0 p answer)
                         (MessageHub.pairs_delete (MessageHub.promisePairs h0)
                            (MessageHub.count h + 1)), true)
             | None =>
                 Some (MessageHub.effect_of h0
                         (MessageHub.Warned "unowned message with id"), false)
             end) as Hres.
  { intros h0. unfold MessageHub.resolveFetch. rewrite Hid, Htype.
    cbn [truthy is_str String.eqb Ascii.eqb Bool.eqb negb andb orb].
    destruct (Z.eqb_spec (MessageHub.count h + 1) 0); [lia|]. cbn [negb].
    destruct (MessageHub.pairs_get _ _); [reflexivity|].
    unfold MessageHub.secret_id.
    destruct (Z.eqb_spec (MessageHub.count h + 1) (-1)); [lia | reflexivity]. }
  rewrite Hon by assumption. rewrite Hres.
  cbn [MessageHub.promisePairs]. rewrite pairs_get_set, Z.eqb_refl.
  cbn [fmap option_fmap option_map fst].
  split; [reflexivity|].
  assert (MessageHub.settle
            (MessageHub.MkHub (MessageHub.type h) (MessageHub.peer h)
               (MessageHub.targetOrigin h) (MessageHub.count h + 1)
               (MessageHub.evtsCbs h)
               (MessageHub.pairs_set (MessageHub.promisePairs h)
                  (MessageHub.count h + 1) (length (MessageHub.promises h)))
               (MessageHub.isReady h) (MessageHub.composie h) (MessageHub.env h)
               (MessageHub.promises h ++ [None])
               (MessageHub.effects h ++
                  [MessageHub.Posted
                     (MessageHub.post_args h
                        (MessageHub.posted_request channel payload
                           (MessageHub.count h + 1)) transfers)]))
            (length (MessageHub.promises h)) answer
          = MessageHub.MkHub (MessageHub.type h) (MessageHub.peer h)
               (MessageHub.targetOrigin h) (MessageHub.count h + 1)
               (MessageHub.evtsCbs h)
               (MessageHub.pairs_set (MessageHub.promisePairs h)
                  (MessageHub.count h + 1) (length (MessageHub.promises h)))
               (MessageHub.isReady h) (MessageHub.composie h) (MessageHub.env h)
               (MessageHub.promises h ++ [Some answer])
               (MessageHub.effects h ++
                  [MessageHub.Posted
                     (MessageHub.post_args h
                        (MessageHub.posted_request channel payload
                           (MessageHub.count h + 1)) transfers)])) as ->.
  { unfold MessageHub.settle. cbn [MessageHub.promises].
    rewrite list_lookup_middle by reflexivity.
    unfold MessageHub.with_promises. cbn. f_equal.
    rewrite insert_app_r_alt by lia. now rewrite Nat.sub_diag. }
  split; [cbn [MessageHub.promises MessageHub.with_pairs];
          now apply list_lookup_middle|].
  split.
  - cbn [MessageHub.promisePairs MessageHub.with_pairs].
    now rewrite pairs_get_delete, Z.eqb_refl.
  - rewrite Hon by assumption. rewrite Hres.
    cbn [MessageHub.promisePairs MessageHub.with_pairs].
    rewrite pairs_get_delete, Z.eqb_refl. reflexivity.
Qed.

(** X20. A fetch is settled by its response. [fetch] on a channel other
    than the handshake's posts a request with the next id (the counter
    plus one, never 0) and returns a pending promise kept under that id.
    A response with that id, on an event the hub does not ignore, settles
    the promise: it rejects with [data] when [resolved] is [false] and
    fulfils with [data] otherwise, also when [resolved] is missing; the
    pair is removed, so that the same response a second time settles
    nothing and is reported as unowned. *)
Theorem fetch_is_settled_by_its_response
  (E : Type) (returns_false : nat -> value -> bool)
  (h : MessageHub.hub E) (c : Composie.composie (Composie.handler E))
  (channel : string) (payload transfers : value)
  (e : MessageHub.message_event) (channel' : string) :
  channel <> MessageHub.secret_channel ->
  0 <= MessageHub.count h ->
  MessageHub.composie h = Some c ->
  MessageHub.ignores h e = false ->
  field (MessageHub.data e) "channel" = VStr channel' -> channel' <> "" ->
  field (MessageHub.data e) "type" = VStr "response" ->
  field (MessageHub.data e) "id" = VNum (MessageHub.count h + 1) ->
  let answer :=
    if strict_eq (VBool false) (field (MessageHub.data e) "resolved")
    then Rejected (field (MessageHub.data e) "data")
    else Fulfilled (field (MessageHub.data e) "data") in
  exists h1 p h2,
    MessageHub.fetch h channel payload transfers = Some (h1, Some p)
    /\ MessageHub.effects h1 =
       MessageHub.effects h ++
       [MessageHub.Posted
          (MessageHub.post_args h
             (MessageHub.posted_request channel payload (MessageHub.count h + 1))
             transfers)]
    /\ MessageHub.promises h1 !! p = Some None
    /\ MessageHub.onMessage returns_false h1 e = Some h2
    /\ MessageHub.promises h2 !! p = Some (Some answer)
    /\ MessageHub.pairs_get (MessageHub.promisePairs h2) (MessageHub.count h + 1) = None
    /\ MessageHub.onMessage returns_false h2 e =
       Some (MessageHub.effect_of h2 (MessageHub.Warned "unowned message with id")).
Proof.
  intros Hch Hcount Hc Hacc Hch' Hne Htype Hid answer.
  now apply (response_settles_fetch E returns_false h c channel payload transfers
               e channel').
Qed.

Lemma fetch_is_settled_by_its_response_witness :
  let returns_false := fun (_ : nat) (_ : value) => false in
  let h := MessageHub.MkHub MessageHub.Worker 1 "*" 0 [] [] true
             (Some (Composie.create "w")) tt [] [] in
  let e := MessageHub.MessageEvent None "o"
             (VObj [("resolved", VBool false); ("id", VNum 1);
                    ("channel", VStr "sum"); ("type", VStr "response");
                    ("data", VStr "failed")]) in
  exists h1 h2,
    MessageHub.fetch h "sum" (VArr [VNum 1; VNum 2]) VUndefined = Some (h1, Some 0%nat)
    /\ MessageHub.onMessage returns_false h1 e = Some h2
    /\ MessageHub.promises h2 = [Some (Rejected (VStr "failed"))].
Proof.
  intros returns_false h e.
  destruct (fetch_is_settled_by_its_response unit returns_false h (Composie.create "w")
              "sum" (VArr [VNum 1; VNum 2]) VUndefined e "sum")
    as (h1 & p & h2 & Hfetch & _ & _ & Hon & _);
    try reflexivity; try discriminate.
  exists h1, h2. injection Hfetch as <- <-. split; [reflexivity|].
  split; [exact Hon|]. injection Hon as <-. reflexivity.
Defined.

Section EventFacts.
Import MessageHub.
Context {E : Type}.
Variable returns_false : nat -> value -> bool.
Implicit Types (h a b : hub E).

Lemma dispatch_calls h (cbs : list nat) (payload : value) :
  (Forall (fun cb => returns_false cb payload = false) cbs ->
   dispatch returns_false h cbs payload =
   fold_left effect_of (map (fun cb => Called cb payload) cbs) h)
  /\ (forall before f after,
        cbs = before ++ f :: after ->
        Forall (fun cb => returns_false cb payload = false) before ->
        returns_false f payload = true ->
        dispatch returns_false h cbs payload =
        fold_left effect_of (map (fun cb => Called cb payload) (before ++ [f])) h).
Proof.
  revert h. induction cbs as [|cb cbs IH]; intros h; split.
  - reflexivity.
  - intros [|? ?] f after Heq; discriminate Heq.
  - intros Hall. inversion Hall as [|? ? Hcb Hall']; subst. cbn [dispatch].
    rewrite Hcb. destruct (IH (effect_of h (Called cb payload))) as [IH1 _].
    now rewrite (IH1 Hall').
  - intros before f after Heq Hbefore Hf. cbn [dispatch].
    destruct before as [|x before]; cbn [app] in Heq; injection Heq as -> ->.
    + rewrite Hf. reflexivity.
    + inversion Hbefore as [|? ? Hx Hbefore']; subst. rewrite Hx.
      destruct (IH (effect_of h (Called x payload))) as [_ IH2].
      now rewrite (IH2 before f after eq_refl Hbefore' Hf).
Qed.

(** An event as [emit] posts it: [resolveFetch] leaves it alone. *)
Lemma onMessage_event b (e : message_event) c (channel : string) (payload : value) :
  ignores b e = false -> composie b = Some c ->
  channel <> "" -> inherited channel = false ->
  data e = VObj (posted_request channel payload 0) ->
  onMessage returns_false b e =
  match obj_get (evtsCbs b) channel with
  | None | Some [] => Some (effect_of b (Warned "no corresponed callback for"))
  | Some cbs => Some (dispatch returns_false b cbs payload)
  end.
Proof.
  intros Hacc Hc Hne Hinh Hdata.
  rewrite (onMessage_channel returns_false b e c channel Hacc Hc)
    by (rewrite ?Hdata; auto).
  rewrite Hdata. unfold resolveFetch.
  change (field (VObj (posted_request channel payload 0)) "id") with (VNum 0).
  change (field (VObj (posted_request channel payload 0)) "data") with payload.
  cbn [truthy Z.eqb negb orb mbind option_bind]. now rewrite Hinh.
Qed.
End EventFacts.

(** X21. An event emitted reaches the callbacks registered for its
    channel. [emit] posts a request with id 0 and keeps no promise. The
    hub that takes it calls the callbacks registered with [on] for the
    channel, in the order registered, each with the payload, and stops
    after the first one that returns [false]; with no callback it only
    warns. Nothing is posted back. *)
Theorem emitted_event_reaches_the_callbacks
  (E : Type) (returns_false : nat -> value -> bool)
  (a b : MessageHub.hub E) (c : Composie.composie (Composie.handler E))
  (channel : string) (payload transfers : value) (e : MessageHub.message_event) :
  channel <> MessageHub.secret_channel ->
  channel <> "" ->
  MessageHub.inherited channel = false ->
  MessageHub.composie b = Some c ->
  MessageHub.ignores b e = false ->
  MessageHub.data e = VObj (MessageHub.posted_request channel payload 0) ->
  let cbs := default [] (obj_get (MessageHub.evtsCbs b) channel) in
  let calls (l : list nat) :=
    fold_left MessageHub.effect_of
      (map (fun cb => MessageHub.Called cb payload) l) b in
  MessageHub.emit a channel payload transfers =
    Some (MessageHub.effect_of a
            (MessageHub.Posted
               (MessageHub.post_args a
                  (MessageHub.posted_request channel payload 0) transfers)))
  /\ (cbs = [] ->
      MessageHub.onMessage returns_false b e =
      Some (MessageHub.effect_of b (MessageHub.Warned "no corresponed callback for")))
  /\ (Forall (fun cb => returns_false cb payload = false) cbs -> cbs <> [] ->
      MessageHub.onMessage returns_false b e = Some (calls cbs))
  /\ (forall before f after,
        cbs = before ++ f :: after ->
        Forall (fun cb => returns_false cb payload = false) before ->
        returns_false f payload = true ->
        MessageHub.onMessage returns_false b e = Some (calls (before ++ [f]))).
Proof.
  intros Hsecret Hne Hinh Hc Hacc Hdata cbs calls.
  split; [now apply emit_result|].
  pose proof (onMessage_event returns_false b e c channel payload Hacc Hc Hne Hinh
                Hdata) as Hon.
  subst cbs calls. destruct (obj_get (MessageHub.evtsCbs b) channel) as [[|cb cbs]|];
    cbn [default from_option id] in *.
  - split; [intros _; exact Hon|]. split; [intros _ H; now contradiction H|].
    intros [|? ?] f after Heq; discriminate Heq.
  - split; [discriminate|]. rewrite Hon. split.
    + intros Hall _. f_equal. now apply dispatch_calls.
    + intros before f after Heq Hbefore Hf. f_equal.
      eapply dispatch_calls; eauto.
  - split; [intros _; exact Hon|]. split; [intros _ H; now contradiction H|].
    intros [|? ?] f after Heq; discriminate Heq.
Qed.

Lemma emitted_event_reaches_the_callbacks_witness :
  let returns_false := fun (cb : nat) (_ : value) => (cb =? 2)%nat in
  let a := MessageHub.MkHub MessageHub.Worker 1 "*" 0 [] [] true
             (Some (Composie.create "w")) tt [] [] in
  let b := MessageHub.MkHub MessageHub.Frame 7 "https://a.example" 0
             [("tick", [1; 2; 3]%nat)] [] true (Some (Composie.create "v")) tt [] [] in
  let e := MessageHub.MessageEvent (Some 7%nat) "https://a.example"
             (VObj (MessageHub.posted_request "tick" (VNum 5) 0)) in
  MessageHub.emit a "tick" (VNum 5) VUndefined =
    Some (MessageHub.effect_of a
            (MessageHub.Posted [VObj (MessageHub.posted_request "tick" (VNum 5) 0)]))
  /\ (MessageHub.effects <$> MessageHub.onMessage returns_false b e) =
     Some [MessageHub.Called 1 (VNum 5); MessageHub.Called 2 (VNum 5)].
Proof.
  intros returns_false a b e.
  destruct (emitted_event_reaches_the_callbacks unit returns_false a b
              (Composie.create "v") "tick" (VNum 5) VUndefined e)
    as (Hemit & _ & _ & Hstop);
    try reflexivity; try discriminate.
  split; [exact Hemit|].
  rewrite (Hstop [1%nat] 2%nat [3%nat]); try reflexivity.
  repeat constructor.
Defined.

(** X22. [on] and [off] keep the callbacks of an event in the order
    registered: [on] puts the callback last; [off] with that callback
    takes it out again, so that the callbacks of the event are what they
    were; [off] without a callback removes all the callbacks of the event;
    and the callbacks of the other events are as before. *)
Theorem off_undoes_on
  (E : Type) (h : MessageHub.hub E) (e : string) (f : nat) :
  MessageHub.inherited e = false ->
  let before := default [] (obj_get (MessageHub.evtsCbs h) e) in
  exists h1 h2 h3,
    MessageHub.on h e f = Some h1
    /\ obj_get (MessageHub.evtsCbs h1) e = Some (before ++ [f])
    /\ MessageHub.off h1 e (Some f) = Some h2
    /\ obj_get (MessageHub.evtsCbs h2) e = Some before
    /\ MessageHub.off h1 e None = Some h3
    /\ obj_get (MessageHub.evtsCbs h3) e = Some []
    /\ (forall e', e' <> e ->
          obj_get (MessageHub.evtsCbs h1) e' = obj_get (MessageHub.evtsCbs h) e'
          /\ obj_get (MessageHub.evtsCbs h2) e' = obj_get (MessageHub.evtsCbs h) e'
          /\ obj_get (MessageHub.evtsCbs h3) e' = obj_get (MessageHub.evtsCbs h) e').
Proof.
  intros Hinh before.
  set (h1 := MessageHub.with_evtsCbs h
               (obj_set (MessageHub.evtsCbs h) e (before ++ [f]))).
  assert (obj_get (MessageHub.evtsCbs h1) e = Some (before ++ [f])) as Hget
    by (cbn [h1 MessageHub.evtsCbs MessageHub.with_evtsCbs];
        now rewrite obj_get_set, String.eqb_refl).
  exists h1,
    (MessageHub.with_evtsCbs h1 (obj_set (MessageHub.evtsCbs h1) e before)),
    (MessageHub.with_evtsCbs h1 (obj_set (MessageHub.evtsCbs h1) e [])).
  split; [unfold MessageHub.on; now rewrite Hinh|]. split; [exact Hget|].
  assert (exists x l, before ++ [f] = x :: l) as (x & l & Hl)
    by (destruct before; cbn; eauto).
  split.
  { unfold MessageHub.off. rewrite Hinh, Hget, Hl, <- Hl.
    now rewrite remove_last_snoc. }
  split; [cbn [MessageHub.evtsCbs MessageHub.with_evtsCbs];
          now rewrite obj_get_set, String.eqb_refl|].
  split; [unfold MessageHub.off; now rewrite Hinh, Hget, Hl|].
  split; [cbn [MessageHub.evtsCbs MessageHub.with_evtsCbs];
          now rewrite obj_get_set, String.eqb_refl|].
  intros e' Hne. apply not_eq_sym, String.eqb_neq in Hne.
  cbn [h1 MessageHub.evtsCbs MessageHub.with_evtsCbs].
  now rewrite !obj_get_set, Hne.
Qed.

Lemma off_undoes_on_witness :
  let h := MessageHub.MkHub MessageHub.Worker 1 "*" 0 [("tick", [4; 5]%nat)] [] true
             (Some (Composie.create "w")) tt [] [] in
  exists h1 h2,
    MessageHub.on h "tick" 4 = Some h1
    /\ obj_get (MessageHub.evtsCbs h1) "tick" = Some [4; 5; 4]%nat
    /\ MessageHub.off h1 "tick" (Some 4%nat) = Some h2
    /\ obj_get (MessageHub.evtsCbs h2) "tick" = Some [4; 5]%nat.
Proof.
  intros h.
  destruct (off_undoes_on unit h "tick" 4 eq_refl)
    as (h1 & h2 & h3 & Hon & Hget1 & Hoff & Hget2 & _).
  exists h1, h2. repeat split; assumption.
Defined.
(** X23. [off] with a callback takes out one registration of it, the last
    one: the registrations before it, also of the same callback, and the
    ones after it stay in their order. *)
Theorem off_removes_the_last_registration
  (E : Type) (h : MessageHub.hub E) (e : string) (f : nat)
  (earlier later : list nat) :
  MessageHub.inherited e = false ->
  obj_get (MessageHub.evtsCbs h) e = Some (earlier ++ f :: later) ->
  ~ In f later ->
  exists h',
    MessageHub.off h e (Some f) = Some h'
    /\ obj_get (MessageHub.evtsCbs h') e = Some (earlier ++ later)
    /\ (forall e', e' <> e ->
          obj_get (MessageHub.evtsCbs h') e' = obj_get (MessageHub.evtsCbs h) e').
Proof.
  intros Hinh Hget Hnot. unfold MessageHub.off. rewrite Hinh, Hget.
  assert (exists x l, earlier ++ f :: later = x :: l) as (x & l & Hl)
    by (destruct earlier; cbn; eauto).
  rewrite Hl, <- Hl. eexists. split; [reflexivity|].
  cbn [MessageHub.evtsCbs MessageHub.with_evtsCbs]. split.
  - rewrite obj_get_set, String.eqb_refl. now rewrite remove_last_middle.
  - intros e' Hne. apply not_eq_sym, String.eqb_neq in Hne.
    now rewrite obj_get_set, Hne.
Qed.

Lemma off_removes_the_last_registration_witness :
  let h := MessageHub.MkHub MessageHub.Worker 1 "*" 0
             [("tick", [4; 5; 4; 6]%nat)] [] true
             (Some (Composie.create "w")) tt [] [] in
  exists h',
    MessageHub.off h "tick" (Some 4%nat) = Some h'
    /\ obj_get (MessageHub.evtsCbs h') "tick" = Some [4; 5; 6]%nat.
Proof.
  intros h.
  destruct (off_removes_the_last_registration unit h "tick" 4 [4; 5]%nat [6]%nat
              eq_refl eq_refl) as (h' & Hoff & Hget & _).
  - intros [H|[]]. discriminate H.
  - exists h'. split; assumption.
Defined.

Section RequestFacts.
Import MessageHub.
Context {E : Type}.
Variable returns_false : nat -> value -> bool.
Implicit Types (h a b : hub E).

(** A request with an id of its own: the routes run and the hub
    responds. *)
Lemma onMessage_fetch b (e : message_event) c (channel : string) (payload : value)
  (id : Z) :
  ignores b e = false -> composie b = Some c ->
  channel <> "" -> inherited channel = false -> id <> 0 -> id <> secret_id ->
  data e = VObj (posted_request channel payload id) ->
  onMessage returns_false b e =
  '(res, w) ← Composie.run c channel payload (env b);
  let h2 := with_env b (Composie.ext w) in
  match res with
  | Fulfilled _ =>
      respond h2 (VNum id) channel (Composie.response (Composie.ctx w)) true
  | Rejected _ =>
      respond (effect_of h2 (Warned "run middleware failed"))
        (VNum id) channel (Composie.response (Composie.ctx w)) false
  end.
Proof.
  intros Hacc Hc Hne Hinh Hid Hsecret Hdata.
  rewrite (onMessage_channel returns_false b e c channel Hacc Hc)
    by (rewrite ?Hdata; auto).
  rewrite Hdata. unfold resolveFetch.
  change (field (VObj (posted_request channel payload id)) "id") with (VNum id).
  change (field (VObj (posted_request channel payload id)) "data") with payload.
  change (field (VObj (posted_request channel payload id)) "type") with (VStr "request").
  cbn [truthy is_str is_num String.eqb Ascii.eqb Bool.eqb].
  apply Z.eqb_neq in Hid, Hsecret. rewrite Hid, Hsecret.
  cbn [negb orb andb mbind option_bind]. rewrite Hinh. reflexivity.
Qed.
End RequestFacts.

(** X24. A fetch is answered by the routes of the peer. Hub [a] fetches
    on a channel; hub [b] takes the request, runs its middlewares and
    routes for the channel on the payload and posts a response with the
    id and the channel of the request, [resolved] telling whether the run
    resolved, and [context.response] as [data]; hub [a] takes the response
    and settles the promise of the fetch with that [data]: fulfilled when
    the run resolved, rejected when it rejected. A rejection carries
    [context.response], not the error, which is only logged by [b]. *)
Theorem fetch_is_answered_by_the_routes
  (E : Type) (returns_false : nat -> value -> bool)
  (a b : MessageHub.hub E) (ca cb : Composie.composie (Composie.handler E))
  (channel : string) (payload transfers : value)
  (e_request : MessageHub.message_event) :
  channel <> MessageHub.secret_channel ->
  channel <> "" ->
  MessageHub.inherited channel = false ->
  0 <= MessageHub.count a ->
  MessageHub.composie a = Some ca ->
  MessageHub.composie b = Some cb ->
  MessageHub.ignores b e_request = false ->
  MessageHub.data e_request =
    VObj (MessageHub.posted_request channel payload (MessageHub.count a + 1)) ->
  exists a1 p res w b',
    MessageHub.fetch a channel payload transfers = Some (a1, Some p)
    /\ Composie.run cb channel payload (MessageHub.env b) = Some (res, w)
    /\ let resolved := match res with Fulfilled _ => true | Rejected _ => false end in
       let data := Composie.response (Composie.ctx w) in
       let response :=
         MessageHub.posted_response resolved (VNum (MessageHub.count a + 1))
           channel data in
       MessageHub.onMessage returns_false b e_request = Some b'
       /\ last (MessageHub.effects b') =
          Some (MessageHub.Posted (MessageHub.post_args b response VUndefined))
       /\ MessageHub.env b' = Composie.ext w
       /\ (forall e_response,
             MessageHub.ignores a1 e_response = false ->
             MessageHub.data e_response = VObj response ->
             exists a2,
               MessageHub.onMessage returns_false a1 e_response = Some a2
               /\ MessageHub.promises a2 !! p =
                  Some (Some (if resolved then Fulfilled data else Rejected data))).
Proof.
  intros Hsecret Hne Hinh Hcount Hca Hcb Hacc Hdata.
  destruct (run_returns E cb channel payload (MessageHub.env b) (or_introl Hinh))
    as [[res w] Hrun].
  pose proof (onMessage_fetch returns_false b e_request cb channel payload
                (MessageHub.count a + 1) Hacc Hcb Hne Hinh) as Hb.
  rewrite Hrun in Hb. cbn [mbind option_bind] in Hb.
  pose proof (fetch_result a channel payload transfers Hsecret) as Hfetch.
  rewrite Hb by (unfold MessageHub.secret_id; auto; lia).
  destruct res as [v|err]; rewrite respond_result.
  all: eexists _, _, _, w, _; (split; [apply Hfetch; lia|]); (split; [exact Hrun|]).
  all: cbv zeta; (split; [reflexivity|]); (split; [apply last_snoc|]);
       (split; [reflexivity|]).
  all: intros e_response Hacc' Hresp.
  all: destruct (response_settles_fetch E returns_false a ca channel payload transfers
                   e_response channel)
         as (a1' & p' & a2 & Hf & _ & _ & Hon & Hp & _);
         auto; try (rewrite Hresp; reflexivity).
  all: rewrite Hfetch in Hf by lia; injection Hf as <- <-.
  all: exists a2; (split; [exact Hon|]); rewrite Hp, Hresp; reflexivity.
Qed.

Lemma fetch_is_answered_by_the_routes_witness :
  let returns_false := fun (_ : nat) (_ : value) => false in
  let add : Composie.handler unit :=
    Composie.Read (fun w =>
      match Composie.request (Composie.ctx w) with
      | VArr [VNum x; VNum y] => Composie.respond_with (VNum (x + y))
      | _ => Composie.Throw (VStr "bad request")
      end) in
  let a := MessageHub.MkHub MessageHub.Worker 1 "*" 0 [] [] true
             (Some (Composie.create "w")) tt [] [] in
  let b := MessageHub.MkHub MessageHub.Worker 2 "*" 0 [] [] true
             (Composie.route (Composie.create "v") "add" [add]) tt [] [] in
  let e_request := MessageHub.MessageEvent None ""
                     (VObj (MessageHub.posted_request "add" (VArr [VNum 1; VNum 2]) 1)) in
  let e_response := MessageHub.MessageEvent None ""
                      (VObj (MessageHub.posted_response true (VNum 1) "add" (VNum 3))) in
  exists a1 b' a2,
    MessageHub.fetch a "add" (VArr [VNum 1; VNum 2]) VUndefined = Some (a1, Some 0%nat)
    /\ MessageHub.onMessage returns_false b e_request = Some b'
    /\ MessageHub.effects b' = [MessageHub.Posted [MessageHub.data e_response]]
    /\ MessageHub.onMessage returns_false a1 e_response = Some a2
    /\ MessageHub.promises a2 = [Some (Fulfilled (VNum 3))].
Proof.
  intros returns_false add a b e_request e_response.
  destruct (fetch_is_answered_by_the_routes unit returns_false a b
              (Composie.create "w")
              (Composie.Composie "v" [] [("add", [add])])
              "add" (VArr [VNum 1; VNum 2]) VUndefined e_request)
    as (a1 & p & res & w & b' & Hfetch & Hrun & Hb & _ & _ & Hsettle);
    try reflexivity; try discriminate.
  injection Hfetch as <- <-. injection Hrun as <- <-.
  destruct (Hsettle e_response eq_refl eq_refl) as (a2 & Ha2 & _).
  eexists _, b', a2. split; [reflexivity|]. split; [exact Hb|].
  injection Hb as <-. split; [reflexivity|]. split; [exact Ha2|].
  injection Ha2 as <-. reflexivity.
Defined.

(** X25. A frame hub ignores what does not come from its peer: an event
    whose [source] is a window other than the peer, or, when the hub has
    a [targetOrigin] other than ["*"], an event of another origin, leaves
    the hub as it is, whatever its data. A worker hub ignores no event,
    and neither does a frame hub for an event of its peer (or without
    [source]) with the right origin. *)
Theorem frame_hub_ignores_foreign_events
  (E : Type) (returns_false : nat -> value -> bool)
  (h : MessageHub.hub E) (e : MessageHub.message_event) :
  (MessageHub.type h = MessageHub.Frame ->
   (exists w, MessageHub.source e = Some w /\ w <> MessageHub.peer h)
   \/ (MessageHub.targetOrigin h <> "*" /\
       MessageHub.origin e <> MessageHub.targetOrigin h) ->
   MessageHub.onMessage returns_false h e = Some h)
  /\ (MessageHub.type h = MessageHub.Worker -> MessageHub.ignores h e = false)
  /\ (MessageHub.source e = None \/ MessageHub.source e = Some (MessageHub.peer h) ->
      MessageHub.targetOrigin h = "*" \/
      MessageHub.origin e = MessageHub.targetOrigin h ->
      MessageHub.ignores h e = false).
Proof.
  split; [|split].
  - intros Hframe Hforeign. unfold MessageHub.onMessage.
    assert (MessageHub.ignores h e = true) as ->; [|reflexivity].
    unfold MessageHub.ignores. rewrite Hframe.
    destruct Hforeign as [(w & -> & Hne) | [Hstar Hne]].
    + apply Nat.eqb_neq in Hne. now rewrite Hne.
    + unfold MessageHub.isValidateOrigin.
      apply not_eq_sym, String.eqb_neq in Hstar. apply String.eqb_neq in Hne.
      rewrite Hstar, Hne. apply orb_true_r.
  - intros Hw. unfold MessageHub.ignores. now rewrite Hw.
  - intros Hsource Horigin. unfold MessageHub.ignores, MessageHub.isValidateOrigin.
    destruct (MessageHub.type h); [reflexivity|].
    assert (String.eqb "*" (MessageHub.targetOrigin h)
            || String.eqb (MessageHub.origin e) (MessageHub.targetOrigin h) = true) as ->.
    { destruct Horigin as [-> | ->]; [reflexivity|].
      rewrite String.eqb_refl. apply orb_true_r. }
    destruct Hsource as [-> | ->]; [reflexivity|]. now rewrite Nat.eqb_refl.
Qed.
(** X26. The handshake of a frame hub. The constructor posts a request on
    the secret channel with id -1 and keeps a pending promise under that
    id; the hub is not ready. Any hub that takes this request answers it
    at once with a response of id -1 marked resolved, without running its
    routes. The response settles the promise kept under -1 and removes
    it. *)
Theorem handshake_completes
  (E : Type) (returns_false : nat -> value -> bool)
  (peer0 : nat) (origin0 : option string) (wildcard : string) (x : E) :
  let hello :=
    MessageHub.posted_request MessageHub.secret_channel VUndefined (-1) in
  let welcome :=
    MessageHub.posted_response true (VNum (-1)) MessageHub.secret_channel
      VUndefined in
  exists h0,
    MessageHub.create MessageHub.Frame peer0 origin0 wildcard x = Some h0
    /\ MessageHub.effects h0 =
       [MessageHub.Posted (MessageHub.post_args h0 hello VUndefined)]
    /\ MessageHub.isReady h0 = false
    /\ MessageHub.promises h0 = [None]
    /\ MessageHub.pairs_get (MessageHub.promisePairs h0) (-1) = Some 0%nat
    /\ (forall (b : MessageHub.hub E) cb e_request,
          MessageHub.composie b = Some cb ->
          MessageHub.ignores b e_request = false ->
          MessageHub.data e_request = VObj hello ->
          exists b',
            MessageHub.onMessage returns_false b e_request = Some b'
            /\ last (MessageHub.effects b') =
               Some (MessageHub.Posted (MessageHub.post_args b welcome VUndefined))
            /\ MessageHub.env b' = MessageHub.env b)
    /\ (forall e_response,
          MessageHub.ignores h0 e_response = false ->
          MessageHub.data e_response = VObj welcome ->
          exists h1,
            MessageHub.onMessage returns_false h0 e_response = Some h1
            /\ MessageHub.promises h1 = [Some (Fulfilled VUndefined)]
            /\ MessageHub.pairs_get (MessageHub.promisePairs h1) (-1) = None).
Proof.
  intros hello welcome. eexists. split; [reflexivity|].
  split; [reflexivity|]. split; [reflexivity|]. split; [reflexivity|].
  split; [reflexivity|]. split.
  - intros b cb e_request Hc Hacc Hdata.
    rewrite (onMessage_channel returns_false b e_request cb MessageHub.secret_channel
               Hacc Hc) by (rewrite ?Hdata; first [reflexivity | discriminate]).
    rewrite Hdata. unfold MessageHub.resolveFetch.
    change (field (VObj hello) "id") with (VNum (-1)).
    change (field (VObj hello) "type") with (VStr "request").
    cbn [truthy is_str is_num String.eqb Ascii.eqb Bool.eqb Z.eqb Pos.eqb negb andb
           orb MessageHub.secret_id].
    destruct (MessageHub.pairs_get (MessageHub.promisePairs b) (-1)) as [p|];
      cbn [mbind option_bind]; rewrite respond_result;
      (eexists; split; [reflexivity|]).
    + cbn [MessageHub.effects MessageHub.effect_of].
      rewrite last_snoc. unfold MessageHub.post_args, MessageHub.settle.
      now destruct (MessageHub.promises b !! p) as [[|]|].
    + split; [apply last_snoc | reflexivity].
  - intros e_response Hacc Hdata.
    rewrite (onMessage_channel returns_false _ e_response (Composie.create wildcard)
               MessageHub.secret_channel Hacc eq_refl)
      by (rewrite ?Hdata; first [reflexivity | discriminate]).
    rewrite Hdata. eexists. split; [reflexivity|]. split; reflexivity.
Qed.

Lemma handshake_completes_witness :
  let returns_false := fun (_ : nat) (_ : value) => false in
  let hello :=
    MessageHub.posted_request MessageHub.secret_channel VUndefined (-1) in
  let welcome :=
    MessageHub.posted_response true (VNum (-1)) MessageHub.secret_channel
      VUndefined in
  exists h0 h1,
    MessageHub.create MessageHub.Frame 7 (Some "https://a.example") "w" tt = Some h0
    /\ MessageHub.effects h0 =
       [MessageHub.Posted [VObj hello; VStr "https://a.example"]]
    /\ MessageHub.onMessage returns_false h0
         (MessageHub.MessageEvent (Some 7%nat) "https://a.example" (VObj welcome))
       = Some h1
    /\ MessageHub.promises h1 = [Some (Fulfilled VUndefined)].
Proof.
  intros returns_false hello welcome.
  destruct (handshake_completes unit returns_false 7 (Some "https://a.example") "w" tt)
    as (h0 & Hcreate & Heffects & _ & _ & _ & _ & Hresp).
  destruct (Hresp (MessageHub.MessageEvent (Some 7%nat) "https://a.example"
                     (VObj welcome))) as (h1 & Hon & Hp & _).
  - injection Hcreate as <-. reflexivity.
  - reflexivity.
  - exists h0, h1. split; [exact Hcreate|]. split; [|split; assumption].
    rewrite Heffects. injection Hcreate as <-. reflexivity.
Defined.

Lemma frame_hub_ignores_foreign_events_witness :
  let returns_false := fun (_ : nat) (_ : value) => false in
  let h := MessageHub.MkHub MessageHub.Frame 7 "https://a.example" 0
             [("tick", [1]%nat)] [] true (Some (Composie.create "w")) tt [] [] in
  let tick := VObj (MessageHub.posted_request "tick" VNull 0) in
  MessageHub.onMessage returns_false h
    (MessageHub.MessageEvent (Some 7%nat) "https://evil.example" tick) = Some h
  /\ MessageHub.onMessage returns_false h
       (MessageHub.MessageEvent (Some 8%nat) "https://a.example" tick) = Some h
  /\ MessageHub.ignores h
       (MessageHub.MessageEvent (Some 7%nat) "https://a.example" tick) = false.
Proof.
  intros returns_false h tick. split; [|split].
  - apply (frame_hub_ignores_foreign_events unit returns_false h); [reflexivity|].
    right. split; discriminate.
  - apply (frame_hub_ignores_foreign_events unit returns_false h); [reflexivity|].
    left. exists 8%nat. split; [reflexivity | discriminate].
  - apply (frame_hub_ignores_foreign_events unit returns_false h).
    + right. reflexivity.
    + right. reflexivity.
Defined.
